(** * GoCompiler: the bytecode compiler and the stack virtual machine

    A shallow embedding of [compiler/compiler.go], [vm/vm.go] and
    [vm/frame.go], with the packages they import ([opcode], [ir], [ast] and
    the symbol table) modelled next to them.  Every Go package is a module
    of the same name.

    Go values are modelled as follows.
    - [int] and the operands of instructions are [Z]; an [int64] payload is a
      [Z] that every arithmetic operation wraps back into the 64-bit range.
    - A byte is a [Z] in [0, 256); an instruction stream is a [list Z].
    - A slice is a list; an index expression [s[i]] that is out of range
      panics, which the embedding makes explicit ([elemAt], [assign]).
    - A method that mutates its receiver and returns [error] is a function
      from the receiver's state to the returned error (or [None] for [nil])
      and the new state, unless it panics (type [M]). *)

From stdpp Require Import base list strings gmap pretty.
From Stdlib Require Import ZArith Lia.

Local Open Scope Z_scope.
Set Warnings "-register-all,-clear-no-such-hyp,-notation-for-abbreviation".
Set Default Proof Using "Type".

(** ** The Go runtime: panics, slices, the state-and-panic monad *)

Inductive PanicKind :=
| IndexOutOfRange
| NilDereference
| DivideByZero
| TypeAssertion.

Inductive Go (A : Type) :=
| Return (a : A)
| Panics (p : PanicKind).
Arguments Return {A} a.
Arguments Panics {A} p.

(** [s[i]] for a slice [s] and an [int] [i]. *)
Definition elemAt {A} (s : list A) (i : Z) : Go A :=
  if decide (0 <= i) then
    match s !! Z.to_nat i with
    | Some x => Return x
    | None => Panics IndexOutOfRange
    end
  else Panics IndexOutOfRange.

(** [s[i] = x]. *)
Definition assign {A} (s : list A) (i : Z) (x : A) : Go (list A) :=
  if decide (0 <= i < Z.of_nat (length s)) then Return (<[Z.to_nat i := x]> s)
  else Panics IndexOutOfRange.

(** [len(s)] *)
Definition len {A} (s : list A) : Z := Z.of_nat (length s).

(** A computation over a mutable receiver of type [S]. *)
Definition M (S A : Type) : Type := S -> Go (A * S).

Definition ret {S A} (a : A) : M S A := fun s => Return (a, s).

Definition bind {S A B} (m : M S A) (k : A -> M S B) : M S B :=
  fun s => match m s with
           | Return (a, s') => k a s'
           | Panics p => Panics p
           end.

Definition panic {S A} (p : PanicKind) : M S A := fun _ => Panics p.

Definition get {S} : M S S := fun s => Return (s, s).
Definition put {S} (s : S) : M S unit := fun _ => Return (tt, s).

(** Lifts a pure computation that may panic. *)
Definition lift {S A} (g : Go A) : M S A :=
  fun s => match g with Return a => Return (a, s) | Panics p => Panics p end.

Declare Scope go_scope.
Delimit Scope go_scope with go.
Notation "x <- m ;; k" := (bind m (fun x => k))
  (at level 100, m at next level, right associativity) : go_scope.
Notation "m ;; k" := (bind m (fun _ => k))
  (at level 100, right associativity) : go_scope.
(** [err := m; if err != nil { return err }; k] *)
Notation "'try' m ;; k" :=
  (bind m (fun e => match e with Some _ => ret e | None => k end))
  (at level 100, m at next level, right associativity) : go_scope.

(** The value of [fmt.Errorf(format, args...)]: the format string and its
    arguments. *)
Inductive FmtArg (T O : Type) :=
| ArgInt (n : Z)
| ArgStr (s : string)
| ArgType (t : T)
| ArgObj (o : O).
Arguments ArgInt {T O} n.
Arguments ArgStr {T O} s.
Arguments ArgType {T O} t.
Arguments ArgObj {T O} o.

(** ** Package opcode *)

Module opcode.

(** Modelled from the spec: package [opcode] is not among the sources.  The
    opcodes are those of the table of section 4.1, numbered in the order of
    that table from 0; nothing below depends on the numbers beyond their
    being distinct bytes.  [Opcode] is a byte in Go; the embedding names the
    defined ones and decodes a byte with [Lookup]. *)
Inductive Opcode :=
| OpConstant | OpAdd | OpSub | OpMul | OpDiv | OpPop | OpTrue | OpFalse
| OpEqual | OpNotEqual | OpGreaterThan | OpMinus | OpBang | OpJump
| OpJumpNotTruthy | OpNull | OpSetGlobal | OpGetGlobal | OpSetLocal
| OpGetLocal | OpGetFree | OpArray | OpHash | OpIndex | OpCall
| OpReturnValue | OpReturn | OpClosure.

#[global] Instance Opcode_eq_dec : EqDecision Opcode.
Proof. solve_decision. Defined.

Definition Instructions := list Z.

Definition all : list Opcode :=
  [OpConstant; OpAdd; OpSub; OpMul; OpDiv; OpPop; OpTrue; OpFalse;
   OpEqual; OpNotEqual; OpGreaterThan; OpMinus; OpBang; OpJump;
   OpJumpNotTruthy; OpNull; OpSetGlobal; OpGetGlobal; OpSetLocal;
   OpGetLocal; OpGetFree; OpArray; OpHash; OpIndex; OpCall;
   OpReturnValue; OpReturn; OpClosure].

(** [byte(op)] *)
Definition byte (op : Opcode) : Z :=
  match op with
  | OpConstant => 0 | OpAdd => 1 | OpSub => 2 | OpMul => 3 | OpDiv => 4
  | OpPop => 5 | OpTrue => 6 | OpFalse => 7 | OpEqual => 8
  | OpNotEqual => 9 | OpGreaterThan => 10 | OpMinus => 11 | OpBang => 12
  | OpJump => 13 | OpJumpNotTruthy => 14 | OpNull => 15
  | OpSetGlobal => 16 | OpGetGlobal => 17 | OpSetLocal => 18
  | OpGetLocal => 19 | OpGetFree => 20 | OpArray => 21 | OpHash => 22
  | OpIndex => 23 | OpCall => 24 | OpReturnValue => 25 | OpReturn => 26
  | OpClosure => 27
  end.

(** [Opcode(b)] for a byte read from an instruction stream; [None] when the
    byte is none of the defined opcodes. *)
Definition Lookup (b : Z) : option Opcode :=
  list_find (fun op => byte op = b) all ≫= (fun p => Some p.2).

(** The operand widths of the table of section 4.1, in bytes. *)
Definition OperandWidths (op : Opcode) : list Z :=
  match op with
  | OpConstant | OpJump | OpJumpNotTruthy | OpSetGlobal | OpGetGlobal
  | OpArray | OpHash => [2]
  | OpSetLocal | OpGetLocal | OpGetFree | OpCall => [1]
  | OpClosure => [2; 1]
  | _ => []
  end.

(** One operand, big-endian, truncated to its width as the conversions
    [uint16(o)] and [byte(o)] do. *)
Definition putOperand (width o : Z) : list Z :=
  if decide (width = 2) then [(o `mod` 65536) `div` 256; o `mod` 256]
  else if decide (width = 1) then [o `mod` 256]
  else [].

(** [Make(op, operands...)]: the opcode byte followed by the operands in the
    widths of the opcode.  Every call in the compiler passes as many operands
    as the opcode has. *)
Definition Make (op : Opcode) (operands : list Z) : Instructions :=
  byte op :: concat (zip_with putOperand (OperandWidths op) operands).

(** [ReadUint16(ins[pos:])] *)
Definition ReadUint16 (ins : Instructions) (pos : Z) : Go Z :=
  match elemAt ins pos, elemAt ins (pos + 1) with
  | Return hi, Return lo => Return (hi * 256 + lo)
  | _, _ => Panics IndexOutOfRange
  end.

(** [ReadUint8(ins[pos:])] *)
Definition ReadUint8 (ins : Instructions) (pos : Z) : Go Z :=
  elemAt ins pos.

End opcode.

(** ** Package ir: the values *)

Module ir.

(** Modelled from the spec: package [ir] is not among the sources; the
    variants are those of section 3.1.  [ir.Object] is an interface, so a
    variable of that type can also hold [nil]: constructor [Nil].

    Objects are used through pointers, and [==] on two objects compares the
    pointers.  [True], [False] and [Null] are singletons, so they carry no
    address; an [Integer] is never compared by address (the virtual machine
    compares integers by value); every other object carries the address it
    was allocated at.  The compiler allocates an object exactly when it
    appends it to the constant pool, so the address of a constant is its
    index there ([ConstAddr]); the virtual machine numbers its own
    allocations ([HeapAddr]). *)
Inductive Addr :=
| ConstAddr (i : Z)
| HeapAddr (n : Z).

#[global] Instance Addr_eq_dec : EqDecision Addr.
Proof. solve_decision. Defined.

Inductive ObjectType :=
| IntegerObj | BooleanObj | NullObj | StringObj | ArrayObj | HashObj
| CompiledFunctionObj | ClosureObj.

#[global] Instance ObjectType_eq_dec : EqDecision ObjectType.
Proof. solve_decision. Defined.

(** [HashKey{Type, Value}]: the type tag and a 64-bit hash of the content. *)
Record HashKey := { Type_ : ObjectType; Value_ : Z }.

#[global] Instance HashKey_eq_dec : EqDecision HashKey.
Proof. solve_decision. Defined.

Record CompiledFunction := {
  Instructions : opcode.Instructions;
  NumLocals : Z;
  NumParameters : Z
}.

(** The payloads of [*ir.Closure] and [ir.HashPair], over the type of
    objects. *)
Record ClosureOf (O : Type) := {
  Function : CompiledFunction;
  Free : list O
}.
Arguments Function {O} c.
Arguments Free {O} c.

Record HashPairOf (O : Type) := { Key : O; Value : O }.
Arguments Key {O} h.
Arguments Value {O} h.

(** A Go [map[HashKey]HashPair] is kept as an association list in which the
    first binding of a key is the live one; the virtual machine only looks
    keys up, it never iterates over a hash. *)
Inductive Object :=
| Nil
| Integer (Value : Z)
| Boolean (Value : bool)
| Null
| String (p : Addr) (Value : string)
| Array (p : Addr) (Elements : list Object)
| Hash (p : Addr) (Pairs : list (HashKey * HashPairOf Object))
| Function_ (p : Addr) (f : CompiledFunction)
| Closure (p : Addr) (c : ClosureOf Object).

Definition Closure_ := ClosureOf Object.
Definition HashPair := HashPairOf Object.

(** [o.Type()]; calling a method on the nil interface panics. *)
Definition TypeOf (o : Object) : Go ObjectType :=
  match o with
  | Nil => Panics NilDereference
  | Integer _ => Return IntegerObj
  | Boolean _ => Return BooleanObj
  | Null => Return NullObj
  | String _ _ => Return StringObj
  | Array _ _ => Return ArrayObj
  | Hash _ _ => Return HashObj
  | Function_ _ _ => Return CompiledFunctionObj
  | Closure _ _ => Return ClosureObj
  end.

(** [_, ok := o.(ir.Hashable)]: Integer, Boolean and String have a
    [HashKey] method (section 3.1). *)
Definition Hashable (o : Object) : bool :=
  match o with
  | Integer _ | Boolean _ | String _ _ => true
  | _ => false
  end.

(** [left == right] on two interface values.  Two objects of different
    dynamic types are different; two of the same type are equal when they
    are the same pointer. *)
Definition same (x y : Object) : bool :=
  match x, y with
  | Nil, Nil => true
  | Integer a, Integer b => false
  | Boolean a, Boolean b => bool_decide (a = b)
  | Null, Null => true
  | String p _, String q _ => bool_decide (p = q)
  | Array p _, Array q _ => bool_decide (p = q)
  | Hash p _, Hash q _ => bool_decide (p = q)
  | Function_ p _, Function_ q _ => bool_decide (p = q)
  | Closure p _, Closure q _ => bool_decide (p = q)
  | _, _ => false
  end.

(** The 64-bit two's complement value of an integer result. *)
Definition wrap64 (z : Z) : Z := (z + 2 ^ 63) `mod` 2 ^ 64 - 2 ^ 63.

Definition Error := (string * list (FmtArg ObjectType Object))%type.

Definition Errorf (format : string) (args : list (FmtArg ObjectType Object)) : Error :=
  (format, args).

End ir.

(** ** Package ast *)

Module ast.

(** Modelled from the spec: package [ast] is not among the sources.  The
    nodes are those of section 3.4, each with the fields that
    [Compiler.Compile] reads.  [Compile] takes an [ast.Node] and switches on
    its dynamic type, so the embedding has one type of nodes; in Go the
    fields are typed more narrowly (the statements of a block are statements,
    a function body is a block, and so on).  A [LetStatement] and a parameter
    carry the name of their identifier.  [Pairs] of a [HashLiteral] is a Go
    map from key node to value node: the list gives its pairs in the order in
    which one [range] over the map happens to yield them. *)
Inductive Node :=
| Program (Statements : list Node)
| ExpressionStatement (Expression : Node)
| LetStatement (Name : string) (Value : Node)
| ReturnStatement (ReturnValue : Node)
| BlockStatement (Statements : list Node)
| Identifier (Value : string)
| IntegerLiteral (Value : Z)
| StringLiteral (Value : string)
| Boolean (Value : bool)
| ArrayLiteral (Elements : list Node)
| HashLiteral (Pairs : list (Node * Node))
| PrefixExpression (Operator : string) (Right : Node)
| InfixExpression (Left : Node) (Operator : string) (Right : Node)
| IfExpression (Condition : Node) (Consequence : Node) (Alternative : option Node)
| IndexExpression (Left : Node) (Index : Node)
| CallExpression (Function : Node) (Arguments : list Node)
| FunctionLiteral (Parameters : list string) (Body : Node).

End ast.

(** ** Package compiler *)

Module compiler.

Import opcode.

(** *** The symbol table *)

(** Modelled from the spec: the symbol table of package [compiler] is not
    among the sources; it follows sections 3.3 and 4.2. *)
Inductive SymbolScope := GlobalScope | LocalScope | FreeScope.

#[global] Instance SymbolScope_eq_dec : EqDecision SymbolScope.
Proof. solve_decision. Defined.

Record Symbol := { Name : string; Scope : SymbolScope; Index : Z }.

#[global] Instance Symbol_eq_dec : EqDecision Symbol.
Proof. solve_decision. Defined.

(** Modelled from the spec: a scope, linked to its parent; the outermost has
    none.  [numDefinitions] counts the definitions of the scope and
    [FreeSymbols] lists, in first-use order, the symbols of enclosing scopes
    that the scope captured, each as the enclosing scope sees it. *)
Inductive SymbolTable := mkSymbolTable {
  Outer : option SymbolTable;
  store : gmap string Symbol;
  numDefinitions : Z;
  FreeSymbols : list Symbol
}.

Definition NewSymbolTable : SymbolTable :=
  {| Outer := None; store := ∅; numDefinitions := 0; FreeSymbols := [] |}.

Definition NewEnclosedSymbolTable (outer : option SymbolTable) : SymbolTable :=
  {| Outer := outer; store := ∅; numDefinitions := 0; FreeSymbols := [] |}.

(** Modelled from the spec: "assigns the next index in the current scope and
    records the symbol.  At the root scope, scope = Global; otherwise
    Local." *)
Definition Define (name : string) (s : SymbolTable) : Symbol * SymbolTable :=
  let symbol := {| Name := name;
                   Scope := match Outer s with
                            | None => GlobalScope
                            | Some _ => LocalScope
                            end;
                   Index := numDefinitions s |} in
  (symbol, {| Outer := Outer s;
              store := <[name := symbol]> (store s);
              numDefinitions := numDefinitions s + 1;
              FreeSymbols := FreeSymbols s |}).

(** Modelled from the spec: "the current scope defines a Free symbol
    shadowing it at the next free-index"; the list of free symbols keeps the
    original symbol. *)
Definition defineFree (original : Symbol) (s : SymbolTable) : Symbol * SymbolTable :=
  let symbol := {| Name := Name original;
                   Scope := FreeScope;
                   Index := len (FreeSymbols s) |} in
  (symbol, {| Outer := Outer s;
              store := <[Name original := symbol]> (store s);
              numDefinitions := numDefinitions s;
              FreeSymbols := FreeSymbols s ++ [original] |}).

(** Modelled from the spec: "looks up the name in the current scope; on miss,
    recurses into the parent.  If the recursive lookup returns a Global
    symbol, it is returned unchanged.  If it returns a Local or Free symbol,
    the current scope defines a Free symbol".  The recursion records free
    symbols in the enclosing scopes as well, so the tables on the way are
    returned updated. *)
Fixpoint Resolve (name : string) (s : SymbolTable) : option Symbol * SymbolTable :=
  match store s !! name with
  | Some obj => (Some obj, s)
  | None =>
      match Outer s with
      | None => (None, s)
      | Some outer =>
          let '(r, outer') := Resolve name outer in
          let s' := {| Outer := Some outer'; store := store s;
                       numDefinitions := numDefinitions s;
                       FreeSymbols := FreeSymbols s |} in
          match r with
          | None => (None, s')
          | Some obj =>
              match Scope obj with
              | GlobalScope => (Some obj, s')
              | _ => let '(free, s'') := defineFree obj s' in (Some free, s'')
              end
          end
      end
  end.

(** *** The compiler *)

Record Bytecode := {
  Instructions : opcode.Instructions;
  Constants : list ir.Object
}.

Record EmittedInstruction := { Opcode : opcode.Opcode; Position : Z }.

(** [EmittedInstruction{}]: opcode 0 at position 0. *)
Definition noInstruction : EmittedInstruction :=
  {| Opcode := OpConstant; Position := 0 |}.

Record CompilationScope := {
  instructions : opcode.Instructions;
  lastInstruction : EmittedInstruction;
  previousInstruction : EmittedInstruction
}.

(** [symbolTable] is a pointer, [nil] once [leaveScope] has left the
    outermost table. *)
Record Compiler := {
  constants : list ir.Object;
  symbolTable : option SymbolTable;
  scopes : list CompilationScope;
  scopeIndex : Z
}.

Definition emptyScope : CompilationScope :=
  {| instructions := [];
     lastInstruction := noInstruction;
     previousInstruction := noInstruction |}.

Definition New : Compiler :=
  {| constants := [];
     symbolTable := Some NewSymbolTable;
     scopes := [emptyScope];
     scopeIndex := 0 |}.

Definition Error := ir.Error.

Local Open Scope go_scope.

(** [c.scopes[c.scopeIndex]] *)
Definition currentScope : M Compiler CompilationScope :=
  fun c => lift (elemAt (scopes c) (scopeIndex c)) c.

(** [c.scopes[c.scopeIndex] = sc] *)
Definition setCurrentScope (sc : CompilationScope) : M Compiler unit :=
  fun c =>
    match assign (scopes c) (scopeIndex c) sc with
    | Return scs => Return (tt, {| constants := constants c;
                                   symbolTable := symbolTable c;
                                   scopes := scs;
                                   scopeIndex := scopeIndex c |})
    | Panics p => Panics p
    end.

Definition currentInstructions : M Compiler opcode.Instructions :=
  sc <- currentScope ;; ret (instructions sc).

Definition Bytecode_ : M Compiler Bytecode :=
  ins <- currentInstructions ;;
  c <- get ;;
  ret {| Instructions := ins; Constants := constants c |}.

Definition addConstant (obj : ir.Object) : M Compiler Z :=
  fun c =>
    let cs := constants c ++ [obj] in
    Return (len cs - 1, {| constants := cs;
                           symbolTable := symbolTable c;
                           scopes := scopes c;
                           scopeIndex := scopeIndex c |}).

Definition addInstruction (ins : list Z) : M Compiler Z :=
  cur <- currentInstructions ;;
  let posNewInstruction := len cur in
  let updatedInstructions := cur ++ ins in
  sc <- currentScope ;;
  setCurrentScope {| instructions := updatedInstructions;
                     lastInstruction := lastInstruction sc;
                     previousInstruction := previousInstruction sc |} ;;
  ret posNewInstruction.

Definition setLastInstruction (op : opcode.Opcode) (pos : Z) : M Compiler unit :=
  sc <- currentScope ;;
  let previous := lastInstruction sc in
  let last := {| Opcode := op; Position := pos |} in
  setCurrentScope {| instructions := instructions sc;
                     lastInstruction := last;
                     previousInstruction := previous |}.

Definition emit (op : opcode.Opcode) (operands : list Z) : M Compiler Z :=
  let ins := Make op operands in
  pos <- addInstruction ins ;;
  setLastInstruction op pos ;;
  ret pos.

Definition lastInstructionIs (op : opcode.Opcode) : M Compiler bool :=
  cur <- currentInstructions ;;
  if decide (len cur = 0) then ret false
  else sc <- currentScope ;; ret (bool_decide (Opcode (lastInstruction sc) = op)).

(** [old[:last.Position]] keeps the first [Position] bytes.  (Go would also
    allow a position up to the capacity of the slice; the positions that the
    compiler records never exceed its length.) *)
Definition removeLastPop : M Compiler unit :=
  sc <- currentScope ;;
  let last := lastInstruction sc in
  let previous := previousInstruction sc in
  old <- currentInstructions ;;
  if decide (0 <= Position last <= len old) then
    let new := take (Z.to_nat (Position last)) old in
    setCurrentScope {| instructions := new;
                       lastInstruction := previous;
                       previousInstruction := previousInstruction sc |}
  else panic IndexOutOfRange.

(** [for i := 0; i < len(newInstruction); i++ { ins[pos+i] = newInstruction[i] }] *)
Fixpoint replaceBytes (ins : list Z) (pos : Z) (newInstruction : list Z) : Go (list Z) :=
  match newInstruction with
  | [] => Return ins
  | b :: rest =>
      match assign ins pos b with
      | Return ins' => replaceBytes ins' (pos + 1) rest
      | Panics p => Panics p
      end
  end.

(** The slice that [currentInstructions] returns shares its array with the
    current scope, so the assignments update the scope. *)
Definition replaceInstruction (pos : Z) (newInstruction : list Z) : M Compiler unit :=
  sc <- currentScope ;;
  ins <- lift (replaceBytes (instructions sc) pos newInstruction) ;;
  setCurrentScope {| instructions := ins;
                     lastInstruction := lastInstruction sc;
                     previousInstruction := previousInstruction sc |}.

(** [Make] is given the opcode read back from the stream; for a byte that is
    no opcode there is nothing to encode. *)
Definition changeOperand (opPos : Z) (operand : Z) : M Compiler unit :=
  cur <- currentInstructions ;;
  b <- lift (elemAt cur opPos) ;;
  let newInstruction :=
    match Lookup b with
    | Some op => Make op [operand]
    | None => []
    end in
  replaceInstruction opPos newInstruction.

Definition enterScope : M Compiler unit :=
  fun c =>
    Return (tt, {| constants := constants c;
                   symbolTable := Some (NewEnclosedSymbolTable (symbolTable c));
                   scopes := scopes c ++ [emptyScope];
                   scopeIndex := scopeIndex c + 1 |}).

Definition leaveScope : M Compiler opcode.Instructions :=
  ins <- currentInstructions ;;
  fun c =>
    if decide (len (scopes c) = 0) then Panics IndexOutOfRange
    else
      match symbolTable c with
      | None => Panics NilDereference
      | Some s =>
          Return (ins, {| constants := constants c;
                          symbolTable := Outer s;
                          scopes := take (length (scopes c) - 1)%nat (scopes c);
                          scopeIndex := scopeIndex c - 1 |})
      end.

Definition replaceLastPopWithReturn : M Compiler unit :=
  sc <- currentScope ;;
  let lastPos := Position (lastInstruction sc) in
  replaceInstruction lastPos (Make OpReturnValue []) ;;
  sc <- currentScope ;;
  setCurrentScope {| instructions := instructions sc;
                     lastInstruction := {| Opcode := OpReturnValue;
                                           Position := Position (lastInstruction sc) |};
                     previousInstruction := previousInstruction sc |}.

Definition loadSymbol (s : Symbol) : M Compiler unit :=
  match Scope s with
  | GlobalScope => emit OpGetGlobal [Index s] ;; ret tt
  | LocalScope => emit OpGetLocal [Index s] ;; ret tt
  | FreeScope => emit OpGetFree [Index s] ;; ret tt
  end.

(** [c.symbolTable.Define(name)] *)
Definition define (name : string) : M Compiler Symbol :=
  fun c =>
    match symbolTable c with
    | None => Panics NilDereference
    | Some s =>
        let '(symbol, s') := Define name s in
        Return (symbol, {| constants := constants c;
                           symbolTable := Some s';
                           scopes := scopes c;
                           scopeIndex := scopeIndex c |})
    end.

(** [c.symbolTable.Resolve(name)] *)
Definition resolve (name : string) : M Compiler (option Symbol) :=
  fun c =>
    match symbolTable c with
    | None => Panics NilDereference
    | Some s =>
        let '(r, s') := Resolve name s in
        Return (r, {| constants := constants c;
                      symbolTable := Some s';
                      scopes := scopes c;
                      scopeIndex := scopeIndex c |})
    end.

(** [c.symbolTable] dereferenced. *)
Definition theSymbolTable : M Compiler SymbolTable :=
  fun c =>
    match symbolTable c with
    | None => Panics NilDereference
    | Some s => Return (s, c)
    end.

(** [sort.Slice(s, less)], as the insertion sort that the Go library runs on
    a short slice: every element in turn moves left while it is less than its
    left neighbour.  On a long slice the library promises only a sorted
    permutation, which is this one whenever no two elements are equivalent
    under [less].  [moveLeft] works on the sorted prefix in reverse. *)
Fixpoint moveLeft {A} (less : A -> A -> bool) (x : A) (reversed : list A) : list A :=
  match reversed with
  | [] => [x]
  | y :: rest => if less x y then y :: moveLeft less x rest else x :: y :: rest
  end.

Definition sortSlice {A} (less : A -> A -> bool) (s : list A) : list A :=
  reverse (foldl (fun reversed x => moveLeft less x reversed) [] s).

(** [for _, x := range xs { err := f(x); if err != nil { return err } }] *)
Section Range.
Context {S A : Type} (f : A -> M S (option Error)).

Fixpoint each (xs : list A) : M S (option Error) :=
  match xs with
  | [] => ret None
  | x :: rest => try f x ;; each rest
  end.

End Range.

(** [for _, x := range xs { f(x) }] *)
Section RangeUnit.
Context {S A B : Type} (f : A -> M S B).

Fixpoint foreach (xs : list A) : M S unit :=
  match xs with
  | [] => ret tt
  | x :: rest => f x ;; foreach rest
  end.

End RangeUnit.

(** The [switch node.Operator] of an infix expression. *)
Definition infixOpcode (Operator : string) : option opcode.Opcode :=
  if decide (Operator = "+") then Some OpAdd
  else if decide (Operator = "-") then Some OpSub
  else if decide (Operator = "*") then Some OpMul
  else if decide (Operator = "/") then Some OpDiv
  else if decide (Operator = ">") then Some OpGreaterThan
  else if decide (Operator = "==") then Some OpEqual
  else if decide (Operator = "!=") then Some OpNotEqual
  else None.

(** The [switch node.Operator] of a prefix expression. *)
Definition prefixOpcode (Operator : string) : option opcode.Opcode :=
  if decide (Operator = "!") then Some OpBang
  else if decide (Operator = "-") then Some OpMinus
  else None.

(** [if c.lastInstructionIs(opcode.OpPop) { c.removeLastPop() }] *)
Definition removeLastPopIfAny : M Compiler unit :=
  isPop <- lastInstructionIs OpPop ;;
  if isPop : bool then removeLastPop else ret tt.

Section Compile.

(** [node.String()], the textual form of a node; package [ast] is not among
    the sources, so the compiler is embedded for any such function. *)
Variable NodeString : ast.Node -> string.

(** [keys[i].String() < keys[j].String()]: Go compares strings byte by
    byte. *)
Definition keyLess {A} (x y : ast.Node * A) : bool :=
  String.ltb (NodeString x.1) (NodeString y.1).

(** In the [HashLiteral] case the Go code collects the keys, sorts them and
    compiles every key followed by [node.Pairs[k]].  A key node is its own
    identity in the Go map, so the embedding sorts the pairs by their key;
    it attaches to every pair the compilation of its two nodes before it
    sorts, which leaves the recursion on the nodes of the literal. *)
Fixpoint Compile (node : ast.Node) : M Compiler (option Error) :=
  match node with
  | ast.Program Statements =>
      each Compile Statements
  | ast.ExpressionStatement Expression =>
      try Compile Expression ;;
      emit OpPop [] ;;
      ret None
  | ast.InfixExpression Left Operator Right =>
      if decide (Operator = "<") then
        try Compile Right ;;
        try Compile Left ;;
        emit OpGreaterThan [] ;;
        ret None
      else
        try Compile Left ;;
        try Compile Right ;;
        match infixOpcode Operator with
        | Some op => emit op [] ;; ret None
        | None => ret (Some (ir.Errorf "unknown operator %s" [ArgStr Operator]))
        end
  | ast.PrefixExpression Operator Right =>
      try Compile Right ;;
      match prefixOpcode Operator with
      | Some op => emit op [] ;; ret None
      | None => ret (Some (ir.Errorf "unknown operator %s" [ArgStr Operator]))
      end
  | ast.IfExpression Condition Consequence Alternative =>
      try Compile Condition ;;
      jumpNotTruthyPos <- emit OpJumpNotTruthy [9999] ;;
      try Compile Consequence ;;
      removeLastPopIfAny ;;
      jumpPos <- emit OpJump [9999] ;;
      cur <- currentInstructions ;;
      let afterConsequencePos := len cur in
      changeOperand jumpNotTruthyPos afterConsequencePos ;;
      try match Alternative with
          | None => emit OpNull [] ;; ret None
          | Some alternative =>
              try Compile alternative ;;
              removeLastPopIfAny ;;
              ret None
          end ;;
      cur <- currentInstructions ;;
      let afterAlternative := len cur in
      changeOperand jumpPos afterAlternative ;;
      ret None
  | ast.IndexExpression Left Index =>
      try Compile Left ;;
      try Compile Index ;;
      emit OpIndex [] ;;
      ret None
  | ast.CallExpression Function Arguments =>
      try Compile Function ;;
      try each Compile Arguments ;;
      emit OpCall [len Arguments] ;;
      ret None
  | ast.BlockStatement Statements =>
      each Compile Statements
  | ast.LetStatement Name Value =>
      symbol <- define Name ;;
      try Compile Value ;;
      (if decide (Scope symbol = GlobalScope)
       then emit OpSetGlobal [Index symbol]
       else emit OpSetLocal [Index symbol]) ;;
      ret None
  | ast.ReturnStatement ReturnValue =>
      try Compile ReturnValue ;;
      emit OpReturnValue [] ;;
      ret None
  | ast.Identifier Value =>
      r <- resolve Value ;;
      match r with
      | None => ret (Some (ir.Errorf "undefined variable %s" [ArgStr Value]))
      | Some symbol => loadSymbol symbol ;; ret None
      end
  | ast.IntegerLiteral Value =>
      let integer := ir.Integer Value in
      i <- addConstant integer ;;
      emit OpConstant [i] ;;
      ret None
  | ast.Boolean Value =>
      (if Value then emit OpTrue [] else emit OpFalse []) ;;
      ret None
  | ast.StringLiteral Value =>
      c <- get ;;
      let str := ir.String (ir.ConstAddr (len (constants c))) Value in
      i <- addConstant str ;;
      emit OpConstant [i] ;;
      ret None
  | ast.ArrayLiteral Elements =>
      try each Compile Elements ;;
      emit OpArray [len Elements] ;;
      ret None
  | ast.HashLiteral Pairs =>
      let keys :=
        map (fun kv : ast.Node * ast.Node =>
               (kv.1, (try Compile kv.1 ;; try Compile kv.2 ;; ret None)))
            Pairs in
      let keys := sortSlice keyLess keys in
      try each snd keys ;;
      emit OpHash [len Pairs * 2] ;;
      ret None
  | ast.FunctionLiteral Parameters Body =>
      enterScope ;;
      foreach define Parameters ;;
      try Compile Body ;;
      isPop <- lastInstructionIs OpPop ;;
      (if isPop : bool then replaceLastPopWithReturn else ret tt) ;;
      isReturn <- lastInstructionIs OpReturnValue ;;
      (if isReturn : bool then ret tt else emit OpReturn [] ;; ret tt) ;;
      s <- theSymbolTable ;;
      let freeSymbols := FreeSymbols s in
      let numLocals := numDefinitions s in
      instructions <- leaveScope ;;
      foreach loadSymbol freeSymbols ;;
      c <- get ;;
      let compiledfunction :=
        ir.Function_ (ir.ConstAddr (len (constants c)))
          {| ir.Instructions := instructions;
             ir.NumLocals := numLocals;
             ir.NumParameters := len Parameters |} in
      functionIndex <- addConstant compiledfunction ;;
      emit OpClosure [functionIndex; len freeSymbols] ;;
      ret None
  end.

End Compile.

End compiler.

(** ** Package vm *)

Module vm.

Import opcode.

Definition StackSize : Z := 2048.
Definition GlobalSize : Z := 65536.
Definition MaxFrames : Z := 2048.

(** [True] and [False] of the source. *)
Definition True_ := ir.Boolean true.
Definition False_ := ir.Boolean false.
Definition Null := ir.Null.

Definition Error := ir.Error.

(** [vm/frame.go].  [cl] points to a closure; the embedding keeps the
    address next to the closure it points to. *)
Record Frame := {
  cl : ir.Addr * ir.Closure_;
  ip : Z;
  basePointer : Z
}.

Definition NewFrame (cl : ir.Addr * ir.Closure_) (basePointer : Z) : Frame :=
  {| ip := -1; cl := cl; basePointer := basePointer |}.

Definition Instructions (f : Frame) : opcode.Instructions :=
  ir.Instructions (ir.Function (cl f).2).

(** [frames] holds pointers, [nil] where no frame was pushed yet.
    [allocated] counts the objects that the machine allocated so far; the
    next one gets this number as its address. *)
Record VM := {
  constants : list ir.Object;
  stack : list ir.Object;
  sp : Z;
  globals : list ir.Object;
  frames : list (option Frame);
  framesIndex : Z;
  allocated : Z
}.

Definition New (bytecode : compiler.Bytecode) : VM :=
  let mainFn := {| ir.Instructions := compiler.Instructions bytecode;
                   ir.NumLocals := 0;
                   ir.NumParameters := 0 |} in
  let mainClosure := {| ir.Function := mainFn; ir.Free := [] |} in
  {| constants := compiler.Constants bytecode;
     stack := replicate (Z.to_nat StackSize) ir.Nil;
     sp := 0;
     globals := replicate (Z.to_nat GlobalSize) ir.Nil;
     frames := Some (NewFrame (ir.HeapAddr 0, mainClosure) 0)
               :: replicate (Z.to_nat MaxFrames - 1) None;
     framesIndex := 1;
     allocated := 1 |}.

Definition setStack (st : list ir.Object) (vm : VM) : VM :=
  {| constants := constants vm; stack := st; sp := sp vm;
     globals := globals vm; frames := frames vm;
     framesIndex := framesIndex vm; allocated := allocated vm |}.

Definition setSp (n : Z) (vm : VM) : VM :=
  {| constants := constants vm; stack := stack vm; sp := n;
     globals := globals vm; frames := frames vm;
     framesIndex := framesIndex vm; allocated := allocated vm |}.

Definition setGlobals (g : list ir.Object) (vm : VM) : VM :=
  {| constants := constants vm; stack := stack vm; sp := sp vm;
     globals := g; frames := frames vm;
     framesIndex := framesIndex vm; allocated := allocated vm |}.

Definition setFrames (fs : list (option Frame)) (vm : VM) : VM :=
  {| constants := constants vm; stack := stack vm; sp := sp vm;
     globals := globals vm; frames := fs;
     framesIndex := framesIndex vm; allocated := allocated vm |}.

Definition setFramesIndex (n : Z) (vm : VM) : VM :=
  {| constants := constants vm; stack := stack vm; sp := sp vm;
     globals := globals vm; frames := frames vm;
     framesIndex := n; allocated := allocated vm |}.

Definition setAllocated (n : Z) (vm : VM) : VM :=
  {| constants := constants vm; stack := stack vm; sp := sp vm;
     globals := globals vm; frames := frames vm;
     framesIndex := framesIndex vm; allocated := n |}.

Local Open Scope go_scope.

(** The address of a new object. *)
Definition alloc : M VM ir.Addr :=
  fun vm => Return (ir.HeapAddr (allocated vm), setAllocated (allocated vm + 1) vm).

(** A frame pointer that is about to be dereferenced. *)
Definition deref (f : option Frame) : Go Frame :=
  match f with
  | Some f => Return f
  | None => Panics NilDereference
  end.

(** [*vm.currentFrame()]: every use in the source dereferences the pointer
    at once. *)
Definition currentFrame : M VM Frame :=
  fun vm =>
    match elemAt (frames vm) (framesIndex vm - 1) with
    | Return f => lift (deref f) vm
    | Panics p => Panics p
    end.

(** [vm.currentFrame().ip = n] *)
Definition setIp (n : Z) : M VM unit :=
  f <- currentFrame ;;
  fun vm =>
    match assign (frames vm) (framesIndex vm - 1)
            (Some {| cl := cl f; ip := n; basePointer := basePointer f |}) with
    | Return fs => Return (tt, setFrames fs vm)
    | Panics p => Panics p
    end.

(** [vm.currentFrame().ip += n] *)
Definition advanceIp (n : Z) : M VM unit :=
  f <- currentFrame ;; setIp (ip f + n).

Definition StackTop (vm : VM) : Go (option ir.Object) :=
  if decide (sp vm = 0) then Return None
  else match elemAt (stack vm) (sp vm - 1) with
       | Return o => Return (Some o)
       | Panics p => Panics p
       end.

Definition LastPoppedStackElem (vm : VM) : Go ir.Object :=
  elemAt (stack vm) (sp vm).

Definition pop : M VM ir.Object :=
  fun vm =>
    match elemAt (stack vm) (sp vm - 1) with
    | Return o => Return (o, setSp (sp vm - 1) vm)
    | Panics p => Panics p
    end.

Definition push (o : ir.Object) : M VM (option Error) :=
  fun vm =>
    if decide (sp vm >= StackSize) then
      Return (Some (ir.Errorf "stack overflow" []), vm)
    else
      match assign (stack vm) (sp vm) o with
      | Return st => Return (None, setSp (sp vm + 1) (setStack st vm))
      | Panics p => Panics p
      end.

(** [x.Value] after the type assertion of [x] to a pointer to [ir.Integer]. *)
Definition asInteger (o : ir.Object) : Go Z :=
  match o with
  | ir.Integer v => Return v
  | _ => Panics TypeAssertion
  end.

(** [x.Value] after the type assertion of [x] to a pointer to [ir.String]. *)
Definition asString (o : ir.Object) : Go string :=
  match o with
  | ir.String _ v => Return v
  | _ => Panics TypeAssertion
  end.

Definition nativeBoolToBooleanObject (input : bool) : ir.Object :=
  if input then True_ else False_.

Definition isTruthy (obj : ir.Object) : bool :=
  match obj with
  | ir.Null => false
  | ir.Boolean v => v
  | _ => true
  end.

(** The division of two [int64]: it panics on a zero divisor and truncates
    towards zero. *)
Definition div64 (x y : Z) : Go Z :=
  if decide (y = 0) then Panics DivideByZero else Return (ir.wrap64 (x ÷ y)).

Definition executeBinaryIntegerOperation (op : Opcode) (left right : ir.Object)
  : M VM (option Error) :=
  leftValue <- lift (asInteger left) ;;
  rightValue <- lift (asInteger right) ;;
  match op with
  | OpAdd => push (ir.Integer (ir.wrap64 (leftValue + rightValue)))
  | OpSub => push (ir.Integer (ir.wrap64 (leftValue - rightValue)))
  | OpMul => push (ir.Integer (ir.wrap64 (leftValue * rightValue)))
  | OpDiv => result <- lift (div64 leftValue rightValue) ;;
             push (ir.Integer result)
  | _ => ret (Some (ir.Errorf "unknown integer operator: %d" [ArgInt (byte op)]))
  end.

Definition executeBinaryStringOperation (op : Opcode) (left right : ir.Object)
  : M VM (option Error) :=
  if decide (op <> OpAdd) then
    ret (Some (ir.Errorf "unknown string operator: %d" [ArgInt (byte op)]))
  else
    leftValue <- lift (asString left) ;;
    rightValue <- lift (asString right) ;;
    p <- alloc ;;
    push (ir.String p (leftValue +:+ rightValue)).

Definition executeBinaryOperation (op : Opcode) : M VM (option Error) :=
  right <- pop ;;
  left <- pop ;;
  leftType <- lift (ir.TypeOf left) ;;
  rightType <- lift (ir.TypeOf right) ;;
  if decide (leftType = ir.IntegerObj /\ rightType = ir.IntegerObj) then
    executeBinaryIntegerOperation op left right
  else if decide (leftType = ir.StringObj /\ rightType = ir.StringObj) then
    executeBinaryStringOperation op left right
  else
    ret (Some (ir.Errorf "unsupported types for binary operation: %s %s"
                 [ArgType leftType; ArgType rightType])).

Definition executeIntegerComparison (op : Opcode) (left right : ir.Object)
  : M VM (option Error) :=
  leftValue <- lift (asInteger left) ;;
  rightValue <- lift (asInteger right) ;;
  match op with
  | OpEqual => push (nativeBoolToBooleanObject (bool_decide (rightValue = leftValue)))
  | OpNotEqual => push (nativeBoolToBooleanObject (bool_decide (rightValue <> leftValue)))
  | OpGreaterThan => push (nativeBoolToBooleanObject (bool_decide (leftValue > rightValue)))
  | _ => ret (Some (ir.Errorf "unknown operator: %d" [ArgInt (byte op)]))
  end.

(** In [left.Type() == ir.IntegerObj || right.Type() == ir.IntegerObj] the
    right operand is asked for its type only when the left one is no
    integer. *)
Definition executeComparison (op : Opcode) : M VM (option Error) :=
  right <- pop ;;
  left <- pop ;;
  leftType <- lift (ir.TypeOf left) ;;
  anInteger <- (if decide (leftType = ir.IntegerObj) then ret true
                else rightType <- lift (ir.TypeOf right) ;;
                     ret (bool_decide (rightType = ir.IntegerObj))) ;;
  if anInteger : bool then executeIntegerComparison op left right
  else
    match op with
    | OpEqual => push (nativeBoolToBooleanObject (ir.same right left))
    | OpNotEqual => push (nativeBoolToBooleanObject (negb (ir.same right left)))
    | _ =>
        leftType <- lift (ir.TypeOf left) ;;
        rightType <- lift (ir.TypeOf right) ;;
        ret (Some (ir.Errorf "unknown operator: %d %s %s"
                     [ArgInt (byte op); ArgType leftType; ArgType rightType]))
    end.

Definition executeMinusOperator : M VM (option Error) :=
  operand <- pop ;;
  operandType <- lift (ir.TypeOf operand) ;;
  if decide (operandType <> ir.IntegerObj) then
    ret (Some (ir.Errorf "unsupported type for negation: %s" [ArgType operandType]))
  else
    value <- lift (asInteger operand) ;;
    push (ir.Integer (ir.wrap64 (- value))).

Definition executeBangOperator : M VM (option Error) :=
  operand <- pop ;;
  match operand with
  | ir.Boolean true => push False_
  | ir.Boolean false => push True_
  | ir.Null => push True_
  | _ => push False_
  end.

Section Hashing.

(** [o.HashKey()] of a hashable object; package [ir] is not among the
    sources, so the machine is embedded for any such function. *)
Variable HashKey : ir.Object -> ir.HashKey.

(** [pairs[key]] *)
Definition lookupPair (pairs : list (ir.HashKey * ir.HashPair)) (key : ir.HashKey)
  : option ir.HashPair :=
  match list_find (fun kv => kv.1 = key) pairs with
  | Some (_, (_, found)) => Some found
  | None => None
  end.

Definition executeHashIndex (hash index : ir.Object) : M VM (option Error) :=
  match hash with
  | ir.Hash _ Pairs =>
      if ir.Hashable index then
        match lookupPair Pairs (HashKey index) with
        | None => push Null
        | Some found => push (ir.Value found)
        end
      else
        indexType <- lift (ir.TypeOf index) ;;
        ret (Some (ir.Errorf "unusable as hash key: %s" [ArgType indexType]))
  | _ => panic TypeAssertion
  end.

Definition executeArrayIndex (array index : ir.Object) : M VM (option Error) :=
  match array with
  | ir.Array _ Elements =>
      i <- lift (asInteger index) ;;
      let max := len Elements - 1 in
      if decide (i < 0 \/ i > max) then push Null
      else
        element <- lift (elemAt Elements i) ;;
        push element
  | _ => panic TypeAssertion
  end.

(** In the first case the index is asked for its type only when the left
    operand is an array. *)
Definition executeIndexExpression (left index : ir.Object) : M VM (option Error) :=
  leftType <- lift (ir.TypeOf left) ;;
  isArrayIndex <- (if decide (leftType = ir.ArrayObj)
                   then indexType <- lift (ir.TypeOf index) ;;
                        ret (bool_decide (indexType = ir.IntegerObj))
                   else ret false) ;;
  if isArrayIndex : bool then executeArrayIndex left index
  else if decide (leftType = ir.HashObj) then executeHashIndex left index
  else ret (Some (ir.Errorf "index operator not supported: %s" [ArgType leftType])).

(** The loop of [buildHash] from [i], with [n] iterations left; a later
    pair with the same hash key replaces an earlier one. *)
Fixpoint buildHashFrom (n : nat) (i : Z) (hashedPairs : list (ir.HashKey * ir.HashPair))
  : M VM (list (ir.HashKey * ir.HashPair) + Error) :=
  match n with
  | O => ret (inl hashedPairs)
  | S n =>
      vm <- get ;;
      key <- lift (elemAt (stack vm) i) ;;
      value <- lift (elemAt (stack vm) (i + 1)) ;;
      let kv := {| ir.Key := key; ir.Value := value |} in
      if ir.Hashable key then
        buildHashFrom n (i + 2) ((HashKey key, kv) :: hashedPairs)
      else
        keyType <- lift (ir.TypeOf key) ;;
        ret (inr (ir.Errorf "unusable as hash key: %s" [ArgType keyType]))
  end.

Definition buildHash (startIndex endIndex : Z) : M VM (ir.Object + Error) :=
  r <- buildHashFrom (Z.to_nat ((endIndex - startIndex + 1) `div` 2)) startIndex [] ;;
  match r with
  | inl hashedPairs => p <- alloc ;; ret (inl (ir.Hash p hashedPairs))
  | inr err => ret (inr err)
  end.

(** [vm.stack[startIndex:endIndex]] copied element by element. *)
Fixpoint copyFrom (n : nat) (i : Z) (st : list ir.Object) : Go (list ir.Object) :=
  match n with
  | O => Return []
  | S n =>
      match elemAt st i, copyFrom n (i + 1) st with
      | Return o, Return rest => Return (o :: rest)
      | Panics p, _ => Panics p
      | _, Panics p => Panics p
      end
  end.

Definition buildArray (startIndex endIndex : Z) : M VM ir.Object :=
  vm <- get ;;
  elements <- lift (copyFrom (Z.to_nat (endIndex - startIndex)) startIndex (stack vm)) ;;
  p <- alloc ;;
  ret (ir.Array p elements).

Definition popFrame : M VM Frame :=
  fun vm =>
    let vm := setFramesIndex (framesIndex vm - 1) vm in
    match elemAt (frames vm) (framesIndex vm) with
    | Return f => lift (deref f) vm
    | Panics p => Panics p
    end.

Definition pushFrame (f : Frame) : M VM unit :=
  fun vm =>
    match assign (frames vm) (framesIndex vm) (Some f) with
    | Return fs => Return (tt, setFramesIndex (framesIndex vm + 1) (setFrames fs vm))
    | Panics p => Panics p
    end.

Definition callClosure (cl : ir.Addr * ir.Closure_) (numArgs : Z) : M VM (option Error) :=
  if decide (numArgs <> ir.NumParameters (ir.Function cl.2)) then
    ret (Some (ir.Errorf "wrong number of arguments: want=%d, got=%d"
                 [ArgInt (ir.NumParameters (ir.Function cl.2)); ArgInt numArgs]))
  else
    vm <- get ;;
    let frame := NewFrame cl (sp vm - numArgs) in
    pushFrame frame ;;
    vm <- get ;;
    put (setSp (basePointer frame + ir.NumLocals (ir.Function cl.2)) vm) ;;
    ret None.

Definition executeCall (numArgs : Z) : M VM (option Error) :=
  vm <- get ;;
  callee <- lift (elemAt (stack vm) (sp vm - 1 - numArgs)) ;;
  match callee with
  | ir.Closure p c => callClosure (p, c) numArgs
  | _ => ret (Some (ir.Errorf "calling non-function and non-built-in" []))
  end.

Definition pushClosure (constIndex numFree : Z) : M VM (option Error) :=
  vm <- get ;;
  constant <- lift (elemAt (constants vm) constIndex) ;;
  match constant with
  | ir.Function_ _ function =>
      free <- lift (copyFrom (Z.to_nat numFree) (sp vm - numFree) (stack vm)) ;;
      put (setSp (sp vm - numFree) vm) ;;
      p <- alloc ;;
      let closure := ir.Closure p {| ir.Function := function; ir.Free := free |} in
      push closure
  | _ => ret (Some (ir.Errorf "not a function: %+v" [ArgObj constant]))
  end.

(** The [switch op] of [Run], for the opcode at [ip] in the instructions
    [ins] of the current frame. *)
Definition execute (op : Opcode) (ins : opcode.Instructions) (ip : Z)
  : M VM (option Error) :=
  match op with
  | OpConstant =>
      constIndex <- lift (ReadUint16 ins (ip + 1)) ;;
      advanceIp 2 ;;
      vm <- get ;;
      constant <- lift (elemAt (constants vm) constIndex) ;;
      push constant
  | OpPop => pop ;; ret None
  | OpAdd | OpSub | OpMul | OpDiv =>
      executeBinaryOperation op
  | OpTrue => push True_
  | OpFalse => push False_
  | OpEqual | OpNotEqual | OpGreaterThan =>
      executeComparison op
  | OpMinus => executeMinusOperator
  | OpBang => executeBangOperator
  | OpJumpNotTruthy =>
      pos <- lift (ReadUint16 ins (ip + 1)) ;;
      advanceIp 2 ;;
      condition <- pop ;;
      (if isTruthy condition then ret tt else setIp (pos - 1)) ;;
      ret None
  | OpJump =>
      pos <- lift (ReadUint16 ins (ip + 1)) ;;
      setIp (pos - 1) ;;
      ret None
  | OpNull => push Null
  | OpSetGlobal =>
      globalIndex <- lift (ReadUint16 ins (ip + 1)) ;;
      advanceIp 2 ;;
      o <- pop ;;
      vm <- get ;;
      g <- lift (assign (globals vm) globalIndex o) ;;
      put (setGlobals g vm) ;;
      ret None
  | OpGetGlobal =>
      globalIndex <- lift (ReadUint16 ins (ip + 1)) ;;
      advanceIp 2 ;;
      vm <- get ;;
      o <- lift (elemAt (globals vm) globalIndex) ;;
      push o
  | OpHash =>
      numElements <- lift (ReadUint16 ins (ip + 1)) ;;
      advanceIp 2 ;;
      vm <- get ;;
      r <- buildHash (sp vm - numElements) (sp vm) ;;
      match r with
      | inr err => ret (Some err)
      | inl hash =>
          vm <- get ;;
          put (setSp (sp vm - numElements) vm) ;;
          push hash
      end
  | OpArray =>
      numElements <- lift (ReadUint16 ins (ip + 1)) ;;
      advanceIp 2 ;;
      vm <- get ;;
      array <- buildArray (sp vm - numElements) (sp vm) ;;
      vm <- get ;;
      put (setSp (sp vm - numElements) vm) ;;
      push array
  | OpIndex =>
      index <- pop ;;
      left <- pop ;;
      executeIndexExpression left index
  | OpCall =>
      numArgs <- lift (ReadUint8 ins (ip + 1)) ;;
      advanceIp 1 ;;
      executeCall numArgs
  | OpReturnValue =>
      returnValue <- pop ;;
      frame <- popFrame ;;
      vm <- get ;;
      put (setSp (basePointer frame - 1) vm) ;;
      push returnValue
  | OpReturn =>
      frame <- popFrame ;;
      vm <- get ;;
      put (setSp (basePointer frame - 1) vm) ;;
      push Null
  | OpSetLocal =>
      localIndex <- lift (ReadUint8 ins (ip + 1)) ;;
      advanceIp 1 ;;
      frame <- currentFrame ;;
      o <- pop ;;
      vm <- get ;;
      st <- lift (assign (stack vm) (basePointer frame + localIndex) o) ;;
      put (setStack st vm) ;;
      ret None
  | OpGetLocal =>
      localIndex <- lift (ReadUint8 ins (ip + 1)) ;;
      advanceIp 1 ;;
      frame <- currentFrame ;;
      vm <- get ;;
      o <- lift (elemAt (stack vm) (basePointer frame + localIndex)) ;;
      push o
  | OpClosure =>
      constIndex <- lift (ReadUint16 ins (ip + 1)) ;;
      numFree <- lift (ReadUint8 ins (ip + 3)) ;;
      advanceIp 3 ;;
      pushClosure constIndex numFree
  | OpGetFree =>
      freeIndex <- lift (ReadUint8 ins (ip + 1)) ;;
      advanceIp 1 ;;
      frame <- currentFrame ;;
      let currentClosure := (cl frame).2 in
      o <- lift (elemAt (ir.Free currentClosure) freeIndex) ;;
      push o
  end.

(** One iteration of the loop of [Run], entered with the loop condition
    true.  A byte that is no opcode matches no case of the switch. *)
Definition step : M VM (option Error) :=
  advanceIp 1 ;;
  f <- currentFrame ;;
  let ip := ip f in
  let ins := Instructions f in
  b <- lift (elemAt ins ip) ;;
  match Lookup b with
  | Some op => execute op ins ip
  | None => ret None
  end.

(** The loop condition of [Run]. *)
Definition running : M VM bool :=
  f <- currentFrame ;;
  ret (bool_decide (ip f < len (Instructions f) - 1)).

(** [Run], with a bound on the number of iterations: [None] when the loop
    is still running after [fuel] iterations. *)
Fixpoint Run (fuel : nat) (vm : VM) : option (Go (option Error * VM)) :=
  match fuel with
  | O => None
  | S fuel =>
      match running vm with
      | Panics p => Some (Panics p)
      | Return (false, vm) => Some (Return (None, vm))
      | Return (true, vm) =>
          match step vm with
          | Panics p => Some (Panics p)
          | Return (Some err, vm) => Some (Return (Some err, vm))
          | Return (None, vm) => Run fuel vm
          end
      end
  end.

End Hashing.

End vm.

(** * Vocabulary of the statements *)

(** ** Virtual machine states *)

(** The machine is about to execute [op]: its current frame is [f] and the
    byte after the instruction pointer of [f] is the opcode. *)
Definition fetches (vm : vm.VM) (f : vm.Frame) (op : opcode.Opcode) : Prop :=
  1 <= vm.framesIndex vm /\
  vm.frames vm !! Z.to_nat (vm.framesIndex vm - 1) = Some (Some f) /\
  elemAt (vm.Instructions f) (vm.ip f + 1) = Return (opcode.byte op).

(** The frame [f] with its instruction pointer at [n]. *)
Definition movedTo (f : vm.Frame) (n : Z) : vm.Frame :=
  {| vm.cl := vm.cl f; vm.ip := n; vm.basePointer := vm.basePointer f |}.

(** The machine with the instruction pointer of its current frame [f] at
    [n]. *)
Definition atIp (vm : vm.VM) (f : vm.Frame) (n : Z) : vm.VM :=
  vm.setFrames
    (<[Z.to_nat (vm.framesIndex vm - 1) := Some (movedTo f n)]> (vm.frames vm)) vm.

(** The machine after a return from the frame [f] with the value [v]: the
    frame is popped, the stack pointer is the base pointer of [f] minus one,
    and [v] is pushed there. *)
Definition afterReturn (vm : vm.VM) (f : vm.Frame) (v : ir.Object) : vm.VM :=
  {| vm.constants := vm.constants vm;
     vm.stack := <[Z.to_nat (vm.basePointer f - 1) := v]> (vm.stack vm);
     vm.sp := vm.basePointer f - 1 + 1;
     vm.globals := vm.globals vm;
     vm.frames := <[Z.to_nat (vm.framesIndex vm - 1) := Some (movedTo f (vm.ip f + 1))]>
                    (vm.frames vm);
     vm.framesIndex := vm.framesIndex vm - 1;
     vm.allocated := vm.allocated vm |}.

(** The machine after a call of the closure [cl] with [numArgs] arguments
    from the frame [f]: a new frame whose base pointer is the stack pointer
    minus [numArgs] is pushed, and the stack pointer is that base pointer
    plus the number of locals of the function. *)
Definition afterCall (vm : vm.VM) (f : vm.Frame) (cl : ir.Addr * ir.Closure_)
    (numArgs : Z) : vm.VM :=
  {| vm.constants := vm.constants vm;
     vm.stack := vm.stack vm;
     vm.sp := (vm.sp vm - numArgs) + ir.NumLocals (ir.Function cl.2);
     vm.globals := vm.globals vm;
     vm.frames := <[Z.to_nat (vm.framesIndex vm) := Some (vm.NewFrame cl (vm.sp vm - numArgs))]>
                    (<[Z.to_nat (vm.framesIndex vm - 1) := Some (movedTo f (vm.ip f + 1 + 1))]>
                       (vm.frames vm));
     vm.framesIndex := vm.framesIndex vm + 1;
     vm.allocated := vm.allocated vm |}.

(** The machine after an instruction without operands popped two values
    and pushed nothing yet. *)
Definition poppedTwo (vm : vm.VM) (f : vm.Frame) : vm.VM :=
  vm.setSp (vm.sp vm - 1 - 1) (atIp vm f (vm.ip f + 1)).

(** The machine after an instruction without operands popped two values and
    pushed [v]. *)
Definition afterBinary (vm : vm.VM) (f : vm.Frame) (v : ir.Object) : vm.VM :=
  {| vm.constants := vm.constants vm;
     vm.stack := <[Z.to_nat (vm.sp vm - 1 - 1) := v]> (vm.stack vm);
     vm.sp := vm.sp vm - 1 - 1 + 1;
     vm.globals := vm.globals vm;
     vm.frames := <[Z.to_nat (vm.framesIndex vm - 1) := Some (movedTo f (vm.ip f + 1))]>
                    (vm.frames vm);
     vm.framesIndex := vm.framesIndex vm;
     vm.allocated := vm.allocated vm |}.

(** The machine after [OpClosure] built a closure of [function] over the
    top [numFree] values of the stack: the values are popped, the closure,
    a new object, is pushed. *)
Definition afterClosure (vm : vm.VM) (f : vm.Frame) (function : ir.CompiledFunction)
    (numFree : Z) : vm.VM :=
  let free := take (Z.to_nat numFree) (drop (Z.to_nat (vm.sp vm - numFree)) (vm.stack vm)) in
  let closure := ir.Closure (ir.HeapAddr (vm.allocated vm))
                   {| ir.Function := function; ir.Free := free |} in
  {| vm.constants := vm.constants vm;
     vm.stack := <[Z.to_nat (vm.sp vm - numFree) := closure]> (vm.stack vm);
     vm.sp := vm.sp vm - numFree + 1;
     vm.globals := vm.globals vm;
     vm.frames := <[Z.to_nat (vm.framesIndex vm - 1) := Some (movedTo f (vm.ip f + 1 + 3))]>
                    (vm.frames vm);
     vm.framesIndex := vm.framesIndex vm;
     vm.allocated := vm.allocated vm + 1 |}.

(** The machine after an instruction with [width] bytes of operands pushed
    [v]. *)
Definition afterPush (vm : vm.VM) (f : vm.Frame) (width : Z) (v : ir.Object) : vm.VM :=
  {| vm.constants := vm.constants vm;
     vm.stack := <[Z.to_nat (vm.sp vm) := v]> (vm.stack vm);
     vm.sp := vm.sp vm + 1;
     vm.globals := vm.globals vm;
     vm.frames := <[Z.to_nat (vm.framesIndex vm - 1) := Some (movedTo f (vm.ip f + 1 + width))]>
                    (vm.frames vm);
     vm.framesIndex := vm.framesIndex vm;
     vm.allocated := vm.allocated vm |}.

(** ** Compiler states *)

(** The scope that the compiler is writing to. *)
Definition current (c : compiler.Compiler) : option compiler.CompilationScope :=
  compiler.scopes c !! Z.to_nat (compiler.scopeIndex c).

(** The current scope is the last one on the stack of scopes, as in every
    state that [New], [enterScope] and [leaveScope] lead to. *)
Definition wf (c : compiler.Compiler) : Prop :=
  0 <= compiler.scopeIndex c /\
  compiler.scopeIndex c + 1 = len (compiler.scopes c).

(** The compiler with [sc] as its current scope. *)
Definition withCurrent (c : compiler.Compiler) (sc : compiler.CompilationScope)
  : compiler.Compiler :=
  {| compiler.constants := compiler.constants c;
     compiler.symbolTable := compiler.symbolTable c;
     compiler.scopes := <[Z.to_nat (compiler.scopeIndex c) := sc]> (compiler.scopes c);
     compiler.scopeIndex := compiler.scopeIndex c |}.

(** The two cursors of a scope after some compilation that started when
    the scope held [n] bytes: they are as they were, or the last
    instruction is a new one and the previous one is the old last, or both
    are new. *)
Definition cursorsFrom (n : Z) (sc sc' : compiler.CompilationScope) : Prop :=
  (compiler.lastInstruction sc' = compiler.lastInstruction sc /\
   compiler.previousInstruction sc' = compiler.previousInstruction sc)
  \/ (n <= compiler.Position (compiler.lastInstruction sc') /\
      compiler.previousInstruction sc' = compiler.lastInstruction sc)
  \/ (n <= compiler.Position (compiler.lastInstruction sc') /\
      n <= compiler.Position (compiler.previousInstruction sc')).

(** From [c] to [c'] the compiler appended [code] to its current scope and
    [consts] to the constant pool, and touched no other scope. *)
Definition appended (c c' : compiler.Compiler)
    (code : opcode.Instructions) (consts : list ir.Object) : Prop :=
  compiler.scopeIndex c' = compiler.scopeIndex c /\
  compiler.constants c' = compiler.constants c ++ consts /\
  exists sc sc',
    current c = Some sc /\
    compiler.scopes c' = <[Z.to_nat (compiler.scopeIndex c) := sc']> (compiler.scopes c) /\
    compiler.instructions sc' = compiler.instructions sc ++ code /\
    cursorsFrom (len (compiler.instructions sc)) sc sc'.

(** From [c] to [c'] the compiler appended code to its current scope and
    constants to the pool, and its current scope is still the last one. *)
Definition grows (c c' : compiler.Compiler) : Prop :=
  wf c' /\ exists code consts, appended c c' code consts.

(** From [c] to [c'] the compiler changed no scope but its current one, and
    appended [consts] to the constant pool. *)
Definition touched (c c' : compiler.Compiler) (consts : list ir.Object) : Prop :=
  compiler.scopeIndex c' = compiler.scopeIndex c /\
  compiler.constants c' = compiler.constants c ++ consts /\
  exists sc',
    compiler.scopes c' = <[Z.to_nat (compiler.scopeIndex c) := sc']> (compiler.scopes c).

(** The end of the compilation of a function body: a trailing [OpPop]
    becomes [OpReturnValue], and [OpReturn] is emitted when the body does
    not end in [OpReturnValue] (the two [if]s of the [FunctionLiteral]
    case). *)
Definition implicitReturn : M compiler.Compiler unit :=
  (isPop <- compiler.lastInstructionIs opcode.OpPop ;;
   (if isPop : bool then compiler.replaceLastPopWithReturn else ret tt) ;;
   isReturn <- compiler.lastInstructionIs opcode.OpReturnValue ;;
   (if isReturn : bool then ret tt else compiler.emit opcode.OpReturn [] ;; ret tt))%go.

(** The instruction that [loadSymbol] emits for a symbol. *)
Definition loadCode (s : compiler.Symbol) : opcode.Instructions :=
  opcode.Make
    match compiler.Scope s with
    | compiler.GlobalScope => opcode.OpGetGlobal
    | compiler.LocalScope => opcode.OpGetLocal
    | compiler.FreeScope => opcode.OpGetFree
    end
    [compiler.Index s].

(** The compiler with [s] as its symbol table. *)
Definition withSymbolTable (c : compiler.Compiler) (s : compiler.SymbolTable)
  : compiler.Compiler :=
  {| compiler.constants := compiler.constants c;
     compiler.symbolTable := Some s;
     compiler.scopes := compiler.scopes c;
     compiler.scopeIndex := compiler.scopeIndex c |}.

(** ** Symbol tables *)

(** Every symbol of the table and of the tables around it is stored under
    its own name. *)
Fixpoint namesOk (s : compiler.SymbolTable) : Prop :=
  (forall name symbol, compiler.store s !! name = Some symbol ->
                       compiler.Name symbol = name) /\
  match compiler.Outer s with
  | Some outer => namesOk outer
  | None => Logic.True
  end.

(** ** Runs of the virtual machine *)

Section Runs.

Variable HashKey : ir.Object -> ir.HashKey.

(** [runs vm vm']: the loop of [Run] leads from [vm] to [vm'] in some
    number of iterations, none of which returns an error. *)
Inductive runs : vm.VM -> vm.VM -> Prop :=
| runs_here vm : runs vm vm
| runs_step vm vm1 vm2 :
    vm.running vm = Return (true, vm) ->
    vm.step HashKey vm = Return (None, vm1) ->
    runs vm1 vm2 ->
    runs vm vm2.

End Runs.

(** The machine after [OpPop]. *)
Definition afterPop (vm : vm.VM) (f : vm.Frame) : vm.VM :=
  vm.setSp (vm.sp vm - 1) (atIp vm f (vm.ip f + 1)).

(** The machine after [OpSetGlobal] with the operand [globalIndex] popped
    [v]. *)
Definition afterSetGlobal (vm : vm.VM) (f : vm.Frame) (globalIndex : Z) (v : ir.Object)
  : vm.VM :=
  vm.setGlobals (<[Z.to_nat globalIndex := v]> (vm.globals vm))
    (vm.setSp (vm.sp vm - 1) (atIp vm f (vm.ip f + 1 + 2))).

(** ** The test harness and instances for the examples *)

(** [compiler.New()], [Compile(program)], [Bytecode()], as the tests of the
    repository do: the bytecode of a program, if it compiles. *)
Definition bytecodeOf (NodeString : ast.Node -> string) (program : ast.Node)
  : option compiler.Bytecode :=
  match compiler.Compile NodeString program compiler.New with
  | Return (None, c) =>
      match compiler.Bytecode_ c with
      | Return (bytecode, _) => Some bytecode
      | Panics _ => None
      end
  | _ => None
  end.

(** [runVmTests] of [vm_test.go] on one program: compile, [vm.New], [Run]
    and [LastPoppedStackElem].  The result is [None] when the program does
    not compile or [Run] needs more than [fuel] iterations, otherwise the
    error of [Run] with the element last popped, or the panic. *)
Definition runVmTest (NodeString : ast.Node -> string)
    (HashKey : ir.Object -> ir.HashKey) (fuel : nat) (program : ast.Node)
  : option (Go (option vm.Error * Go ir.Object)) :=
  match bytecodeOf NodeString program with
  | Some bytecode =>
      match vm.Run HashKey fuel (vm.New bytecode) with
      | Some (Return (err, vm')) => Some (Return (err, vm.LastPoppedStackElem vm'))
      | Some (Panics p) => Some (Panics p)
      | None => None
      end
  | None => None
  end.

(** An instance of [node.String()] for the examples: an identifier and a
    literal print as their text; the examples use no other node as the key
    of a hash literal. *)
Definition literalText (node : ast.Node) : string :=
  match node with
  | ast.Identifier name => name
  | ast.IntegerLiteral v => pretty v
  | ast.StringLiteral v => v
  | ast.Boolean v => if v then "true" else "false"
  | _ => ""
  end.

(** An instance of [HashKey()] for the examples: the type tag with the
    integer as an unsigned 64-bit number, 1 or 0 for a boolean, and the
    64-bit FNV-1a hash of the bytes of a string. *)
Definition fnv1a (s : string) : Z :=
  foldl (fun h b => (Z.lxor h (Z.of_N (Ascii.N_of_ascii b)) * 1099511628211) `mod` 2 ^ 64)
        14695981039346656037 (String.list_ascii_of_string s).

Definition contentHashKey (o : ir.Object) : ir.HashKey :=
  match o with
  | ir.Integer v => {| ir.Type_ := ir.IntegerObj; ir.Value_ := v `mod` 2 ^ 64 |}
  | ir.Boolean v => {| ir.Type_ := ir.BooleanObj; ir.Value_ := if v then 1 else 0 |}
  | ir.String _ v => {| ir.Type_ := ir.StringObj; ir.Value_ := fnv1a v |}
  | _ => {| ir.Type_ := ir.NullObj; ir.Value_ := 0 |}
  end.

(** A small machine for the examples: its main frame runs [code] from the
    start, over the given constants and stack. *)
Definition machine (constants : list ir.Object) (code : opcode.Instructions)
    (stack : list ir.Object) (sp : Z) : vm.VM :=
  {| vm.constants := constants;
     vm.stack := stack;
     vm.sp := sp;
     vm.globals := [ir.Nil; ir.Nil];
     vm.frames :=
       [Some (vm.NewFrame (ir.HeapAddr 0,
                           {| ir.Function := {| ir.Instructions := code;
                                                ir.NumLocals := 0;
                                                ir.NumParameters := 0 |};
                              ir.Free := [] |}) 0);
        None];
     vm.framesIndex := 1;
     vm.allocated := 1 |}.

(** The main frame of [machine]. *)
Definition mainFrame (code : opcode.Instructions) : vm.Frame :=
  vm.NewFrame (ir.HeapAddr 0,
               {| ir.Function := {| ir.Instructions := code;
                                    ir.NumLocals := 0;
                                    ir.NumParameters := 0 |};
                  ir.Free := [] |}) 0.

(** A closure for the examples, with [numParameters] parameters, that
    returns at once. *)
Definition returning (numParameters : Z) : ir.Closure_ :=
  {| ir.Function := {| ir.Instructions := opcode.Make opcode.OpReturn [];
                       ir.NumLocals := numParameters;
                       ir.NumParameters := numParameters |};
     ir.Free := [] |}.

(** A machine inside a call: the frame of a function that consists of
    [code] runs above the main frame, with base pointer 1. *)
Definition calledFrame (code : opcode.Instructions) : vm.Frame :=
  vm.NewFrame (ir.HeapAddr 1,
               {| ir.Function := {| ir.Instructions := code;
                                    ir.NumLocals := 0;
                                    ir.NumParameters := 0 |};
                  ir.Free := [ir.Integer 3; ir.Integer 4] |}) 1.

Definition calledMachine (code : opcode.Instructions) (stack : list ir.Object) (sp : Z)
  : vm.VM :=
  {| vm.constants := [];
     vm.stack := stack;
     vm.sp := sp;
     vm.globals := [ir.Nil; ir.Nil];
     vm.frames := [Some (movedTo (mainFrame (opcode.Make opcode.OpCall [0]
                                             ++ opcode.Make opcode.OpPop [])) 1);
                   Some (calledFrame code)];
     vm.framesIndex := 2;
     vm.allocated := 2 |}.

(** The table of a function with the parameters [a] and [b], and the
    table of a function inside it. *)
Definition outerTable : compiler.SymbolTable :=
  (compiler.Define "b"
     (compiler.Define "a"
        (compiler.NewEnclosedSymbolTable (Some compiler.NewSymbolTable))).2).2.

Definition innerTable : compiler.SymbolTable :=
  compiler.NewEnclosedSymbolTable (Some outerTable).


(** ** Instruction streams as sequences of instructions *)

(** An instruction: the opcode and the operands given to [Make]. *)
Notation Instruction := (opcode.Opcode * list Z)%type.

(** The bytes of a sequence of instructions. *)
Definition assemble (code : list Instruction) : opcode.Instructions :=
  concat (map (fun i : Instruction => opcode.Make i.1 i.2) code).

(** The number of bytes of a sequence of instructions. *)
Definition size (code : list Instruction) : Z := len (assemble code).

(** The number of bytes of an instruction with the opcode [op]. *)
Definition sizeOf (op : opcode.Opcode) : Z :=
  1 + foldr Z.add 0 (opcode.OperandWidths op).

(** The instruction has as many operands as its opcode takes. *)
Definition complete (i : Instruction) : Prop :=
  length i.2 = length (opcode.OperandWidths i.1).

Definition isJump (op : opcode.Opcode) : bool :=
  match op with
  | opcode.OpJump | opcode.OpJumpNotTruthy => true
  | _ => false
  end.

(** Every jump of [code], a sequence of instructions that starts at the
    position [off] of its stream, goes to the start of one of the first [K]
    instructions of [code], or to the end of [code] when [code] has [K]
    instructions. *)
Definition targetsOk (off : Z) (K : nat) (code : list Instruction) : Prop :=
  forall j op operands, code !! j = Some (op, operands) -> isJump op = true ->
    exists k, (k <= K)%nat /\ operands = [off + size (take k code)].

(** ** Nodes as the parser types them *)

(** Modelled from the spec: package [ast] is not among the sources.  In Go
    the fields of the nodes are typed: the statements of a program and of a
    block are expression, let and return statements, whose field is an
    expression; the consequence, the alternative and a function body are
    blocks; every other field is an expression. *)
Inductive NodeType := ExpressionNode | StatementNode | BlockNode.

Fixpoint hasType (t : NodeType) (n : ast.Node) : bool :=
  match t, n with
  | StatementNode, ast.ExpressionStatement e => hasType ExpressionNode e
  | StatementNode, ast.LetStatement _ v => hasType ExpressionNode v
  | StatementNode, ast.ReturnStatement v => hasType ExpressionNode v
  | BlockNode, ast.BlockStatement ss => forallb (hasType StatementNode) ss
  | ExpressionNode, ast.Identifier _ => true
  | ExpressionNode, ast.IntegerLiteral _ => true
  | ExpressionNode, ast.StringLiteral _ => true
  | ExpressionNode, ast.Boolean _ => true
  | ExpressionNode, ast.ArrayLiteral es => forallb (hasType ExpressionNode) es
  | ExpressionNode, ast.HashLiteral ps =>
      forallb (fun kv : ast.Node * ast.Node =>
                 hasType ExpressionNode kv.1 && hasType ExpressionNode kv.2) ps
  | ExpressionNode, ast.PrefixExpression _ r => hasType ExpressionNode r
  | ExpressionNode, ast.InfixExpression l _ r =>
      hasType ExpressionNode l && hasType ExpressionNode r
  | ExpressionNode, ast.IfExpression c t e =>
      hasType ExpressionNode c && hasType BlockNode t
      && match e with
         | Some alternative => hasType BlockNode alternative
         | None => true
         end
  | ExpressionNode, ast.IndexExpression l i =>
      hasType ExpressionNode l && hasType ExpressionNode i
  | ExpressionNode, ast.CallExpression f args =>
      hasType ExpressionNode f && forallb (hasType ExpressionNode) args
  | ExpressionNode, ast.FunctionLiteral _ b => hasType BlockNode b
  | _, _ => false
  end.

(** A program as the parser builds it. *)
Definition isProgram (n : ast.Node) : bool :=
  match n with
  | ast.Program ss => forallb (hasType StatementNode) ss
  | _ => false
  end.

(** ** What a compilation writes *)

(** The number of scopes of a symbol table, itself included. *)
Fixpoint depth (s : compiler.SymbolTable) : nat :=
  match compiler.Outer s with
  | Some outer => S (depth outer)
  | None => 1%nat
  end.

Definition tableDepth (c : compiler.Compiler) : nat :=
  from_option depth 0%nat (compiler.symbolTable c).

(** The length of the code of the current scope. *)
Definition offset (c : compiler.Compiler) : Z :=
  from_option (fun sc => len (compiler.instructions sc)) 0 (current c).

Definition lastOf (c : compiler.Compiler) : option compiler.EmittedInstruction :=
  compiler.lastInstruction <$> current c.

Definition previousOf (c : compiler.Compiler) : option compiler.EmittedInstruction :=
  compiler.previousInstruction <$> current c.

(** From [c] to [c'] the compiler wrote the instructions [code] at the end
    of its current scope and [consts] at the end of the constant pool; it
    touched no other scope, and its symbol table is as deep as it was. *)
Definition wrote (c c' : compiler.Compiler)
    (code : list Instruction) (consts : list ir.Object) : Prop :=
  compiler.scopeIndex c' = compiler.scopeIndex c /\
  compiler.constants c' = compiler.constants c ++ consts /\
  tableDepth c' = tableDepth c /\
  exists sc sc',
    current c = Some sc /\
    compiler.scopes c' = <[Z.to_nat (compiler.scopeIndex c) := sc']> (compiler.scopes c) /\
    compiler.instructions sc' = compiler.instructions sc ++ assemble code.

(** Code that ends with an instruction [op] and in which every jump goes to
    the start of an instruction. *)
Definition closed (code : list Instruction) (op : opcode.Opcode) : Prop :=
  exists init operands,
    code = init ++ [(op, operands)] /\
    Forall complete code /\
    targetsOk 0 (length init) code.

(** The instructions of a compiled function: closed code that ends with a
    return. *)
Definition functionCode (ins : opcode.Instructions) : Prop :=
  exists code op,
    ins = assemble code /\ closed code op /\
    (op = opcode.OpReturnValue \/ op = opcode.OpReturn).

(** A constant as the compiler adds them: an integer, a string, or a
    function whose instructions are those of a compiled function. *)
Definition shapely (o : ir.Object) : Prop :=
  match o with
  | ir.Function_ _ f => functionCode (ir.Instructions f)
  | ir.Integer _ | ir.String _ _ => Logic.True
  | _ => Logic.False
  end.

(** [wrote], for complete instructions whose jumps stay inside [code] and
    for shapely constants. *)
Definition piece (c c' : compiler.Compiler)
    (code : list Instruction) (consts : list ir.Object) : Prop :=
  wf c' /\
  wrote c c' code consts /\
  Forall complete code /\
  targetsOk (offset c) (length code) code /\
  Forall shapely consts.

(** The cursor of the instruction [i] that follows the instructions [init]
    in code that starts at [off]. *)
Definition cursorOf (off : Z) (init : list Instruction) (i : Instruction)
  : compiler.EmittedInstruction :=
  {| compiler.Opcode := i.1; compiler.Position := off + size init |}.

(** The code ends with an instruction that leaves a value, and that
    instruction is the one that the compiler remembers as the last. *)
Definition valueDone (c c' : compiler.Compiler) (code : list Instruction) : Prop :=
  exists init i,
    code = init ++ [i] /\
    i.1 <> opcode.OpPop /\
    lastOf c' = Some (cursorOf (offset c) init i).

(** The code ends with the instruction [op] of a statement, which the
    compiler remembers as the last; no jump goes past the start of that
    instruction; and before an [OpPop] comes the last instruction of the
    expression, which the compiler remembers as the previous one. *)
Definition statementDone (c c' : compiler.Compiler) (code : list Instruction)
    (op : opcode.Opcode) : Prop :=
  exists init operands,
    code = init ++ [(op, operands)] /\
    isJump op = false /\
    targetsOk (offset c) (length init) code /\
    lastOf c' = Some (cursorOf (offset c) init (op, operands)) /\
    (op = opcode.OpPop ->
     exists init' j,
       init = init' ++ [j] /\
       j.1 <> opcode.OpPop /\
       previousOf c' = Some (cursorOf (offset c) init' j)).

(** The last instruction of a statement, in a symbol table of the given
    depth. *)
Definition finalOpcode (statement : ast.Node) (tableDepth : nat) : opcode.Opcode :=
  match statement with
  | ast.LetStatement _ _ =>
      if decide (tableDepth = 1%nat) then opcode.OpSetGlobal else opcode.OpSetLocal
  | ast.ReturnStatement _ => opcode.OpReturnValue
  | _ => opcode.OpPop
  end.

(** What the compilation of a list of statements leaves: nothing for no
    statement, and otherwise the code of statements up to the last. *)
Definition statementsDone (ss : list ast.Node) (c c' : compiler.Compiler)
    (code : list Instruction) : Prop :=
  (ss = [] /\ c' = c /\ code = [])
  \/ exists s, last ss = Some s /\ statementDone c c' code (finalOpcode s (tableDepth c)).

(** What the strip of a trailing [OpPop] leaves of a block: no code, or
    code that ends with an instruction that leaves a value. *)
Definition blockValue (c c' : compiler.Compiler) (code : list Instruction) : Prop :=
  (code = [] /\ lastOf c' = lastOf c) \/ valueDone c c' code.

(** The instruction that [loadSymbol] emits. *)
Definition loadInstruction (s : compiler.Symbol) : Instruction :=
  (match compiler.Scope s with
   | compiler.GlobalScope => opcode.OpGetGlobal
   | compiler.LocalScope => opcode.OpGetLocal
   | compiler.FreeScope => opcode.OpGetFree
   end, [compiler.Index s]).

(** What the compilation of a node of the type [t] leaves. *)
Definition compiledAs (t : NodeType) (n : ast.Node) (c c' : compiler.Compiler)
    (code : list Instruction) : Prop :=
  match t with
  | ExpressionNode => valueDone c c' code
  | StatementNode => statementDone c c' code (finalOpcode n (tableDepth c))
  | BlockNode => exists ss, statementsDone ss c c' code
  end.

(** Every successful compilation of the node [n] writes a piece of code
    that is as [done] says. *)
Definition compilesTo (NodeString : ast.Node -> string) (n : ast.Node)
    (done : compiler.Compiler -> compiler.Compiler -> list Instruction -> Prop) : Prop :=
  forall c c', wf c -> compiler.Compile NodeString n c = Return (None, c') ->
    exists code k, piece c c' code k /\ done c c' code.

(** ** Machines that run compiled code *)

(** Instructions that the machine can run as a function: the code of a
    compiled function, short enough for the 16 bits of a jump operand. *)
Definition runnable (ins : opcode.Instructions) : Prop :=
  functionCode ins /\ len ins <= 65536.

(** Every function and closure inside the object has runnable
    instructions. *)
Fixpoint good (o : ir.Object) : Prop :=
  match o with
  | ir.Array _ elements =>
      (fix all (l : list ir.Object) : Prop :=
         match l with
         | [] => Logic.True
         | x :: rest => good x /\ all rest
         end) elements
  | ir.Hash _ pairs =>
      (fix all (l : list (ir.HashKey * ir.HashPairOf ir.Object)) : Prop :=
         match l with
         | [] => Logic.True
         | (_, {| ir.Key := key; ir.Value := value |}) :: rest =>
             (good key /\ good value) /\ all rest
         end) pairs
  | ir.Function_ _ f => runnable (ir.Instructions f)
  | ir.Closure _ c =>
      runnable (ir.Instructions (ir.Function c)) /\
      (fix all (l : list ir.Object) : Prop :=
         match l with
         | [] => Logic.True
         | x :: rest => good x /\ all rest
         end) (ir.Free c)
  | _ => Logic.True
  end.

(** The frame runs closed code that ends with an instruction as [final]
    says, and its instruction pointer is right before an instruction or at
    the end. *)
Definition frameOk (final : opcode.Opcode -> Prop) (f : vm.Frame) : Prop :=
  Forall good (ir.Free (vm.cl f).2) /\
  exists code op k,
    vm.Instructions f = assemble code /\
    closed code op /\ final op /\
    size code <= 65536 /\
    (k <= length code)%nat /\
    vm.ip f + 1 = size (take k code).

Definition isReturn (op : opcode.Opcode) : Prop :=
  op = opcode.OpReturnValue \/ op = opcode.OpReturn.

(** The states of a machine that runs the program [main], whose code ends
    with the instruction [mainOp]: all objects are good; the frame at the
    bottom runs the program from the bottom of the stack, the frames above
    run functions; and every frame but the current one can go on after the
    call that it made. *)
Definition vmOk (main : opcode.Instructions) (mainOp : opcode.Opcode) (vm : vm.VM)
  : Prop :=
  Forall good (vm.constants vm) /\
  Forall good (vm.stack vm) /\
  Forall good (vm.globals vm) /\
  1 <= vm.framesIndex vm /\
  forall i : nat, Z.of_nat i < vm.framesIndex vm ->
    exists f,
      vm.frames vm !! i = Some (Some f) /\
      frameOk (if decide (i = 0%nat) then eq mainOp else isReturn) f /\
      (i = 0%nat -> vm.basePointer f = 0 /\ vm.Instructions f = main) /\
      (Z.of_nat i + 1 < vm.framesIndex vm -> vm.ip f + 1 < len (vm.Instructions f)).

(** From [vm] to [vm'] the constants and the frames stay as they are, and
    the stack and the globals stay good. *)
Definition keeps (vm vm' : vm.VM) : Prop :=
  vm.constants vm' = vm.constants vm /\
  vm.frames vm' = vm.frames vm /\
  vm.framesIndex vm' = vm.framesIndex vm /\
  (Forall good (vm.stack vm) -> Forall good (vm.stack vm')) /\
  (Forall good (vm.globals vm) -> Forall good (vm.globals vm')).

(** A constant whose instructions, if it is a function, are short enough
    for the 16 bits of a jump operand. *)
Definition small (o : ir.Object) : Prop :=
  match o with
  | ir.Function_ _ f => len (ir.Instructions f) <= 65536
  | _ => Logic.True
  end.


(** ** Function literals and the symbols they capture *)

Section Identifiers.

Variable NodeString : ast.Node -> string.

(** The identifiers of a node in the order in which [Compile] reaches
    them: the order of the fields in the cases of [Compile], where the
    right operand of [<] comes before the left one and the pairs of a hash
    literal come in the order of their sorted keys. *)
Fixpoint identifiers (node : ast.Node) : list string :=
  match node with
  | ast.Program Statements => concat (map identifiers Statements)
  | ast.ExpressionStatement Expression => identifiers Expression
  | ast.LetStatement _ Value => identifiers Value
  | ast.ReturnStatement ReturnValue => identifiers ReturnValue
  | ast.BlockStatement Statements => concat (map identifiers Statements)
  | ast.Identifier Value => [Value]
  | ast.IntegerLiteral _ | ast.StringLiteral _ | ast.Boolean _ => []
  | ast.ArrayLiteral Elements => concat (map identifiers Elements)
  | ast.HashLiteral Pairs =>
      let keys :=
        map (fun kv : ast.Node * ast.Node =>
               (kv.1, identifiers kv.1 ++ identifiers kv.2))
            Pairs in
      concat (map snd (compiler.sortSlice (compiler.keyLess NodeString) keys))
  | ast.PrefixExpression _ Right => identifiers Right
  | ast.InfixExpression Left Operator Right =>
      if decide (Operator = "<") then identifiers Right ++ identifiers Left
      else identifiers Left ++ identifiers Right
  | ast.IfExpression Condition Consequence Alternative =>
      identifiers Condition ++ identifiers Consequence
      ++ match Alternative with
         | Some alternative => identifiers alternative
         | None => []
         end
  | ast.IndexExpression Left Index => identifiers Left ++ identifiers Index
  | ast.CallExpression Function Arguments =>
      identifiers Function ++ concat (map identifiers Arguments)
  | ast.FunctionLiteral _ Body => identifiers Body
  end.

End Identifiers.

(** The names that a node binds: the names of its let statements and the
    parameters of its function literals. *)
Fixpoint bound (node : ast.Node) : list string :=
  match node with
  | ast.Program Statements => concat (map bound Statements)
  | ast.ExpressionStatement Expression => bound Expression
  | ast.LetStatement Name Value => Name :: bound Value
  | ast.ReturnStatement ReturnValue => bound ReturnValue
  | ast.BlockStatement Statements => concat (map bound Statements)
  | ast.Identifier _ | ast.IntegerLiteral _ | ast.StringLiteral _ | ast.Boolean _ => []
  | ast.ArrayLiteral Elements => concat (map bound Elements)
  | ast.HashLiteral Pairs =>
      concat (map (fun kv : ast.Node * ast.Node => bound kv.1 ++ bound kv.2) Pairs)
  | ast.PrefixExpression _ Right => bound Right
  | ast.InfixExpression Left _ Right => bound Left ++ bound Right
  | ast.IfExpression Condition Consequence Alternative =>
      bound Condition ++ bound Consequence
      ++ match Alternative with
         | Some alternative => bound alternative
         | None => []
         end
  | ast.IndexExpression Left Index => bound Left ++ bound Index
  | ast.CallExpression Function Arguments =>
      bound Function ++ concat (map bound Arguments)
  | ast.FunctionLiteral Parameters Body => Parameters ++ bound Body
  end.

(** The name is a symbol of an enclosing function in the table [outer]:
    it resolves there, and not to a global. *)
Definition enclosing (outer : compiler.SymbolTable) (name : string) : bool :=
  match (compiler.Resolve name outer).1 with
  | Some symbol => bool_decide (compiler.Scope symbol <> compiler.GlobalScope)
  | None => false
  end.

(** A reference to the name inside a function with the parameters [ps],
    compiled inside the table [outer], reaches a symbol of an enclosing
    function. *)
Definition capturable (outer : compiler.SymbolTable) (ps : list string) (name : string)
  : bool :=
  bool_decide (name ∉ ps) && enclosing outer name.

(** The capturable names among [names], each at its first place, after
    the names [caps]. *)
Definition capture (outer : compiler.SymbolTable) (ps : list string)
    (caps names : list string) : list string :=
  foldl (fun caps n =>
           if capturable outer ps n && bool_decide (n ∉ caps) then caps ++ [n] else caps)
        caps names.

(** The symbols of enclosing functions that the body of a function literal
    refers to, in the order in which [Compile] reaches the first reference
    to each. *)
Definition captures (NodeString : ast.Node -> string) (outer : compiler.SymbolTable)
    (ps : list string) (body : ast.Node) : list string :=
  capture outer ps [] (identifiers NodeString body).

(** The symbols that the names resolve to in [outer], one after the other,
    and the table that the resolutions leave. *)
Definition originals (outer : compiler.SymbolTable) (names : list string)
  : list compiler.Symbol * compiler.SymbolTable :=
  foldl (fun '(acc, o) n =>
           match compiler.Resolve n o with
           | (Some symbol, o') => (acc ++ [symbol], o')
           | (None, o') => (acc, o')
           end)
        ([], outer) names.

(** The table of a function that has captured the names [caps] so far:
    its free symbols are the originals of the names, the names are its free
    symbols 0, 1, ... and its parameters are defined. *)
Definition atHost (outer : compiler.SymbolTable) (ps bs caps : list string)
    (F : compiler.SymbolTable) : Prop :=
  compiler.FreeSymbols F = (originals outer caps).1 /\
  compiler.Outer F = Some (originals outer caps).2 /\
  length (compiler.FreeSymbols F) = length caps /\
  (forall (i : nat) n, caps !! i = Some n ->
     compiler.store F !! n
     = Some {| compiler.Name := n; compiler.Scope := compiler.FreeScope;
               compiler.Index := Z.of_nat i |}) /\
  (forall p, p ∈ ps -> is_Some (compiler.store F !! p)) /\
  Forall (fun n => n ∉ bs) caps.

(** The table knows no capturable name that is neither bound by the
    function nor captured yet. *)
Definition unseen (outer : compiler.SymbolTable) (ps bs caps : list string)
    (t : compiler.SymbolTable) : Prop :=
  forall n, capturable outer ps n = true -> n ∉ bs -> n ∉ caps ->
    compiler.store t !! n = None.

(** The table [t] is [k] scopes inside the table of the function. *)
Fixpoint capturing (outer : compiler.SymbolTable) (ps bs caps : list string)
    (k : nat) (t : compiler.SymbolTable) : Prop :=
  unseen outer ps bs caps t /\
  match k with
  | O => atHost outer ps bs caps t
  | S k =>
      match compiler.Outer t with
      | Some u => capturing outer ps bs caps k u
      | None => Logic.False
      end
  end.

(** The compiler is [k] scopes inside a function that has captured the
    names [caps]. *)
Definition tracks (outer : compiler.SymbolTable) (ps bs caps : list string)
    (k : nat) (c : compiler.Compiler) : Prop :=
  exists t, compiler.symbolTable c = Some t /\ namesOk t /\
            capturing outer ps bs caps k t.

(** No name of the list that a reference could capture is bound inside
    the function. *)
Definition unbound (outer : compiler.SymbolTable) (ps bs names : list string) : Prop :=
  Forall (fun n => capturable outer ps n = true -> n ∉ bs) names.

(** Every name of the list is bound inside the function. *)
Definition bindable (bs names : list string) : Prop := Forall (fun n => n ∈ bs) names.

(** What the compilation of a node does to the table of a function
    around it: it captures the identifiers of the node. *)
Definition tracked (NodeString : ast.Node -> string) (outer : compiler.SymbolTable)
    (ps bs : list string) (node : ast.Node) : Prop :=
  forall k caps c c',
    unbound outer ps bs (identifiers NodeString node) -> bindable bs (bound node) ->
    tracks outer ps bs caps k c ->
    compiler.Compile NodeString node c = Return (None, c') ->
    tracks outer ps bs (capture outer ps caps (identifiers NodeString node)) k c'.

(** A result of [Resolve] that is no symbol of an enclosing function. *)
Definition outside (r : option compiler.Symbol) : Prop :=
  match r with
  | None => Logic.True
  | Some symbol => compiler.Scope symbol = compiler.GlobalScope
  end.

(** The compiler inside a function with the parameters [a] and [b], before
    any code of its body. *)
Definition insideFunction : compiler.Compiler :=
  {| compiler.constants := [];
     compiler.symbolTable := Some outerTable;
     compiler.scopes := [compiler.emptyScope; compiler.emptyScope];
     compiler.scopeIndex := 1 |}.

(** [function() { a + b }] and [function() { a < b }]. *)
Definition sumOfOuter : ast.Node :=
  ast.FunctionLiteral []
    (ast.BlockStatement
       [ast.ExpressionStatement
          (ast.InfixExpression (ast.Identifier "a") "+" (ast.Identifier "b"))]).

Definition lessOfOuter : ast.Node :=
  ast.FunctionLiteral []
    (ast.BlockStatement
       [ast.ExpressionStatement
          (ast.InfixExpression (ast.Identifier "a") "<" (ast.Identifier "b"))]).


(** * Properties *)

Local Open Scope go_scope.

(** ** Reasoning in the monad *)

Lemma bind_Return {S A B} (m : M S A) (k : A -> M S B) s r :
  bind m k s = Return r ->
  exists a s', m s = Return (a, s') /\ k a s' = Return r.
Proof.
  unfold bind. destruct (m s) as [[a s']|p]; [|discriminate].
  intros H. by exists a, s'.
Qed.

Lemma bind_eq {S A B} (m : M S A) (k : A -> M S B) s a s' :
  m s = Return (a, s') -> bind m k s = k a s'.
Proof. unfold bind. by intros ->. Qed.

Lemma try_Return {S} (m : M S (option ir.Error)) (k : M S (option ir.Error)) s s' :
  bind m (fun e => match e with Some _ => ret e | None => k end) s = Return (None, s') ->
  exists s1, m s = Return (None, s1) /\ k s1 = Return (None, s').
Proof.
  intros H. apply bind_Return in H as (e & s1 & Hm & Hk).
  destruct e; [discriminate|]. by exists s1.
Qed.

Lemma lift_Return {S A} (g : Go A) (s : S) a s' :
  lift g s = Return (a, s') -> g = Return a /\ s' = s.
Proof. unfold lift. destruct g; [|discriminate]. intros [= -> ->]. done. Qed.

Lemma ret_Return {S A} (a : A) (s : S) b s' :
  ret a s = Return (b, s') -> b = a /\ s' = s.
Proof. unfold ret. by intros [= -> ->]. Qed.

Lemma get_Return {S} (s : S) a s' :
  get s = Return (a, s') -> a = s /\ s' = s.
Proof. unfold get. by intros [= -> ->]. Qed.

(** Splits a successful computation in a hypothesis into its steps. *)
Ltac go_inv H :=
  let a := fresh "a" in
  let s := fresh "c" in
  let H1 := fresh "H" in
  first
    [ apply try_Return in H as (s & H1 & H)
    | apply bind_Return in H as (a & s & H1 & H)
    | apply ret_Return in H as [? ?]; subst
    | apply get_Return in H as [? ?]; subst
    | apply lift_Return in H as [H ?]; subst ].

(** One step of a successful computation, with names for the hypothesis
    of the step and for the state it leads to. *)
Tactic Notation "go_step" hyp(H) "as" ident(H1) :=
  first [ apply try_Return in H as (? & H1 & H)
        | apply bind_Return in H as (? & ? & H1 & H) ].

Tactic Notation "go_step" hyp(H) "as" ident(H1) "into" ident(c) :=
  go_step H as H1;
  match type of H1 with _ = Return (_, ?c') => rename c' into c end.

Lemma elemAt_Some {A} (s : list A) (i : Z) x :
  elemAt s i = Return x <-> 0 <= i /\ s !! Z.to_nat i = Some x.
Proof.
  unfold elemAt. destruct (decide (0 <= i)) as [Hi|Hi].
  - destruct (s !! Z.to_nat i) eqn:E; split.
    + by intros [= ->].
    + by intros [_ [= ->]].
    + discriminate.
    + by intros [_ ?].
  - split; [discriminate|]. by intros [? _].
Qed.

Lemma elemAt_lookup {A} (s : list A) (n : nat) x :
  s !! n = Some x -> elemAt s (Z.of_nat n) = Return x.
Proof. intros H. apply elemAt_Some. rewrite Nat2Z.id. split; [lia|done]. Qed.

Lemma assign_Some {A} (s : list A) (i : Z) x s' :
  assign s i x = Return s' <->
  0 <= i < len s /\ s' = <[Z.to_nat i := x]> s.
Proof.
  unfold assign, len. destruct (decide _); split.
  - by intros [= <-].
  - by intros [_ ->].
  - discriminate.
  - by intros [? _].
Qed.

Lemma elemAt_range {A} (s : list A) (i : Z) x :
  elemAt s i = Return x -> 0 <= i < len s.
Proof.
  intros [Hi Hl]%elemAt_Some. apply lookup_lt_Some in Hl. unfold len. lia.
Qed.


(** ** The virtual machine: one instruction *)

Section VMFacts.

Import opcode.

Variable HashKey : ir.Object -> ir.HashKey.

Lemma Lookup_byte op : Lookup (byte op) = Some op.
Proof. by destruct op. Qed.

Lemma currentFrame_eq vm f :
  1 <= vm.framesIndex vm ->
  vm.frames vm !! Z.to_nat (vm.framesIndex vm - 1) = Some (Some f) ->
  vm.currentFrame vm = Return (f, vm).
Proof.
  intros Hi Hf. unfold vm.currentFrame.
  assert (elemAt (vm.frames vm) (vm.framesIndex vm - 1) = Return (Some f)) as ->.
  { apply elemAt_Some. split; [lia|done]. }
  done.
Qed.

Lemma setIp_eq vm f n :
  1 <= vm.framesIndex vm ->
  vm.frames vm !! Z.to_nat (vm.framesIndex vm - 1) = Some (Some f) ->
  vm.setIp n vm = Return (tt, atIp vm f n).
Proof.
  intros Hi Hf. unfold vm.setIp. rewrite (bind_eq _ _ _ _ _ (currentFrame_eq _ _ Hi Hf)).
  assert (assign (vm.frames vm) (vm.framesIndex vm - 1) (Some (movedTo f n))
          = Return (<[Z.to_nat (vm.framesIndex vm - 1) := Some (movedTo f n)]> (vm.frames vm))) as Ha.
  { apply assign_Some. split; [|done]. apply lookup_lt_Some in Hf. unfold len. lia. }
  unfold movedTo in Ha. rewrite Ha. done.
Qed.

Lemma advanceIp_eq vm f n :
  1 <= vm.framesIndex vm ->
  vm.frames vm !! Z.to_nat (vm.framesIndex vm - 1) = Some (Some f) ->
  vm.advanceIp n vm = Return (tt, atIp vm f (vm.ip f + n)).
Proof.
  intros Hi Hf. unfold vm.advanceIp.
  rewrite (bind_eq _ _ _ _ _ (currentFrame_eq _ _ Hi Hf)). by apply setIp_eq.
Qed.

Lemma atIp_frame vm f n :
  vm.frames vm !! Z.to_nat (vm.framesIndex vm - 1) = Some (Some f) ->
  vm.frames (atIp vm f n) !! Z.to_nat (vm.framesIndex (atIp vm f n) - 1)
  = Some (Some (movedTo f n)).
Proof.
  intros Hf. simpl. apply list_lookup_insert_eq. by apply lookup_lt_Some in Hf.
Qed.

Lemma atIp_atIp vm f n m :
  atIp (atIp vm f n) (movedTo f n) m = atIp vm f m.
Proof.
  unfold atIp, vm.setFrames. simpl. f_equal. apply list_insert_insert_eq.
Qed.

(** An iteration moves the instruction pointer onto the opcode and
    dispatches on it. *)
Lemma step_fetch vm f op :
  fetches vm f op ->
  vm.step HashKey vm
  = vm.execute HashKey op (vm.Instructions f) (vm.ip f + 1) (atIp vm f (vm.ip f + 1)).
Proof.
  intros (Hi & Hf & Hop). unfold vm.step.
  rewrite (bind_eq _ _ _ _ _ (advanceIp_eq _ _ 1 Hi Hf)).
  rewrite (bind_eq _ _ _ _ _
             (currentFrame_eq (atIp vm f (vm.ip f + 1)) _ Hi (atIp_frame _ _ _ Hf))).
  change (vm.ip (movedTo f (vm.ip f + 1))) with (vm.ip f + 1).
  change (vm.Instructions (movedTo f (vm.ip f + 1))) with (vm.Instructions f).
  unfold bind at 1. unfold lift. rewrite Hop. by rewrite Lookup_byte.
Qed.

(** After the opcode, [n] more bytes of operands are consumed. *)
Lemma advanceIp_after_fetch vm f n :
  1 <= vm.framesIndex vm ->
  vm.frames vm !! Z.to_nat (vm.framesIndex vm - 1) = Some (Some f) ->
  vm.advanceIp n (atIp vm f (vm.ip f + 1)) = Return (tt, atIp vm f (vm.ip f + 1 + n)).
Proof.
  intros Hi Hf.
  rewrite (advanceIp_eq _ (movedTo f (vm.ip f + 1))); [|done|by apply atIp_frame].
  by rewrite atIp_atIp.
Qed.

Lemma pop_eq vm o :
  1 <= vm.sp vm ->
  vm.stack vm !! Z.to_nat (vm.sp vm - 1) = Some o ->
  vm.pop vm = Return (o, vm.setSp (vm.sp vm - 1) vm).
Proof.
  intros Hs Ho. unfold vm.pop.
  assert (elemAt (vm.stack vm) (vm.sp vm - 1) = Return o) as ->; [|done].
  apply elemAt_Some. split; [lia|done].
Qed.

Lemma push_eq vm o :
  0 <= vm.sp vm < vm.StackSize ->
  vm.sp vm < len (vm.stack vm) ->
  vm.push o vm
  = Return (None, vm.setSp (vm.sp vm + 1)
                    (vm.setStack (<[Z.to_nat (vm.sp vm) := o]> (vm.stack vm)) vm)).
Proof.
  intros Hs Hl. unfold vm.push. destruct (decide _) as [|_]; [lia|].
  assert (assign (vm.stack vm) (vm.sp vm) o
          = Return (<[Z.to_nat (vm.sp vm) := o]> (vm.stack vm))) as ->; [|done].
  apply assign_Some. split; [lia|done].
Qed.

(** *** Returning from a call *)

Lemma popFrame_eq vm f :
  1 <= vm.framesIndex vm ->
  vm.frames vm !! Z.to_nat (vm.framesIndex vm - 1) = Some (Some f) ->
  vm.popFrame vm = Return (f, vm.setFramesIndex (vm.framesIndex vm - 1) vm).
Proof.
  intros Hi Hf. unfold vm.popFrame. simpl.
  assert (elemAt (vm.frames vm) (vm.framesIndex vm - 1) = Return (Some f)) as ->; [|done].
  apply elemAt_Some. split; [lia|done].
Qed.

(** C7. Executing [OpReturnValue] pops the return value, pops the current
    frame, sets the stack pointer to the base pointer of the popped frame
    minus one and pushes the return value; executing [OpReturn] does the
    same with [Null] and pops no value. *)
Theorem return_rewinds_to_base_pointer (vm : vm.VM) (f : vm.Frame) :
  1 <= vm.framesIndex vm ->
  vm.frames vm !! Z.to_nat (vm.framesIndex vm - 1) = Some (Some f) ->
  1 <= vm.basePointer f <= vm.StackSize ->
  vm.basePointer f <= len (vm.stack vm) ->
  (forall returnValue,
      elemAt (vm.Instructions f) (vm.ip f + 1) = Return (byte OpReturnValue) ->
      1 <= vm.sp vm ->
      vm.stack vm !! Z.to_nat (vm.sp vm - 1) = Some returnValue ->
      vm.step HashKey vm = Return (None, afterReturn vm f returnValue))
  /\ (elemAt (vm.Instructions f) (vm.ip f + 1) = Return (byte OpReturn) ->
      vm.step HashKey vm = Return (None, afterReturn vm f vm.Null)).
Proof.
  intros Hi Hf Hb Hl. split.
  - intros returnValue Hop Hs Hv.
    rewrite (step_fetch vm f OpReturnValue) by done. unfold vm.execute.
    rewrite (bind_eq _ _ _ _ _ (pop_eq (atIp vm f (vm.ip f + 1)) returnValue Hs Hv)).
    erewrite bind_eq; last by (apply popFrame_eq; [done|apply atIp_frame, Hf]).
    unfold bind, get, put. simpl.
    rewrite push_eq; simpl; [|lia|lia]. done.
  - intros Hop.
    rewrite (step_fetch vm f OpReturn) by done. unfold vm.execute.
    erewrite bind_eq; last by (apply popFrame_eq; [done|apply atIp_frame, Hf]).
    unfold bind, get, put. simpl.
    rewrite push_eq; simpl; [|lia|lia]. done.
Qed.

(** *** Calling a closure *)

Lemma pushFrame_eq vm fr :
  0 <= vm.framesIndex vm < len (vm.frames vm) ->
  vm.pushFrame fr vm
  = Return (tt, vm.setFramesIndex (vm.framesIndex vm + 1)
                  (vm.setFrames (<[Z.to_nat (vm.framesIndex vm) := Some fr]> (vm.frames vm)) vm)).
Proof.
  intros Hi. unfold vm.pushFrame.
  assert (assign (vm.frames vm) (vm.framesIndex vm) (Some fr)
          = Return (<[Z.to_nat (vm.framesIndex vm) := Some fr]> (vm.frames vm))) as ->; [|done].
  by apply assign_Some.
Qed.

(** C6. Executing [OpCall] with operand [numArgs] reads the callable at
    [stack[sp-1-numArgs]].  A closure of another arity fails with "wrong
    number of arguments: want=%d, got=%d" and a value that is no closure
    with "calling non-function and non-built-in", the machine being left as
    it was but for the instruction pointer; a closure of the right arity gets
    a new frame with base pointer [sp - numArgs], and the stack pointer
    becomes that base pointer plus the number of locals (while the frame
    stack has room). *)
Theorem call_checks_arity_and_pushes_frame
    (vm : vm.VM) (f : vm.Frame) (numArgs : Z) (callee : ir.Object) :
  fetches vm f OpCall ->
  elemAt (vm.Instructions f) (vm.ip f + 1 + 1) = Return numArgs ->
  0 <= vm.sp vm - 1 - numArgs ->
  vm.stack vm !! Z.to_nat (vm.sp vm - 1 - numArgs) = Some callee ->
  (forall p c, callee = ir.Closure p c ->
     numArgs <> ir.NumParameters (ir.Function c) ->
     vm.step HashKey vm
     = Return (Some (ir.Errorf "wrong number of arguments: want=%d, got=%d"
                       [ArgInt (ir.NumParameters (ir.Function c)); ArgInt numArgs]),
               atIp vm f (vm.ip f + 1 + 1)))
  /\ (forall p c, callee = ir.Closure p c ->
     numArgs = ir.NumParameters (ir.Function c) ->
     vm.framesIndex vm < len (vm.frames vm) ->
     vm.step HashKey vm = Return (None, afterCall vm f (p, c) numArgs))
  /\ ((forall p c, callee <> ir.Closure p c) ->
     vm.step HashKey vm
     = Return (Some (ir.Errorf "calling non-function and non-built-in" []),
               atIp vm f (vm.ip f + 1 + 1))).
Proof.
  intros Hfetch Hn Hs Hc.
  assert (vm.step HashKey vm = vm.executeCall numArgs (atIp vm f (vm.ip f + 1 + 1))) as Hstep.
  { rewrite (step_fetch vm f OpCall) by done. destruct Hfetch as (Hi & Hf & _).
    unfold vm.execute, ReadUint8. unfold bind at 1. unfold lift. rewrite Hn.
    by rewrite (bind_eq _ _ _ _ _ (advanceIp_after_fetch vm f 1 Hi Hf)). }
  assert (elemAt (vm.stack vm) (vm.sp vm - 1 - numArgs) = Return callee) as He.
  { apply elemAt_Some. by split. }
  destruct Hfetch as (Hi & Hf & _).
  rewrite Hstep. unfold vm.executeCall, bind, get, lift. simpl. rewrite He.
  split; [|split].
  - intros p c -> Hne. unfold vm.callClosure. simpl.
    by destruct (decide _).
  - intros p c -> Heq Hroom. unfold vm.callClosure. simpl.
    destruct (decide _) as [|_]; [done|].
    unfold bind, get. rewrite pushFrame_eq; simpl.
    + done.
    + unfold len. rewrite length_insert. unfold len in Hroom. lia.
  - intros Hno. destruct callee; try done. by destruct (Hno p c).
Qed.

(** *** Instructions that pop two values *)

Lemma pop_two vm f (x y : ir.Object) :
  vm.frames vm !! Z.to_nat (vm.framesIndex vm - 1) = Some (Some f) ->
  2 <= vm.sp vm ->
  vm.stack vm !! Z.to_nat (vm.sp vm - 1) = Some x ->
  vm.stack vm !! Z.to_nat (vm.sp vm - 1 - 1) = Some y ->
  forall A (k : ir.Object -> ir.Object -> M vm.VM A),
    (right <- vm.pop ;; left <- vm.pop ;; k left right) (atIp vm f (vm.ip f + 1))
    = k y x (poppedTwo vm f).
Proof.
  intros Hf Hs Hx Hy A k.
  rewrite (bind_eq _ _ _ _ _ (pop_eq (atIp vm f (vm.ip f + 1)) x ltac:(simpl; lia) Hx)).
  erewrite bind_eq; [done|]. apply pop_eq; simpl; [lia|done].
Qed.

Lemma push_poppedTwo vm f v :
  2 <= vm.sp vm <= vm.StackSize + 1 ->
  vm.sp vm <= len (vm.stack vm) + 1 ->
  vm.push v (poppedTwo vm f) = Return (None, afterBinary vm f v).
Proof.
  intros Hs Hl. rewrite push_eq; simpl; [done|lia|lia].
Qed.

(** C3. When both operands of an arithmetic instruction are integers and
    the right one is 0, no error value is returned.  [OpDiv] divides without
    a check, so the machine panics with the division by zero of Go; the other
    three instructions push their result. *)
Theorem division_by_zero_is_no_error_value
    (vm : vm.VM) (f : vm.Frame) (op : Opcode) (leftValue : Z) :
  fetches vm f op ->
  op ∈ [OpAdd; OpSub; OpMul; OpDiv] ->
  2 <= vm.sp vm <= vm.StackSize + 1 ->
  vm.stack vm !! Z.to_nat (vm.sp vm - 1) = Some (ir.Integer 0) ->
  vm.stack vm !! Z.to_nat (vm.sp vm - 1 - 1) = Some (ir.Integer leftValue) ->
  (op = OpDiv -> vm.step HashKey vm = Panics DivideByZero)
  /\ (op = OpAdd ->
      vm.step HashKey vm
      = Return (None, afterBinary vm f (ir.Integer (ir.wrap64 (leftValue + 0)))))
  /\ (op = OpSub ->
      vm.step HashKey vm
      = Return (None, afterBinary vm f (ir.Integer (ir.wrap64 (leftValue - 0)))))
  /\ (op = OpMul ->
      vm.step HashKey vm
      = Return (None, afterBinary vm f (ir.Integer (ir.wrap64 (leftValue * 0)))))
  /\ (forall err vm', vm.step HashKey vm <> Return (Some err, vm')).
Proof.
  intros Hfetch Hop Hs Hr Hl.
  assert (vm.sp vm <= len (vm.stack vm) + 1) as Hlen.
  { apply lookup_lt_Some in Hr. unfold len. lia. }
  assert (vm.step HashKey vm
          = vm.executeBinaryIntegerOperation op (ir.Integer leftValue) (ir.Integer 0)
              (poppedTwo vm f)) as Hstep.
  { rewrite (step_fetch vm f op) by done. destruct Hfetch as (Hi & Hf & _).
    assert (vm.execute HashKey op (vm.Instructions f) (vm.ip f + 1)
            = vm.executeBinaryOperation op) as ->.
    { set_unfold in Hop. by destruct Hop as [->|[->|[->|[->|[]]]]]. }
    unfold vm.executeBinaryOperation.
    by rewrite (pop_two vm f (ir.Integer 0) (ir.Integer leftValue)) by (done || lia). }
  rewrite Hstep. unfold vm.executeBinaryIntegerOperation, bind, lift. simpl.
  repeat split.
  - by intros ->.
  - intros ->. by apply push_poppedTwo.
  - intros ->. by apply push_poppedTwo.
  - intros ->. by apply push_poppedTwo.
  - intros err vm'. set_unfold in Hop.
    destruct Hop as [->|[->|[->|[->|[]]]]];
      rewrite ?push_poppedTwo by done; done.
Qed.

(** The comparison that [a < b] compiles to: with the value of [b] pushed
    first and the value of [a] above it, [OpGreaterThan] pushes whether
    [a < b]. *)
Lemma greater_than_of_swapped_operands vm f (a b : Z) :
  fetches vm f OpGreaterThan ->
  2 <= vm.sp vm <= vm.StackSize + 1 ->
  vm.stack vm !! Z.to_nat (vm.sp vm - 1) = Some (ir.Integer a) ->
  vm.stack vm !! Z.to_nat (vm.sp vm - 1 - 1) = Some (ir.Integer b) ->
  vm.step HashKey vm = Return (None, afterBinary vm f (ir.Boolean (bool_decide (a < b)))).
Proof.
  intros Hfetch Hs Ha Hb.
  assert (vm.sp vm <= len (vm.stack vm) + 1) as Hlen.
  { apply lookup_lt_Some in Ha. unfold len. lia. }
  rewrite (step_fetch vm f OpGreaterThan) by done. destruct Hfetch as (Hi & Hf & _).
  unfold vm.execute, vm.executeComparison.
  rewrite (pop_two vm f (ir.Integer a) (ir.Integer b)) by (done || lia).
  unfold bind, lift. simpl.
  unfold vm.executeIntegerComparison, bind, lift. simpl.
  rewrite push_poppedTwo by done. do 3 f_equal.
  unfold vm.nativeBoolToBooleanObject, vm.True_, vm.False_.
  repeat case_bool_decide; try done; lia.
Qed.

(** *** Indexing *)

(** C9. Executing [OpIndex]: an array with an integer index out of range
    pushes [Null], and the element otherwise; a hash with a hashable index
    pushes the value of the pair found, and [Null] when there is none; a hash
    with an index that is not hashable fails with "unusable as hash key: %s";
    every other left operand fails with "index operator not supported:
    %s". *)
Theorem index_out_of_range_is_null
    (vm : vm.VM) (f : vm.Frame) (left index : ir.Object) :
  fetches vm f OpIndex ->
  2 <= vm.sp vm <= vm.StackSize + 1 ->
  vm.stack vm !! Z.to_nat (vm.sp vm - 1) = Some index ->
  vm.stack vm !! Z.to_nat (vm.sp vm - 1 - 1) = Some left ->
  (forall p elements i, left = ir.Array p elements -> index = ir.Integer i ->
     (i < 0 \/ i > len elements - 1 ->
      vm.step HashKey vm = Return (None, afterBinary vm f vm.Null))
     /\ (forall element, 0 <= i -> elements !! Z.to_nat i = Some element ->
         vm.step HashKey vm = Return (None, afterBinary vm f element)))
  /\ (forall p pairs, left = ir.Hash p pairs -> ir.Hashable index = true ->
     (vm.lookupPair pairs (HashKey index) = None ->
      vm.step HashKey vm = Return (None, afterBinary vm f vm.Null))
     /\ (forall found, vm.lookupPair pairs (HashKey index) = Some found ->
         vm.step HashKey vm = Return (None, afterBinary vm f (ir.Value found))))
  /\ (forall p pairs indexType, left = ir.Hash p pairs -> ir.Hashable index = false ->
     ir.TypeOf index = Return indexType ->
     vm.step HashKey vm
     = Return (Some (ir.Errorf "unusable as hash key: %s" [ArgType indexType]),
               poppedTwo vm f))
  /\ (forall leftType, ir.TypeOf left = Return leftType ->
     leftType <> ir.HashObj ->
     (leftType = ir.ArrayObj ->
      exists indexType, ir.TypeOf index = Return indexType /\ indexType <> ir.IntegerObj) ->
     vm.step HashKey vm
     = Return (Some (ir.Errorf "index operator not supported: %s" [ArgType leftType]),
               poppedTwo vm f)).
Proof.
  intros Hfetch Hs Hi Hl.
  assert (vm.sp vm <= len (vm.stack vm) + 1) as Hlen.
  { apply lookup_lt_Some in Hi. unfold len. lia. }
  assert (vm.step HashKey vm
          = vm.executeIndexExpression HashKey left index (poppedTwo vm f)) as ->.
  { rewrite (step_fetch vm f OpIndex) by done. destruct Hfetch as (? & Hf & _).
    unfold vm.execute. by rewrite (pop_two vm f index left) by (done || lia). }
  unfold vm.executeIndexExpression.
  split; [|split; [|split]].
  - intros p elements i -> ->. unfold bind, lift. simpl.
    unfold vm.executeArrayIndex, bind, lift. simpl. split.
    + intros Hout. destruct (decide _) as [_|Hin]; [|lia]. by apply push_poppedTwo.
    + intros element Hi0 He. destruct (decide _) as [Hout|_].
      { apply lookup_lt_Some in He. unfold len in Hout. lia. }
      assert (elemAt elements i = Return element) as ->.
      { apply elemAt_Some. by split. }
      by apply push_poppedTwo.
  - intros p pairs -> Hh. unfold bind, lift. simpl.
    unfold vm.executeHashIndex. rewrite Hh. split.
    + intros ->. by apply push_poppedTwo.
    + intros found ->. by apply push_poppedTwo.
  - intros p pairs indexType -> Hh Ht. unfold bind, lift. simpl.
    unfold vm.executeHashIndex. rewrite Hh. unfold bind, lift. by rewrite Ht.
  - intros leftType Ht Hnh Harr. unfold bind at 1. unfold lift at 1. rewrite Ht.
    destruct (decide (leftType = ir.ArrayObj)) as [Ha|Ha].
    + destruct (Harr Ha) as (indexType & Hti & Hni).
      unfold bind, lift. rewrite Hti. simpl.
      rewrite bool_decide_eq_false_2 by done.
      destruct (decide _) as [|]; done.
    + unfold bind, ret. destruct (decide _) as [|]; done.
Qed.

(** *** Closures *)

Lemma copyFrom_eq (st : list ir.Object) (n : nat) (i : Z) :
  0 <= i -> i + Z.of_nat n <= len st ->
  vm.copyFrom n i st = Return (take n (drop (Z.to_nat i) st)).
Proof.
  revert i. induction n as [|n IH]; intros i Hi Hl; simpl.
  - by rewrite take_0.
  - unfold len in Hl.
    destruct (lookup_lt_is_Some_2 st (Z.to_nat i)) as [o Ho]; [lia|].
    assert (elemAt st i = Return o) as ->. { apply elemAt_Some. by split. }
    rewrite IH by (unfold len; lia).
    rewrite (drop_S _ o _ Ho). simpl.
    by replace (Z.to_nat (i + 1)) with (S (Z.to_nat i)) by lia.
Qed.

(** [OpClosure] with the operands [constIndex] and [numFree] takes the
    function at [constants[constIndex]], captures the top [numFree] values
    of the stack in the order of the stack, and pushes the closure. *)
Lemma closure_captures_in_stack_order vm f constIndex numFree p function :
  fetches vm f OpClosure ->
  ReadUint16 (vm.Instructions f) (vm.ip f + 1 + 1) = Return constIndex ->
  ReadUint8 (vm.Instructions f) (vm.ip f + 1 + 3) = Return numFree ->
  0 <= constIndex ->
  vm.constants vm !! Z.to_nat constIndex = Some (ir.Function_ p function) ->
  0 <= numFree <= vm.sp vm ->
  vm.sp vm - numFree < vm.StackSize ->
  vm.sp vm <= len (vm.stack vm) ->
  vm.sp vm - numFree < len (vm.stack vm) ->
  vm.step HashKey vm = Return (None, afterClosure vm f function numFree).
Proof.
  intros Hfetch Hc Hn Hc0 Hfn Hnf Hsz Hl Hl'.
  rewrite (step_fetch vm f OpClosure) by done. destruct Hfetch as (Hi & Hf & _).
  unfold vm.execute. unfold bind at 1. unfold lift at 1. rewrite Hc.
  unfold bind at 1. unfold lift at 1. rewrite Hn.
  rewrite (bind_eq _ _ _ _ _ (advanceIp_after_fetch vm f 3 Hi Hf)).
  unfold vm.pushClosure, bind, get, lift, put. simpl.
  assert (elemAt (vm.constants vm) constIndex = Return (ir.Function_ p function)) as ->.
  { apply elemAt_Some. by split. }
  rewrite copyFrom_eq by lia. unfold vm.alloc. simpl.
  rewrite push_eq; simpl; [done|lia|lia].
Qed.

(** [OpGetFree] with the operand [freeIndex] pushes the captured value
    [Free[freeIndex]] of the closure of the current frame. *)
Lemma get_free_pushes_captured_value vm f freeIndex v :
  fetches vm f OpGetFree ->
  ReadUint8 (vm.Instructions f) (vm.ip f + 1 + 1) = Return freeIndex ->
  0 <= freeIndex ->
  ir.Free (vm.cl f).2 !! Z.to_nat freeIndex = Some v ->
  0 <= vm.sp vm < vm.StackSize ->
  vm.sp vm < len (vm.stack vm) ->
  vm.step HashKey vm = Return (None, afterPush vm f 1 v).
Proof.
  intros Hfetch Hn Hi0 Hv Hs Hl.
  rewrite (step_fetch vm f OpGetFree) by done. destruct Hfetch as (Hi & Hf & _).
  unfold vm.execute. unfold bind at 1. unfold lift at 1. rewrite Hn.
  rewrite (bind_eq _ _ _ _ _ (advanceIp_after_fetch vm f 1 Hi Hf)).
  erewrite bind_eq;
    last by (apply currentFrame_eq; [done|apply atIp_frame, Hf]).
  simpl. unfold bind at 1. unfold lift at 1.
  assert (elemAt (ir.Free (vm.cl f).2) freeIndex = Return v) as ->.
  { apply elemAt_Some. by split. }
  rewrite push_eq; simpl; [done|lia|lia].
Qed.

End VMFacts.


(** ** The compiler: the primitives *)

Section CompilerPrimitives.

Import opcode compiler.

Lemma wf_current c : wf c -> is_Some (current c).
Proof.
  intros [H0 H1]. apply lookup_lt_is_Some. unfold len in H1. lia.
Qed.

Lemma currentScope_eq c sc :
  0 <= scopeIndex c -> current c = Some sc -> currentScope c = Return (sc, c).
Proof.
  intros H0 Hc. unfold currentScope.
  assert (elemAt (scopes c) (scopeIndex c) = Return sc) as ->; [|done].
  apply elemAt_Some. by split.
Qed.

Lemma setCurrentScope_eq c sc sc' :
  0 <= scopeIndex c -> current c = Some sc ->
  setCurrentScope sc' c = Return (tt, withCurrent c sc').
Proof.
  intros H0 Hc. unfold setCurrentScope.
  assert (assign (scopes c) (scopeIndex c) sc'
          = Return (<[Z.to_nat (scopeIndex c) := sc']> (scopes c))) as ->; [|done].
  apply assign_Some. split; [|done]. apply lookup_lt_Some in Hc. unfold len. lia.
Qed.

Lemma currentInstructions_eq c sc :
  0 <= scopeIndex c -> current c = Some sc ->
  currentInstructions c = Return (instructions sc, c).
Proof.
  intros H0 Hc. unfold currentInstructions.
  by rewrite (bind_eq _ _ _ _ _ (currentScope_eq c sc H0 Hc)).
Qed.

Lemma current_withCurrent c sc sc' :
  current c = Some sc -> current (withCurrent c sc') = Some sc'.
Proof.
  intros Hc. unfold current. simpl. apply list_lookup_insert_eq.
  by apply lookup_lt_Some in Hc.
Qed.

Lemma withCurrent_withCurrent c sc sc' :
  withCurrent (withCurrent c sc) sc' = withCurrent c sc'.
Proof. unfold withCurrent. simpl. f_equal. apply list_insert_insert_eq. Qed.

Lemma wf_withCurrent c sc : wf c -> wf (withCurrent c sc).
Proof. unfold wf, len. simpl. by rewrite length_insert. Qed.

Lemma addInstruction_eq c sc ins :
  0 <= scopeIndex c -> current c = Some sc ->
  addInstruction ins c
  = Return (len (instructions sc),
            withCurrent c
              {| instructions := instructions sc ++ ins;
                 lastInstruction := lastInstruction sc;
                 previousInstruction := previousInstruction sc |}).
Proof.
  intros H0 Hc. unfold addInstruction.
  rewrite (bind_eq _ _ _ _ _ (currentInstructions_eq c sc H0 Hc)).
  rewrite (bind_eq _ _ _ _ _ (currentScope_eq c sc H0 Hc)).
  erewrite bind_eq; [done|]. by eapply setCurrentScope_eq.
Qed.

Lemma setLastInstruction_eq c sc op pos :
  0 <= scopeIndex c -> current c = Some sc ->
  setLastInstruction op pos c
  = Return (tt, withCurrent c
                  {| instructions := instructions sc;
                     lastInstruction := {| Opcode := op; Position := pos |};
                     previousInstruction := lastInstruction sc |}).
Proof.
  intros H0 Hc. unfold setLastInstruction.
  rewrite (bind_eq _ _ _ _ _ (currentScope_eq c sc H0 Hc)).
  by eapply setCurrentScope_eq.
Qed.

(** [emit] appends the encoded instruction to the current scope, moves the
    cursors and returns the position of the instruction. *)
Lemma emit_eq c sc op operands :
  0 <= scopeIndex c -> current c = Some sc ->
  emit op operands c
  = Return (len (instructions sc),
            withCurrent c
              {| instructions := instructions sc ++ Make op operands;
                 lastInstruction := {| Opcode := op; Position := len (instructions sc) |};
                 previousInstruction := lastInstruction sc |}).
Proof.
  intros H0 Hc. unfold emit.
  rewrite (bind_eq _ _ _ _ _ (addInstruction_eq c sc _ H0 Hc)).
  erewrite bind_eq; last first.
  { apply setLastInstruction_eq; [done|]. by eapply current_withCurrent. }
  by rewrite withCurrent_withCurrent.
Qed.

Lemma lastInstructionIs_eq c sc op :
  0 <= scopeIndex c -> current c = Some sc ->
  lastInstructionIs op c
  = Return (if decide (len (instructions sc) = 0) then false
            else bool_decide (Opcode (lastInstruction sc) = op), c).
Proof.
  intros H0 Hc. unfold lastInstructionIs.
  rewrite (bind_eq _ _ _ _ _ (currentInstructions_eq c sc H0 Hc)).
  destruct (decide _); [done|].
  by rewrite (bind_eq _ _ _ _ _ (currentScope_eq c sc H0 Hc)).
Qed.

Lemma removeLastPop_eq c sc :
  0 <= scopeIndex c -> current c = Some sc ->
  0 <= Position (lastInstruction sc) <= len (instructions sc) ->
  removeLastPop c
  = Return (tt, withCurrent c
                  {| instructions := take (Z.to_nat (Position (lastInstruction sc)))
                                          (instructions sc);
                     lastInstruction := previousInstruction sc;
                     previousInstruction := previousInstruction sc |}).
Proof.
  intros H0 Hc Hp. unfold removeLastPop.
  rewrite (bind_eq _ _ _ _ _ (currentScope_eq c sc H0 Hc)).
  rewrite (bind_eq _ _ _ _ _ (currentInstructions_eq c sc H0 Hc)).
  destruct (decide _); [|done]. by eapply setCurrentScope_eq.
Qed.

Lemma removeLastPop_Return c sc r c' :
  0 <= scopeIndex c -> current c = Some sc ->
  removeLastPop c = Return (r, c') ->
  0 <= Position (lastInstruction sc) <= len (instructions sc).
Proof.
  intros H0 Hc. unfold removeLastPop.
  rewrite (bind_eq _ _ _ _ _ (currentScope_eq c sc H0 Hc)).
  rewrite (bind_eq _ _ _ _ _ (currentInstructions_eq c sc H0 Hc)).
  by destruct (decide _).
Qed.

Lemma replaceBytes_length ins pos new r :
  replaceBytes ins pos new = Return r -> length r = length ins.
Proof.
  revert ins pos. induction new as [|b new IH]; intros ins pos; simpl.
  - by intros [= <-].
  - destruct (assign ins pos b) as [ins'|] eqn:E; [|discriminate].
    apply assign_Some in E as [_ ->]. intros Hr%IH. by rewrite length_insert in Hr.
Qed.

(** Bytes replaced at or after the end of a prefix leave the prefix as it
    is. *)
Lemma replaceBytes_app a b pos new r :
  len a <= pos ->
  replaceBytes (a ++ b) pos new = Return r ->
  exists b', r = a ++ b' /\ length b' = length b.
Proof.
  revert b pos. induction new as [|x new IH]; intros b pos Hp; simpl.
  - intros [= <-]. by exists b.
  - destruct (assign (a ++ b) pos x) as [ins'|] eqn:E; [|discriminate].
    apply assign_Some in E as [Hr ->]. unfold len in *.
    rewrite insert_app_r_alt by lia.
    intros (b' & -> & Hl)%IH; [|lia]. exists b'. split; [done|].
    by rewrite Hl, length_insert.
Qed.

Lemma replaceInstruction_Return c sc pos new r c' :
  0 <= scopeIndex c -> current c = Some sc ->
  replaceInstruction pos new c = Return (r, c') ->
  exists ins, replaceBytes (instructions sc) pos new = Return ins /\
    c' = withCurrent c {| instructions := ins;
                          lastInstruction := lastInstruction sc;
                          previousInstruction := previousInstruction sc |}.
Proof.
  intros H0 Hc. unfold replaceInstruction.
  rewrite (bind_eq _ _ _ _ _ (currentScope_eq c sc H0 Hc)).
  intros H. go_inv H. go_inv H1. exists a. split; [done|].
  erewrite setCurrentScope_eq in H by done. by injection H as _ <-.
Qed.

Lemma changeOperand_Return c sc opPos operand r c' :
  0 <= scopeIndex c -> current c = Some sc ->
  changeOperand opPos operand c = Return (r, c') ->
  exists new ins, replaceBytes (instructions sc) opPos new = Return ins /\
    c' = withCurrent c {| instructions := ins;
                          lastInstruction := lastInstruction sc;
                          previousInstruction := previousInstruction sc |}.
Proof.
  intros H0 Hc. unfold changeOperand.
  rewrite (bind_eq _ _ _ _ _ (currentInstructions_eq c sc H0 Hc)).
  intros H. go_inv H. go_inv H1.
  apply (replaceInstruction_Return _ sc) in H as (ins & ? & ?); [|done..].
  eauto.
Qed.

(** *** What a compilation appends *)

Lemma appended_refl c : wf c -> appended c c [] [].
Proof.
  intros Hwf. destruct (wf_current c Hwf) as [sc Hsc].
  split; [done|]. split; [by rewrite app_nil_r|].
  exists sc, sc. split; [done|]. split; [by rewrite list_insert_id|].
  split; [by rewrite app_nil_r|]. by left.
Qed.

Lemma cursorsFrom_trans n0 n1 sc0 sc1 sc2 :
  n0 <= n1 -> cursorsFrom n0 sc0 sc1 -> cursorsFrom n1 sc1 sc2 ->
  cursorsFrom n0 sc0 sc2.
Proof.
  unfold cursorsFrom. intros Hn H01 H12.
  destruct H12 as [[-> ->]|[[Hl Hp]|[Hl Hp]]]; [done|..].
  - destruct H01 as [[H1 H2]|[[H1 H2]|[H1 H2]]].
    + right; left. split; [lia|congruence].
    + right; right. split; [lia|]. by rewrite Hp.
    + right; right. split; [lia|]. by rewrite Hp.
  - right; right. lia.
Qed.

Lemma appended_trans c0 c1 c2 d1 k1 d2 k2 :
  appended c0 c1 d1 k1 -> appended c1 c2 d2 k2 ->
  appended c0 c2 (d1 ++ d2) (k1 ++ k2).
Proof.
  intros (Hi1 & Hk1 & sc0 & sc1 & Hc0 & Hs1 & Hd1 & Hcur1)
         (Hi2 & Hk2 & sc1' & sc2 & Hc1 & Hs2 & Hd2 & Hcur2).
  assert (sc1' = sc1) as ->.
  { unfold current in Hc1. rewrite Hs1, Hi1, list_lookup_insert_eq in Hc1.
    - by injection Hc1.
    - by apply lookup_lt_Some in Hc0. }
  split; [congruence|]. split; [by rewrite Hk2, Hk1, app_assoc|].
  exists sc0, sc2. split; [done|].
  split; [by rewrite Hs2, Hs1, Hi1, list_insert_insert_eq|].
  split; [by rewrite Hd2, Hd1, app_assoc|].
  eapply cursorsFrom_trans; [|done..].
  rewrite Hd1. unfold len. rewrite length_app. lia.
Qed.

Lemma appended_wf c c' d k : wf c -> appended c c' d k -> wf c'.
Proof.
  intros [H0 H1] (Hi & _ & sc & sc' & _ & Hs & _). unfold wf, len in *.
  rewrite Hi, Hs, length_insert. done.
Qed.

Lemma appended_current c c' d k :
  appended c c' d k ->
  exists sc sc', current c = Some sc /\ current c' = Some sc' /\
    instructions sc' = instructions sc ++ d /\
    cursorsFrom (len (instructions sc)) sc sc'.
Proof.
  intros (Hi & _ & sc & sc' & Hc & Hs & Hd & Hcur). exists sc, sc'.
  repeat split; try done. unfold current. rewrite Hs, Hi.
  apply list_lookup_insert_eq. by apply lookup_lt_Some in Hc.
Qed.

(** The compiler with another current scope, when the code of that scope
    extends the old one. *)
Lemma appended_withCurrent c sc sc' d :
  current c = Some sc ->
  instructions sc' = instructions sc ++ d ->
  cursorsFrom (len (instructions sc)) sc sc' ->
  appended c (withCurrent c sc') d [].
Proof.
  intros Hc Hd Hcur. split; [done|]. split; [by rewrite app_nil_r|].
  by exists sc, sc'.
Qed.

Lemma emit_appended c op operands pos c' :
  wf c -> emit op operands c = Return (pos, c') ->
  appended c c' (Make op operands) [] /\
  exists sc, current c = Some sc /\ pos = len (instructions sc) /\
    current c' = Some {| instructions := instructions sc ++ Make op operands;
                         lastInstruction := {| Opcode := op; Position := pos |};
                         previousInstruction := lastInstruction sc |}.
Proof.
  intros Hwf H. destruct (wf_current c Hwf) as [sc Hsc].
  rewrite (emit_eq c sc) in H by (done || apply Hwf). injection H as <- <-.
  split.
  - apply (appended_withCurrent c sc); [done..|]. right; left. simpl. split; [lia|done].
  - exists sc. split; [done|]. split; [done|]. by eapply current_withCurrent.
Qed.

(** A step that leaves the scopes alone. *)
Lemma appended_same_scopes c c' k :
  wf c -> scopeIndex c' = scopeIndex c -> scopes c' = scopes c ->
  constants c' = constants c ++ k ->
  appended c c' [] k.
Proof.
  intros Hwf Hi Hs Hk. destruct (wf_current c Hwf) as [sc Hsc].
  split; [done|]. split; [done|]. exists sc, sc. split; [done|].
  split; [by rewrite Hs, list_insert_id|]. split; [by rewrite app_nil_r|]. by left.
Qed.

Lemma addConstant_appended c obj i c' :
  wf c -> addConstant obj c = Return (i, c') ->
  appended c c' [] [obj] /\ i = len (constants c).
Proof.
  intros Hwf [= <- <-]. split; [by apply appended_same_scopes|].
  unfold len. rewrite length_app. simpl. lia.
Qed.

Lemma define_appended c name symbol c' :
  wf c -> define name c = Return (symbol, c') -> appended c c' [] [].
Proof.
  intros Hwf H. unfold define in H. destruct (symbolTable c); [|discriminate].
  destruct (Define name s). injection H as <- <-.
  apply appended_same_scopes; simpl; try done. by rewrite app_nil_r.
Qed.

Lemma resolve_appended c name r c' :
  wf c -> resolve name c = Return (r, c') -> appended c c' [] [].
Proof.
  intros Hwf H. unfold resolve in H. destruct (symbolTable c); [|discriminate].
  destruct (Resolve name s). injection H as <- <-.
  apply appended_same_scopes; simpl; try done. by rewrite app_nil_r.
Qed.

Lemma loadSymbol_appended c s r c' :
  wf c -> loadSymbol s c = Return (r, c') ->
  exists op, appended c c' (Make op [Index s]) [] /\
    op = match Scope s with
         | GlobalScope => OpGetGlobal
         | LocalScope => OpGetLocal
         | FreeScope => OpGetFree
         end.
Proof.
  intros Hwf H. unfold loadSymbol in H.
  destruct (Scope s); go_inv H; go_inv H;
    apply emit_appended in H0 as [? _]; eauto.
Qed.

(** Bytes replaced inside the appended code leave the rest as it is. *)
Lemma replace_appended c0 c d k sc pos new ins :
  wf c0 -> appended c0 c d k -> current c = Some sc ->
  (forall sc0, current c0 = Some sc0 -> len (instructions sc0) <= pos) ->
  replaceBytes (instructions sc) pos new = Return ins ->
  exists d', length d' = length d /\
    appended c0 (withCurrent c {| instructions := ins;
                                  lastInstruction := lastInstruction sc;
                                  previousInstruction := previousInstruction sc |}) d' k.
Proof.
  intros Hwf Happ Hc Hpos Hr.
  destruct Happ as (Hi & Hk & sc0 & sc' & Hc0 & Hs & Hd & Hcur).
  assert (sc' = sc) as ->.
  { unfold current in Hc. rewrite Hs, Hi, list_lookup_insert_eq in Hc.
    - by injection Hc.
    - by apply lookup_lt_Some in Hc0. }
  rewrite Hd in Hr. apply replaceBytes_app in Hr as (d' & -> & Hl); [|by apply Hpos].
  exists d'. split; [done|]. split; [done|]. split; [done|].
  exists sc0, {| instructions := instructions sc0 ++ d';
                 lastInstruction := lastInstruction sc;
                 previousInstruction := previousInstruction sc |}.
  split; [done|]. simpl. split; [by rewrite Hs, Hi, list_insert_insert_eq|].
  split; [done|]. done.
Qed.

Lemma changeOperand_appended c0 c d k opPos operand r c' :
  wf c0 -> appended c0 c d k ->
  (forall sc0, current c0 = Some sc0 -> len (instructions sc0) <= opPos) ->
  changeOperand opPos operand c = Return (r, c') ->
  exists d', length d' = length d /\ appended c0 c' d' k /\
    forall sc, current c = Some sc ->
      exists ins, current c' = Some {| instructions := ins;
                                      lastInstruction := lastInstruction sc;
                                      previousInstruction := previousInstruction sc |}.
Proof.
  intros Hwf Happ Hpos H.
  pose proof (appended_wf _ _ _ _ Hwf Happ) as Hwf'.
  destruct (wf_current c Hwf') as [sc Hsc].
  apply (changeOperand_Return c sc) in H as (new & ins & Hr & ->); [|apply Hwf'|done].
  destruct (replace_appended c0 c d k sc opPos new ins) as (d' & Hl & Happ'); try done.
  exists d'. split; [done|]. split; [done|].
  intros sc1 Hsc1. assert (sc1 = sc) as -> by congruence.
  exists ins. by eapply current_withCurrent.
Qed.

(** The strip of a trailing [OpPop] after the compilation of a block, seen
    from a state [c0] from which the compiler had emitted an instruction
    other than [OpPop] (the jump of the conditional) before it compiled the
    block: what remains still extends the code of [c0]. *)
Lemma removeLastPopIfAny_appended c0 c2 c3 c4 d02 k02 d23 k23 sc0 sc2 r :
  wf c0 -> current c0 = Some sc0 ->
  appended c0 c2 d02 k02 -> current c2 = Some sc2 ->
  len (instructions sc0) <= Position (lastInstruction sc2) ->
  Opcode (lastInstruction sc2) <> OpPop ->
  appended c2 c3 d23 k23 ->
  removeLastPopIfAny c3 = Return (r, c4) ->
  exists d, appended c0 c4 (d02 ++ d) (k02 ++ k23).
Proof.
  intros Hwf Hsc0 H02 Hsc2 Hpos Hop H23 H.
  pose proof (appended_wf _ _ _ _ Hwf H02) as Hwf2.
  pose proof (appended_wf _ _ _ _ Hwf2 H23) as Hwf3.
  pose proof (appended_trans _ _ _ _ _ _ _ H02 H23) as H03.
  destruct (appended_current _ _ _ _ H23) as (sc2' & sc3 & Hsc2' & Hsc3 & Hd3 & Hcur3).
  assert (sc2' = sc2) as -> by congruence.
  destruct (appended_current _ _ _ _ H02) as (sc0' & sc2' & Hsc0' & Hsc2'' & Hd2 & Hcur2).
  assert (sc0' = sc0) as -> by congruence.
  assert (sc2' = sc2) as -> by congruence.
  unfold removeLastPopIfAny in H.
  rewrite (bind_eq _ _ _ _ _ (lastInstructionIs_eq c3 sc3 OpPop (proj1 Hwf3) Hsc3)) in H.
  destruct (decide (len (instructions sc3) = 0)) as [|Hne].
  { apply ret_Return in H as [_ ->]. by exists d23. }
  case_bool_decide as Hpop; [|apply ret_Return in H as [_ ->]; by exists d23].
  pose proof (removeLastPop_Return _ _ _ _ (proj1 Hwf3) Hsc3 H) as Hrange.
  rewrite (removeLastPop_eq c3 sc3) in H by (done || apply Hwf3).
  injection H as _ <-.
  assert (len (instructions sc2) <= Position (lastInstruction sc3) /\
          (previousInstruction sc3 = lastInstruction sc2 \/
           len (instructions sc2) <= Position (previousInstruction sc3)))
    as [Hlast Hprev].
  { destruct Hcur3 as [[Hl _]|[[Hl Hp]|[Hl Hp]]]; [|by auto..].
    rewrite Hl in Hpop. done. }
  assert (len (instructions sc0) <= len (instructions sc2)) as Hn02.
  { rewrite Hd2. unfold len. rewrite length_app. lia. }
  set (n := Z.to_nat (Position (lastInstruction sc3))).
  exists (take (n - length (instructions sc2)) d23).
  destruct H03 as (Hi & Hk & sc0' & sc3' & Hsc0'' & Hs & Hd & _).
  assert (sc0' = sc0) as -> by congruence.
  split; [done|]. split; [done|].
  eexists sc0, _. split; [done|]. simpl.
  split.
  { rewrite Hs. destruct H02 as (Hi2 & _). destruct H23 as (Hi3 & _).
    rewrite Hi3, Hi2. by rewrite list_insert_insert_eq. }
  simpl. split.
  { rewrite Hd3, Hd2. rewrite take_app_ge; last first.
    { unfold len in Hlast. rewrite Hd2 in Hlast. lia. }
    by rewrite <- app_assoc. }
  right; right. simpl. destruct Hprev as [->| Hprev]; [done|]. split; lia.
Qed.

End CompilerPrimitives.


(** ** The compiler: every node appends to the current scope *)

(** Induction on nodes, with the nodes inside the lists of a node. *)
Section NodeInduction.

Import ast.

Variable P : ast.Node -> Prop.

Hypothesis HProgram : forall ss, Forall P ss -> P (Program ss).
Hypothesis HExpressionStatement : forall e, P e -> P (ExpressionStatement e).
Hypothesis HLetStatement : forall name v, P v -> P (LetStatement name v).
Hypothesis HReturnStatement : forall v, P v -> P (ReturnStatement v).
Hypothesis HBlockStatement : forall ss, Forall P ss -> P (BlockStatement ss).
Hypothesis HIdentifier : forall v, P (Identifier v).
Hypothesis HIntegerLiteral : forall v, P (IntegerLiteral v).
Hypothesis HStringLiteral : forall v, P (StringLiteral v).
Hypothesis HBoolean : forall v, P (Boolean v).
Hypothesis HArrayLiteral : forall es, Forall P es -> P (ArrayLiteral es).
Hypothesis HHashLiteral :
  forall ps, Forall (fun kv => P kv.1 /\ P kv.2) ps -> P (HashLiteral ps).
Hypothesis HPrefixExpression : forall op r, P r -> P (PrefixExpression op r).
Hypothesis HInfixExpression : forall l op r, P l -> P r -> P (InfixExpression l op r).
Hypothesis HIfExpression :
  forall c t e, P c -> P t -> from_option P Logic.True e -> P (IfExpression c t e).
Hypothesis HIndexExpression : forall l i, P l -> P i -> P (IndexExpression l i).
Hypothesis HCallExpression :
  forall fn args, P fn -> Forall P args -> P (CallExpression fn args).
Hypothesis HFunctionLiteral : forall ps b, P b -> P (FunctionLiteral ps b).

Fixpoint Node_nested_ind (n : ast.Node) : P n :=
  let all :=
    fix all (l : list ast.Node) : Forall P l :=
      match l with
      | [] => Forall_nil_2 P
      | x :: rest => Forall_cons_2 P x rest (Node_nested_ind x) (all rest)
      end in
  match n with
  | Program ss => HProgram ss (all ss)
  | ExpressionStatement e => HExpressionStatement e (Node_nested_ind e)
  | LetStatement name v => HLetStatement name v (Node_nested_ind v)
  | ReturnStatement v => HReturnStatement v (Node_nested_ind v)
  | BlockStatement ss => HBlockStatement ss (all ss)
  | Identifier v => HIdentifier v
  | IntegerLiteral v => HIntegerLiteral v
  | StringLiteral v => HStringLiteral v
  | Boolean v => HBoolean v
  | ArrayLiteral es => HArrayLiteral es (all es)
  | HashLiteral ps =>
      HHashLiteral ps
        ((fix pairs (l : list (ast.Node * ast.Node))
            : Forall (fun kv => P kv.1 /\ P kv.2) l :=
            match l with
            | [] => Forall_nil_2 _
            | kv :: rest =>
                Forall_cons_2 (fun kv => P kv.1 /\ P kv.2) kv rest
                  (conj (Node_nested_ind kv.1) (Node_nested_ind kv.2)) (pairs rest)
            end) ps)
  | PrefixExpression op r => HPrefixExpression op r (Node_nested_ind r)
  | InfixExpression l op r =>
      HInfixExpression l op r (Node_nested_ind l) (Node_nested_ind r)
  | IfExpression c t e =>
      HIfExpression c t e (Node_nested_ind c) (Node_nested_ind t)
        (match e with
         | Some alt => Node_nested_ind alt
         | None => I
         end)
  | IndexExpression l i =>
      HIndexExpression l i (Node_nested_ind l) (Node_nested_ind i)
  | CallExpression fn args =>
      HCallExpression fn args (Node_nested_ind fn) (all args)
  | FunctionLiteral ps b => HFunctionLiteral ps b (Node_nested_ind b)
  end.

End NodeInduction.

Section CompilerFacts.

Import opcode compiler.

Variable NodeString : ast.Node -> string.

Lemma grows_refl c : wf c -> grows c c.
Proof. intros Hwf. split; [done|]. exists [], []. by apply appended_refl. Qed.

Lemma grows_trans c0 c1 c2 : grows c0 c1 -> grows c1 c2 -> grows c0 c2.
Proof.
  intros [Hwf1 (d1 & k1 & H1)] [Hwf2 (d2 & k2 & H2)]. split; [done|].
  exists (d1 ++ d2), (k1 ++ k2). by eapply appended_trans.
Qed.

Lemma appended_grows c c' d k : wf c -> appended c c' d k -> grows c c'.
Proof. intros Hwf H. split; [by eapply appended_wf|by exists d, k]. Qed.

Lemma emit_grows c op operands pos c' :
  wf c -> emit op operands c = Return (pos, c') -> grows c c'.
Proof. intros Hwf [H _]%emit_appended; [|done]. by eapply appended_grows. Qed.

Lemma loadSymbol_grows c s r c' :
  wf c -> loadSymbol s c = Return (r, c') -> grows c c'.
Proof.
  intros Hwf (op & H & _)%loadSymbol_appended; [|done]. by eapply appended_grows.
Qed.

Lemma each_grows {A} (f : A -> M Compiler (option Error)) xs :
  Forall (fun x => forall c c', wf c -> f x c = Return (None, c') -> grows c c') xs ->
  forall c c', wf c -> each f xs c = Return (None, c') -> grows c c'.
Proof.
  induction 1 as [|x xs Hx _ IH]; intros c c' Hwf H; simpl in H.
  - apply ret_Return in H as [_ ->]. by apply grows_refl.
  - go_inv H. eapply grows_trans; [by eapply Hx|].
    eapply IH; [|done]. by eapply Hx.
Qed.

Lemma foreach_grows {A B} (f : A -> M Compiler B) xs :
  (forall x c r c', wf c -> f x c = Return (r, c') -> grows c c') ->
  forall c r c', wf c -> foreach f xs c = Return (r, c') -> grows c c'.
Proof.
  intros Hf. induction xs as [|x xs IH]; intros c r c' Hwf H; simpl in H.
  - apply ret_Return in H as [_ ->]. by apply grows_refl.
  - go_inv H. eapply grows_trans; [by eapply Hf|].
    eapply IH; [|done]. by eapply Hf.
Qed.

Lemma moveLeft_elem {A} (less : A -> A -> bool) x l y :
  y ∈ moveLeft less x l <-> y = x \/ y ∈ l.
Proof.
  induction l as [|z l IH]; simpl; [set_solver|].
  destruct (less x z); set_solver.
Qed.

Lemma sortSlice_elem {A} (less : A -> A -> bool) l y :
  y ∈ sortSlice less l <-> y ∈ l.
Proof.
  unfold sortSlice. rewrite elem_of_reverse.
  cut (forall acc, y ∈ foldl (fun reversed x => moveLeft less x reversed) acc l
                   <-> y ∈ acc \/ y ∈ l).
  { intros H. rewrite H. set_solver. }
  induction l as [|x l IH]; intros acc; simpl; [set_solver|].
  rewrite IH, moveLeft_elem. set_solver.
Qed.

Lemma current_wf c sc : wf c -> current c = Some sc -> 0 <= scopeIndex c.
Proof. by intros [? _] _. Qed.

Lemma removeLastPopIfAny_wf c r c' :
  wf c -> removeLastPopIfAny c = Return (r, c') -> wf c'.
Proof.
  intros Hwf H. destruct (wf_current c Hwf) as [sc Hsc]. unfold removeLastPopIfAny in H.
  rewrite (bind_eq _ _ _ _ _ (lastInstructionIs_eq c sc OpPop (proj1 Hwf) Hsc)) in H.
  destruct (if decide _ then _ else _).
  - pose proof (removeLastPop_Return _ _ _ _ (proj1 Hwf) Hsc H).
    rewrite (removeLastPop_eq c sc) in H by (done || apply Hwf).
    injection H as _ <-. by apply wf_withCurrent.
  - by apply ret_Return in H as [_ ->].
Qed.

Lemma addConstant_grows c obj i c' :
  wf c -> addConstant obj c = Return (i, c') -> grows c c'.
Proof. intros Hwf [H _]%addConstant_appended; [|done]. by eapply appended_grows. Qed.

Lemma define_grows c name s c' :
  wf c -> define name c = Return (s, c') -> grows c c'.
Proof. intros Hwf H%define_appended; [|done]. by eapply appended_grows. Qed.

Lemma resolve_grows c name s c' :
  wf c -> resolve name c = Return (s, c') -> grows c c'.
Proof. intros Hwf H%resolve_appended; [|done]. by eapply appended_grows. Qed.

Lemma currentInstructions_Return c x c' :
  currentInstructions c = Return (x, c') ->
  c' = c /\ exists sc, current c = Some sc /\ x = instructions sc.
Proof.
  unfold currentInstructions, currentScope. intros H. go_inv H. go_inv H.
  go_inv H0. apply elemAt_Some in H0 as [_ H0]. split; [done|]. by exists a.
Qed.

(** The code of a conditional up to some point, then a block and the strip
    of its trailing [OpPop]: the whole extends the code before the
    conditional.  [c2] is the compiler right after it emitted a jump. *)
Lemma block_in_conditional_appended c0 c2 c3 c4 d k op pos sc2 r :
  wf c0 ->
  appended c0 c2 d k ->
  current c2 = Some sc2 ->
  lastInstruction sc2 = {| Opcode := op; Position := pos |} ->
  op <> OpPop ->
  (forall sc0, current c0 = Some sc0 -> len (instructions sc0) <= pos) ->
  grows c2 c3 ->
  removeLastPopIfAny c3 = Return (r, c4) ->
  exists d' k', appended c0 c4 d' k'.
Proof.
  intros Hwf H02 Hsc2 Hlast Hop Hpos [Hwf3 (d23 & k23 & H23)] H.
  destruct (wf_current c0 Hwf) as [sc0 Hsc0].
  destruct (removeLastPopIfAny_appended c0 c2 c3 c4 d k d23 k23 sc0 sc2 r)
    as (d' & Happ); try done.
  - rewrite Hlast. simpl. by apply Hpos.
  - by rewrite Hlast.
  - eauto.
Qed.

Lemma touched_trans c0 c1 c2 k1 k2 :
  touched c0 c1 k1 -> touched c1 c2 k2 -> touched c0 c2 (k1 ++ k2).
Proof.
  intros (Hi1 & Hk1 & sc1 & Hs1) (Hi2 & Hk2 & sc2 & Hs2).
  split; [congruence|]. split; [by rewrite Hk2, Hk1, app_assoc|].
  exists sc2. by rewrite Hs2, Hs1, Hi1, list_insert_insert_eq.
Qed.

Lemma appended_touched c c' d k : appended c c' d k -> touched c c' k.
Proof.
  intros (Hi & Hk & sc & sc' & _ & Hs & _). split; [done|]. split; [done|]. by exists sc'.
Qed.

Lemma touched_withCurrent c sc : touched c (withCurrent c sc) [].
Proof. split; [done|]. split; [by rewrite app_nil_r|]. by exists sc. Qed.

Lemma touched_wf c c' k : wf c -> touched c c' k -> wf c'.
Proof.
  intros [H0 H1] (Hi & _ & sc & Hs). unfold wf, len in *.
  by rewrite Hi, Hs, length_insert.
Qed.

Lemma replaceLastPopWithReturn_Return c sc r c' :
  0 <= scopeIndex c -> current c = Some sc ->
  replaceLastPopWithReturn c = Return (r, c') ->
  exists ins,
    replaceBytes (instructions sc) (Position (lastInstruction sc)) (Make OpReturnValue [])
    = Return ins /\
    c' = withCurrent c {| instructions := ins;
                          lastInstruction := {| Opcode := OpReturnValue;
                                                Position := Position (lastInstruction sc) |};
                          previousInstruction := previousInstruction sc |}.
Proof.
  intros H0 Hc H. unfold replaceLastPopWithReturn in H.
  rewrite (bind_eq _ _ _ _ _ (currentScope_eq c sc H0 Hc)) in H.
  go_step H as Hr. apply (replaceInstruction_Return c sc) in Hr as (ins & Hr & ->); [|done..].
  exists ins. split; [done|].
  erewrite bind_eq in H; last first.
  { apply currentScope_eq; [done|]. by eapply current_withCurrent. }
  erewrite setCurrentScope_eq in H; [|done|by eapply current_withCurrent].
  injection H as _ <-. by rewrite withCurrent_withCurrent.
Qed.

Lemma implicitReturn_touched c r c' :
  wf c -> implicitReturn c = Return (r, c') -> touched c c' [].
Proof.
  intros Hwf H. destruct (wf_current c Hwf) as [sc Hsc]. unfold implicitReturn in H.
  rewrite (bind_eq _ _ _ _ _ (lastInstructionIs_eq c sc OpPop (proj1 Hwf) Hsc)) in H.
  go_step H as Hpop.
  assert (touched c x0 [] /\ wf x0) as [T1 Hwf1].
  { match type of Hpop with (if ?b then _ else _) _ = _ => destruct b end.
    - apply (replaceLastPopWithReturn_Return c sc) in Hpop as (ins & _ & ->);
        [|apply Hwf|done].
      split; [apply touched_withCurrent|by apply wf_withCurrent].
    - apply ret_Return in Hpop as [_ ->]. split; [|done].
      apply (appended_touched _ _ [] []). by apply appended_refl. }
  destruct (wf_current x0 Hwf1) as [sc1 Hsc1].
  rewrite (bind_eq _ _ _ _ _ (lastInstructionIs_eq x0 sc1 OpReturnValue (proj1 Hwf1) Hsc1)) in H.
  match type of H with (if ?b then _ else _) _ = _ => destruct b end.
  - by apply ret_Return in H as [_ ->].
  - go_step H as Hemit. apply ret_Return in H as [_ ->].
    apply emit_appended in Hemit as [A _]; [|done].
    apply (touched_trans _ _ _ [] [] T1). by eapply appended_touched.
Qed.

Lemma foreach_loadSymbol_appended ss :
  forall c r c', wf c -> foreach loadSymbol ss c = Return (r, c') ->
    appended c c' (concat (map loadCode ss)) [].
Proof.
  induction ss as [|s ss IH]; intros c r c' Hwf H; simpl in H.
  - apply ret_Return in H as [_ ->]. by apply appended_refl.
  - go_step H as Hload.
    apply loadSymbol_appended in Hload as (op & A & ->); [|done].
    apply IH in H; [|by eapply appended_wf].
    apply (appended_trans _ _ _ _ _ _ _ A H).
Qed.

(** What the compilation of a function literal does: in a new scope it
    defines the parameters, compiles the body and ends it with a return;
    back in the enclosing scope it loads every captured symbol, in the order
    of [FreeSymbols], adds the compiled function to the pool and emits
    [OpClosure] with the index of the function and the number of captured
    symbols. *)
Lemma Compile_FunctionLiteral ps b c c' :
  (forall c c', wf c -> Compile NodeString b c = Return (None, c') -> grows c c') ->
  wf c ->
  Compile NodeString (ast.FunctionLiteral ps b) c = Return (None, c') ->
  exists c2 c3 cin r r' s sc,
    (enterScope ;; foreach define ps) c = Return (r, c2) /\
    Compile NodeString b c2 = Return (None, c3) /\
    implicitReturn c3 = Return (r', cin) /\
    symbolTable cin = Some s /\
    current cin = Some sc /\
    appended c c'
      (concat (map loadCode (FreeSymbols s))
       ++ Make OpClosure [len (constants cin); len (FreeSymbols s)])
      (drop (length (constants c)) (constants cin)
       ++ [ir.Function_ (ir.ConstAddr (len (constants cin)))
             {| ir.Instructions := instructions sc;
                ir.NumLocals := numDefinitions s;
                ir.NumParameters := len ps |}]).
Proof.
  intros Hbody Hwf H. simpl in H.
  go_step H as Henter into c1. injection Henter as _ <-.
  set (c1 := {| constants := constants c;
                symbolTable := Some (NewEnclosedSymbolTable (symbolTable c));
                scopes := scopes c ++ [emptyScope];
                scopeIndex := scopeIndex c + 1 |}) in *.
  assert (wf c1) as Hwf1.
  { destruct Hwf as [Hw0 Hw1]. unfold wf, len in *. simpl.
    rewrite length_app. simpl. lia. }
  go_step H as Hdefs into c2.
  assert (grows c1 c2) as [Hwf2 (d2 & k2 & A12)].
  { eapply foreach_grows; [|exact Hwf1|exact Hdefs]. intros. by eapply define_grows. }
  go_step H as Hcompile into c3.
  destruct (Hbody _ _ Hwf2 Hcompile) as [Hwf3 (d3 & k3 & A23)].
  (* the two ifs *)
  assert (exists r' cin, implicitReturn c3 = Return (r', cin) /\
            (s <- theSymbolTable ;;
             let freeSymbols := FreeSymbols s in
             let numLocals := numDefinitions s in
             instructions <- leaveScope ;;
             foreach loadSymbol freeSymbols ;;
             c <- get ;;
             let compiledfunction :=
               ir.Function_ (ir.ConstAddr (len (constants c)))
                 {| ir.Instructions := instructions;
                    ir.NumLocals := numLocals;
                    ir.NumParameters := len ps |} in
             functionIndex <- addConstant compiledfunction ;;
             emit OpClosure [functionIndex; len freeSymbols] ;;
             ret (None : option Error)) cin = Return (None, c'))
    as (r' & cin & Himp & Hrest).
  { unfold implicitReturn.
    go_step H as H1. go_step H as H2. go_step H as H3. go_step H as H4.
    eexists _, _. split; [|exact H].
    rewrite (bind_eq _ _ _ _ _ H1). rewrite (bind_eq _ _ _ _ _ H2).
    rewrite (bind_eq _ _ _ _ _ H3).
    match type of H4 with (if ?b then _ else _) _ = _ => destruct b end.
    - apply ret_Return in H4 as [-> ->]. done.
    - go_step H4 as H5. apply ret_Return in H4 as [-> ->].
      by rewrite (bind_eq _ _ _ _ _ H5). }
  clear H.
  pose proof (implicitReturn_touched _ _ _ Hwf3 Himp) as T3.
  pose proof (touched_trans _ _ _ _ _
                (touched_trans _ _ _ _ _ (appended_touched _ _ _ _ A12)
                   (appended_touched _ _ _ _ A23)) T3) as T.
  pose proof (touched_wf _ _ _ Hwf1 T) as Hwfin.
  destruct (wf_current cin Hwfin) as [sc Hsc].
  go_step Hrest as Hst. unfold theSymbolTable in Hst.
  destruct (symbolTable cin) as [s|] eqn:Hs; [|discriminate]. injection Hst as <- <-.
  cbv zeta in Hrest. go_step Hrest as Hleave into cout.
  unfold leaveScope in Hleave.
  rewrite (bind_eq _ _ _ _ _ (currentInstructions_eq cin sc (proj1 Hwfin) Hsc)) in Hleave.
  destruct (decide _) as [|_]; [discriminate|]. rewrite Hs in Hleave.
  injection Hleave as <- <-.
  destruct T as (Ti & Tk & sc' & Ts). simpl in Ti, Tk, Ts.
  set (cout := {| constants := constants cin; symbolTable := Outer s;
                  scopes := take (length (scopes cin) - 1) (scopes cin);
                  scopeIndex := scopeIndex cin - 1 |}) in *.
  assert (appended c cout [] (k2 ++ k3 ++ [])) as Aout.
  { apply appended_same_scopes; simpl; try done.
    - lia.
    - rewrite Ts, length_insert, length_app. simpl.
      destruct Hwf as [Hw0 Hw1]. unfold len in Hw1.
      replace (Z.to_nat (scopeIndex c + 1)) with (length (scopes c)) by lia.
      replace (length (scopes c) + 1 - 1)%nat with (length (scopes c)) by lia.
      rewrite take_insert_ge by lia. by rewrite take_app_length.
    - by rewrite Tk, <- app_assoc. }
  pose proof (appended_wf _ _ _ _ Hwf Aout) as Hwfout.
  go_step Hrest as Hloads into c5.
  apply foreach_loadSymbol_appended in Hloads; [|done].
  pose proof (appended_wf _ _ _ _ Hwfout Hloads) as Hwf5.
  go_step Hrest as Hget. apply get_Return in Hget as [-> ->].
  cbv zeta in Hrest. go_step Hrest as Hadd into c6.
  apply addConstant_appended in Hadd as [Aadd ->]; [|done].
  pose proof (appended_wf _ _ _ _ Hwf5 Aadd) as Hwf6.
  go_step Hrest as Hemit into c7. apply ret_Return in Hrest as [_ ->].
  apply emit_appended in Hemit as [Aemit _]; [|done].
  pose proof (appended_trans _ _ _ _ _ _ _
                (appended_trans _ _ _ _ _ _ _
                   (appended_trans _ _ _ _ _ _ _ Aout Hloads) Aadd) Aemit) as A.
  assert (constants c5 = constants cin) as Hk5.
  { destruct Hloads as (_ & Hk & _). rewrite Hk. simpl. by rewrite app_nil_r. }
  rewrite Hk5 in A.
  match type of Hdefs with _ = Return (?u, _) => destruct u end.
  exists c2, c3, cin, tt, r', s, sc.
  split; [by rewrite (bind_eq _ _ _ _ _ (eq_refl : enterScope c = Return (tt, c1)))|].
  split; [done|]. split; [done|]. split; [done|]. split; [done|].
  replace (drop (length (constants c)) (constants cin)) with (k2 ++ k3 ++ []).
  - simpl in A. rewrite !app_nil_r in A. rewrite !app_nil_r. simpl.
    by rewrite <- !app_assoc in A |- *.
  - rewrite Tk. simpl. by rewrite drop_app_length, <- app_assoc.
Qed.

(** Extends [G : grows c0 c] by a step of the compiler from [c]. *)
Ltac advance :=
  match goal with
  | G : grows ?c0 ?c, H : emit _ _ ?c = Return (_, _) |- _ =>
      apply (emit_grows _ _ _ _ _ (proj1 G)) in H
  | G : grows ?c0 ?c, H : addConstant _ ?c = Return (_, _) |- _ =>
      apply (addConstant_grows _ _ _ _ (proj1 G)) in H
  | G : grows ?c0 ?c, H : define _ ?c = Return (_, _) |- _ =>
      apply (define_grows _ _ _ _ (proj1 G)) in H
  | G : grows ?c0 ?c, H : resolve _ ?c = Return (_, _) |- _ =>
      apply (resolve_grows _ _ _ _ (proj1 G)) in H
  | G : grows ?c0 ?c, H : loadSymbol _ ?c = Return (_, _) |- _ =>
      apply (loadSymbol_grows _ _ _ _ (proj1 G)) in H
  | G : grows ?c0 ?c, H : Compile _ ?n ?c = Return (None, _),
    IH : forall c c', wf c -> Compile _ ?n c = Return (None, c') -> grows c c' |- _ =>
      apply (IH _ _ (proj1 G)) in H
  | G : grows ?c0 ?c, H : each _ ?xs ?c = Return (None, _),
    IH : Forall _ ?xs |- _ =>
      apply (each_grows _ _ IH _ _ (proj1 G)) in H
  end;
  match goal with
  | G : grows ?c0 ?c, H : grows ?c ?c' |- _ =>
      apply (grows_trans _ _ _ G) in H; clear G
  end.

(** Every successful compilation of a node appends code to the current
    scope and constants to the pool, and touches no other scope. *)
Lemma Compile_grows node :
  forall c c', wf c -> Compile NodeString node c = Return (None, c') -> grows c c'.
Proof.
  induction node as
    [ss IHss|e IHe|name v IHv|v IHv|ss IHss|v|v|v|v|es IHes|ps IHps|op r IHr
    |l op r IHl IHr|cond t e IHc IHt IHe|l i IHl IHi|fn args IHfn IHargs|ps b IHb]
    using Node_nested_ind; intros c0 c' Hwf H; simpl in H;
    pose proof (grows_refl c0 Hwf) as G.
  - (* Program *) by advance.
  - (* ExpressionStatement *)
    repeat go_inv H. by repeat advance.
  - (* LetStatement *)
    repeat go_inv H. destruct (decide _); by repeat advance.
  - (* ReturnStatement *)
    repeat go_inv H. by repeat advance.
  - (* BlockStatement *) by advance.
  - (* Identifier *)
    go_inv H. destruct a; [|by apply ret_Return in H as [? _]].
    repeat go_inv H. by repeat advance.
  - (* IntegerLiteral *)
    repeat go_inv H. by repeat advance.
  - (* StringLiteral *)
    go_inv H. go_inv H0. repeat go_inv H. by repeat advance.
  - (* Boolean *)
    repeat go_inv H. destruct v; by repeat advance.
  - (* ArrayLiteral *)
    repeat go_inv H. by repeat advance.
  - (* HashLiteral *)
    repeat go_inv H.
    assert (grows c0 c) as G1.
    { eapply (each_grows snd); [|done|done].
      apply Forall_forall. intros [k m] Hin%sortSlice_elem.
      apply list_elem_of_fmap in Hin as ([k' v] & [= -> ->] & Hin).
      rewrite Forall_forall in IHps. destruct (IHps _ Hin) as [Hk Hv]. simpl in *.
      intros st1 st2 Hwf1 Hc. repeat go_inv Hc.
      clear G. pose proof (grows_refl st1 Hwf1) as G. by repeat advance. }
    clear G. by repeat advance.
  - (* PrefixExpression *)
    go_inv H.
    destruct (prefixOpcode op); [|by apply ret_Return in H as [? _]].
    repeat go_inv H. by repeat advance.
  - (* InfixExpression *)
    destruct (decide (op = "<")).
    + repeat go_inv H. by repeat advance.
    + go_inv H. go_inv H.
      destruct (infixOpcode op); [|by apply ret_Return in H as [? _]].
      repeat go_inv H. by repeat advance.
  - (* IfExpression *)
    clear G. destruct (wf_current c0 Hwf) as [sc0 Hsc0].
    go_step H as Hcond. apply (IHc _ _ Hwf) in Hcond as [Hwf1 (d01 & k01 & A01)].
    go_step H as Hjnt.
    apply emit_appended in Hjnt as (A12 & sc1 & Hsc1 & Hpos1 & Hsc2); [|done].
    pose proof (appended_trans _ _ _ _ _ _ _ A01 A12) as A02.
    pose proof (appended_wf _ _ _ _ Hwf A02) as Hwf2.
    assert (len (instructions sc0) <= len (instructions sc1)) as Hle1.
    { destruct (appended_current _ _ _ _ A01) as (? & ? & ? & ? & Hd & _).
      simplify_eq. rewrite Hd. unfold len. rewrite length_app. lia. }
    go_step H as Hthen. apply (IHt _ _ Hwf2) in Hthen.
    go_step H as Hstrip.
    eapply (block_in_conditional_appended c0 _ _ _ _ _ OpJumpNotTruthy _ _ _ Hwf A02 Hsc2)
      in Hstrip as (d03 & k03 & A03); try done; [|intros ? ?; simplify_eq; lia].
    pose proof (appended_wf _ _ _ _ Hwf A03) as Hwf3.
    go_step H as Hjmp.
    apply emit_appended in Hjmp as (A34 & sc3 & Hsc3 & Hpos3 & Hsc4); [|done].
    pose proof (appended_trans _ _ _ _ _ _ _ A03 A34) as A04.
    assert (len (instructions sc0) <= len (instructions sc3)) as Hle3.
    { destruct (appended_current _ _ _ _ A03) as (? & ? & ? & ? & Hd & _).
      simplify_eq. rewrite Hd. unfold len. rewrite length_app. lia. }
    go_step H as Hcur. apply currentInstructions_Return in Hcur as (-> & _).
    go_step H as Hpatch.
    apply (changeOperand_appended c0 _ _ _ _ _ _ _ Hwf A04) in Hpatch
      as (d05 & _ & A05 & Hcur5); [|intros ? ?; simplify_eq; lia].
    destruct (Hcur5 _ Hsc4) as (ins5 & Hsc5). simpl in Hsc5.
    pose proof (appended_wf _ _ _ _ Hwf A05) as Hwf5.
    go_step H as Halt.
    match type of Halt with _ _ = Return (_, ?c) => rename c into c6 end.
    assert (exists d k, appended c0 c6 d k) as (d06 & k06 & A06).
    { destruct e as [alt|]; simpl in IHe; cbv iota in Halt.
      - go_step Halt as Helse. apply (IHe _ _ Hwf5) in Helse.
        go_step Halt as Hstrip. apply ret_Return in Halt as [_ ->].
        eapply (block_in_conditional_appended c0 _ _ _ _ _ OpJump _ _ _ Hwf A05 Hsc5)
          in Hstrip as (d06 & k06 & A06); try done; [eauto|].
        intros ? ?; simplify_eq; lia.
      - go_step Halt as Hnull. apply ret_Return in Halt as [_ ->].
        apply emit_appended in Hnull as (A56 & _); [|done].
        eexists _, _. exact (appended_trans _ _ _ _ _ _ _ A05 A56). }
    go_step H as Hcur. apply currentInstructions_Return in Hcur as (-> & _).
    go_step H as Hpatch. apply ret_Return in H as [_ ->].
    apply (changeOperand_appended c0 _ _ _ _ _ _ _ Hwf A06) in Hpatch
      as (d07 & _ & A07 & _); [|intros ? ?; simplify_eq; lia].
    by eapply appended_grows.
  - (* IndexExpression *)
    repeat go_inv H. by repeat advance.
  - (* CallExpression *)
    repeat go_inv H. by repeat advance.
  - (* FunctionLiteral *)
    apply (Compile_FunctionLiteral _ _ _ _ IHb Hwf) in H
      as (? & ? & ? & ? & ? & ? & ? & _ & _ & _ & _ & _ & A).
    by eapply appended_grows.
Qed.

End CompilerFacts.


(** ** The compiler: comparisons and function literals *)

Section CompilerClaims.

Import opcode compiler.

Variable NodeString : ast.Node -> string.
Variable HashKey : ir.Object -> ir.HashKey.

Lemma Compile_FunctionLiteral_parts ps b c c' :
  wf c ->
  Compile NodeString (ast.FunctionLiteral ps b) c = Return (None, c') ->
  exists c2 c3 cin r r' s sc,
    (enterScope ;; foreach define ps) c = Return (r, c2) /\
    Compile NodeString b c2 = Return (None, c3) /\
    implicitReturn c3 = Return (r', cin) /\
    symbolTable cin = Some s /\
    current cin = Some sc /\
    appended c c'
      (concat (map loadCode (FreeSymbols s))
       ++ Make OpClosure [len (constants cin); len (FreeSymbols s)])
      (drop (length (constants c)) (constants cin)
       ++ [ir.Function_ (ir.ConstAddr (len (constants cin)))
             {| ir.Instructions := instructions sc;
                ir.NumLocals := numDefinitions s;
                ir.NumParameters := len ps |}]).
Proof. apply Compile_FunctionLiteral. apply Compile_grows. Qed.

(** C4. [a < b] compiles as [b > a]: the code of [b], the code of [a],
    then [OpGreaterThan]; and with the value of [b] below the value of [a]
    on the stack, [OpGreaterThan] pushes whether [a < b]. *)
Theorem less_than_is_greater_than_swapped (a b : ast.Node) (c : Compiler) :
  Compile NodeString (ast.InfixExpression a "<" b) c
  = Compile NodeString (ast.InfixExpression b ">" a) c
  /\ (forall c', wf c ->
       Compile NodeString (ast.InfixExpression a "<" b) c = Return (None, c') ->
       exists c1 c2 code_b code_a consts_b consts_a sc',
         Compile NodeString b c = Return (None, c1) /\
         appended c c1 code_b consts_b /\
         Compile NodeString a c1 = Return (None, c2) /\
         appended c1 c2 code_a consts_a /\
         appended c c' (code_b ++ code_a ++ Make OpGreaterThan [])
           (consts_b ++ consts_a) /\
         current c' = Some sc' /\
         Opcode (lastInstruction sc') = OpGreaterThan)
  /\ (forall vm f x y,
       fetches vm f OpGreaterThan ->
       2 <= vm.sp vm <= vm.StackSize + 1 ->
       vm.stack vm !! Z.to_nat (vm.sp vm - 1) = Some (ir.Integer x) ->
       vm.stack vm !! Z.to_nat (vm.sp vm - 1 - 1) = Some (ir.Integer y) ->
       vm.step HashKey vm
       = Return (None, afterBinary vm f (ir.Boolean (bool_decide (x < y))))).
Proof.
  split; [done|]. split; [|apply greater_than_of_swapped_operands].
  intros c' Hwf H. simpl in H.
  go_step H as Hb into c1. go_step H as Ha into c2. go_step H as He into c3.
  apply ret_Return in H as [_ ->].
  destruct (Compile_grows NodeString b _ _ Hwf Hb) as [Hwf1 (code_b & consts_b & Ab)].
  destruct (Compile_grows NodeString a _ _ Hwf1 Ha) as [Hwf2 (code_a & consts_a & Aa)].
  apply emit_appended in He as (Ae & sc2 & _ & _ & Hsc'); [|done].
  exists c1, c2, code_b, code_a, consts_b, consts_a. eexists.
  split; [done|]. split; [done|]. split; [done|]. split; [done|].
  split; [|split; [exact Hsc'|done]].
  pose proof (appended_trans _ _ _ _ _ _ _
                (appended_trans _ _ _ _ _ _ _ Ab Aa) Ae) as A.
  by rewrite <- app_assoc, app_nil_r in A.
Qed.

Lemma each_snoc {S A} (f : A -> M S (option Error)) xs x s s' :
  each f (xs ++ [x]) s = Return (None, s') ->
  exists s1, each f xs s = Return (None, s1) /\ f x s1 = Return (None, s').
Proof.
  revert s. induction xs as [|y xs IH]; intros s H; simpl in H.
  - go_step H as Hx. apply ret_Return in H as [_ ->]. by exists s.
  - go_step H as Hy. apply IH in H as (s1 & H1 & H2). exists s1. split; [|done].
    simpl. by rewrite (bind_eq _ _ _ _ _ Hy).
Qed.

Lemma foreach_define_eq ps : forall c s,
  symbolTable c = Some s ->
  exists s', foreach define ps c = Return (tt, withSymbolTable c s') /\
    Outer s' = Outer s /\ FreeSymbols s' = FreeSymbols s /\
    numDefinitions s' = numDefinitions s + len ps.
Proof.
  induction ps as [|p ps IH]; intros c s Hs; simpl.
  - exists s. unfold ret, withSymbolTable. rewrite <- Hs. destruct c. simpl.
    repeat split; try done. unfold len. simpl. lia.
  - unfold bind at 1. unfold define at 1. rewrite Hs. simpl.
    destruct (IH {| constants := constants c;
                    symbolTable := Some {| Outer := Outer s;
                                           store := <[p := {| Name := p;
                                                             Scope := match Outer s with
                                                                      | None => GlobalScope
                                                                      | Some _ => LocalScope
                                                                      end;
                                                             Index := numDefinitions s |}]>
                                                      (store s);
                                           numDefinitions := numDefinitions s + 1;
                                           FreeSymbols := FreeSymbols s |};
                    scopes := scopes c; scopeIndex := scopeIndex c |} _ eq_refl)
      as (s' & -> & Ho & Hf & Hn).
    exists s'. split; [done|]. simpl in *. repeat split; try done.
    rewrite Hn. unfold len. simpl. lia.
Qed.

(** C8. A function literal whose body ends in an expression statement
    compiles to a function whose code is the code of the body with its
    trailing [OpPop] overwritten by [OpReturnValue]; a function literal with
    an empty body compiles to the single instruction [OpReturn]. *)
Theorem implicit_return (ps : list string) (stmts : list ast.Node) (e : ast.Node)
    (c : Compiler) :
  wf c ->
  (forall c',
     Compile NodeString
       (ast.FunctionLiteral ps (ast.BlockStatement (stmts ++ [ast.ExpressionStatement e]))) c
     = Return (None, c') ->
     exists r c2 c3 sc3 body p numLocals,
       (enterScope ;; foreach define ps) c = Return (r, c2) /\
       Compile NodeString (ast.BlockStatement (stmts ++ [ast.ExpressionStatement e])) c2
       = Return (None, c3) /\
       current c3 = Some sc3 /\
       instructions sc3 = body ++ Make OpPop [] /\
       lastInstruction sc3 = {| Opcode := OpPop; Position := len body |} /\
       last (constants c')
       = Some (ir.Function_ p {| ir.Instructions := body ++ Make OpReturnValue [];
                                ir.NumLocals := numLocals;
                                ir.NumParameters := len ps |}))
  /\ (exists c' p,
       Compile NodeString (ast.FunctionLiteral ps (ast.BlockStatement [])) c
       = Return (None, c') /\
       last (constants c')
       = Some (ir.Function_ p {| ir.Instructions := Make OpReturn [];
                                ir.NumLocals := len ps;
                                ir.NumParameters := len ps |})).
Proof.
  intros Hwf. split.
  - intros c' H.
    apply Compile_FunctionLiteral_parts in H
      as (c2 & c3 & cin & r & r' & s & sc & Hc2 & Hc3 & Himp & Hs & Hsc & A); [|done].
    assert (wf c2) as Hwf2.
    { go_step Hc2 as Henter into c1. injection Henter as _ <-.
      eapply (foreach_grows define); [|..|exact Hc2].
      - intros. by eapply define_grows.
      - destruct Hwf as [Hw0 Hw1]. unfold wf, len in *. simpl.
        rewrite length_app. simpl. lia. }
    pose proof Hc3 as Hbody. simpl in Hbody.
    apply each_snoc in Hbody as (cs & Hstmts & Hlast).
    assert (wf cs) as Hwfs.
    { eapply each_grows; [|exact Hwf2|exact Hstmts].
      apply Forall_forall. intros ? _ ? ?. apply Compile_grows. }
    simpl in Hlast. go_step Hlast as He into ce. go_step Hlast as Hpop into c3'.
    apply ret_Return in Hlast as [_ Heq]. subst c3'.
    pose proof (proj1 (Compile_grows NodeString e _ _ Hwfs He)) as Hwfe.
    apply emit_appended in Hpop as (_ & sce & Hsce & -> & Hsc3); [|done].
    set (body := instructions sce) in *.
    assert (0 <= scopeIndex c3) as H0.
    { eapply Compile_grows; [exact Hwf2|exact Hc3]. }
    (* the trailing OpPop becomes OpReturnValue *)
    assert (instructions sc = body ++ Make OpReturnValue []) as Hins.
    { unfold implicitReturn in Himp.
      rewrite (bind_eq _ _ _ _ _ (lastInstructionIs_eq c3 _ OpPop H0 Hsc3)) in Himp.
      simpl in Himp. destruct (decide _) as [Hz|_].
      { unfold len in Hz. rewrite length_app in Hz. simpl in Hz. lia. }
      try rewrite bool_decide_eq_true_2 in Himp by done.
      apply bind_Return in Himp as (u & cr & Hrep & Himp).
      apply (replaceLastPopWithReturn_Return c3 _ _ _ H0 Hsc3) in Hrep
        as (ins & Hins & Hcr).
      subst cr.
      simpl in Hins. unfold assign in Hins. destruct (decide _) as [_|Hn]; last first.
      { exfalso. apply Hn. rewrite length_app. simpl. unfold len. lia. }
      injection Hins as <-.
      erewrite bind_eq in Himp; last first.
      { apply lastInstructionIs_eq; [done|]. by eapply current_withCurrent. }
      simpl in Himp. destruct (decide _) as [Hz|_].
      { unfold len in Hz. rewrite length_insert, length_app in Hz. simpl in Hz. lia. }
      try rewrite bool_decide_eq_true_2 in Himp by done.
      apply ret_Return in Himp as [_ ->].
      erewrite current_withCurrent in Hsc by done. injection Hsc as <-. simpl.
      unfold len. rewrite Nat2Z.id.
      rewrite insert_app_r_alt by lia. by rewrite Nat.sub_diag. }
    exists r, c2, c3. eexists. exists body. do 2 eexists.
    split; [done|]. split; [done|]. split; [exact Hsc3|]. split; [done|]. split; [done|].
    destruct A as (_ & -> & _). rewrite app_assoc, last_snoc. by rewrite Hins.
  - destruct Hwf as [Hw0 Hw1].
    set (c1 := {| constants := constants c;
                  symbolTable := Some (NewEnclosedSymbolTable (symbolTable c));
                  scopes := scopes c ++ [emptyScope];
                  scopeIndex := scopeIndex c + 1 |}).
    destruct (foreach_define_eq ps c1 _ eq_refl) as (s & Hdefs & _ & Hfree & Hnum).
    simpl in Hfree, Hnum.
    set (c2 := withSymbolTable c1 s) in *.
    assert (current c2 = Some emptyScope) as Hsc2.
    { unfold current. simpl. unfold len in Hw1.
      replace (Z.to_nat (scopeIndex c + 1)) with (length (scopes c) + 0)%nat by lia.
      by rewrite lookup_app_r, Nat.add_comm, Nat.add_sub by lia. }
    assert (0 <= scopeIndex c2) as H02 by (simpl; lia).
    destruct (lookup_lt_is_Some_2 (scopes c) (Z.to_nat (scopeIndex c))) as [sc0 Hsc0].
    { unfold len in Hw1. lia. }
    eexists _, _. split.
    + simpl. unfold bind at 1. unfold enterScope at 1. fold c1.
      rewrite (bind_eq _ _ _ _ _ Hdefs). fold c2.
      unfold bind at 1. unfold ret at 1.
      rewrite (bind_eq _ _ _ _ _ (lastInstructionIs_eq c2 _ OpPop H02 Hsc2)).
      simpl. unfold bind at 1. unfold ret at 1.
      rewrite (bind_eq _ _ _ _ _ (lastInstructionIs_eq c2 _ OpReturnValue H02 Hsc2)).
      simpl.
      erewrite bind_eq; last first.
      { erewrite bind_eq; [done|]. by apply emit_eq. }
      unfold bind at 1. unfold theSymbolTable at 1. simpl.
      erewrite bind_eq; last first.
      { unfold leaveScope. erewrite bind_eq; last first.
        { apply currentInstructions_eq; [done|]. by eapply current_withCurrent. }
        simpl. destruct (decide _) as [Hz|_]; [|done].
        unfold len in Hz. rewrite length_insert, length_app in Hz. simpl in Hz. lia. }
      rewrite Hfree. simpl. unfold bind at 1. unfold ret at 1.
      unfold bind at 1. unfold get at 1. unfold bind at 1. unfold addConstant at 1.
      erewrite bind_eq; last first.
      { apply emit_eq; simpl; [lia|]. unfold current. simpl.
        rewrite length_insert, length_app. simpl.
        rewrite take_insert_ge by (unfold len in Hw1; lia).
        replace (length (scopes c) + 1 - 1)%nat with (length (scopes c)) by lia.
        rewrite take_app_length.
        replace (scopeIndex c + 1 - 1) with (scopeIndex c) by lia. exact Hsc0. }
      done.
    + simpl. rewrite last_snoc. by rewrite Hnum.
Qed.

End CompilerClaims.


(** ** The symbol table and closures *)

Section Closures.

Import opcode compiler.

Variable NodeString : ast.Node -> string.
Variable HashKey : ir.Object -> ir.HashKey.

(** Induction on a table, with the table around it. *)
Fixpoint SymbolTable_nested_ind (P : SymbolTable -> Prop)
    (step : forall s, from_option P Logic.True (Outer s) -> P s)
    (s : SymbolTable) : P s :=
  match s with
  | mkSymbolTable outer st n free =>
      step (mkSymbolTable outer st n free)
        match outer with
        | Some o => SymbolTable_nested_ind P step o
        | None => I
        end
  end.

Lemma Resolve_found s name symbol :
  store s !! name = Some symbol -> Resolve name s = (Some symbol, s).
Proof. intros H. destruct s. simpl in *. by rewrite H. Qed.

(** The step of [Resolve] in a scope that does not have the name: the
    enclosing scope is asked, and a symbol of an enclosing function becomes
    the next free symbol of the scope. *)
Lemma Resolve_enclosed s outer name original outer' :
  store s !! name = None ->
  Outer s = Some outer ->
  Resolve name outer = (Some original, outer') ->
  Scope original <> GlobalScope ->
  Resolve name s
  = (Some {| Name := Name original; Scope := FreeScope; Index := len (FreeSymbols s) |},
     {| Outer := Some outer';
        store := <[Name original := {| Name := Name original; Scope := FreeScope;
                                       Index := len (FreeSymbols s) |}]> (store s);
        numDefinitions := numDefinitions s;
        FreeSymbols := FreeSymbols s ++ [original] |}).
Proof.
  intros Hs Ho Hr Hg. destruct s as [o st n free]. simpl in *. subst o.
  rewrite Hs, Hr. by destruct (Scope original).
Qed.

Lemma Resolve_global s outer name original outer' :
  store s !! name = None ->
  Outer s = Some outer ->
  Resolve name outer = (Some original, outer') ->
  Scope original = GlobalScope ->
  Resolve name s
  = (Some original,
     {| Outer := Some outer'; store := store s;
        numDefinitions := numDefinitions s; FreeSymbols := FreeSymbols s |}).
Proof.
  intros Hs Ho Hr Hg. destruct s as [o st n free]. simpl in *. subst o.
  by rewrite Hs, Hr, Hg.
Qed.

(** A resolved symbol has the name that was asked for, and the tables stay
    consistent. *)
Lemma Resolve_namesOk name s :
  namesOk s ->
  forall r s', Resolve name s = (r, s') ->
    namesOk s' /\ forall symbol, r = Some symbol -> Name symbol = name.
Proof.
  induction s as [s IH] using SymbolTable_nested_ind.
  intros Hok r s' H. destruct s as [o st n free]. simpl in *.
  destruct Hok as [Hst Hout].
  destruct (st !! name) as [obj|] eqn:Hl.
  { injection H as <- <-. split; [done|]. intros ? [= <-]. by apply Hst. }
  destruct o as [outer|]; simpl in *.
  2: { injection H as <- <-. done. }
  destruct (Resolve name outer) as [r0 outer'] eqn:Hr.
  destruct (IH Hout _ _ eq_refl) as [Hok' Hname].
  destruct r0 as [obj|].
  2: { injection H as <- <-. done. }
  pose proof (Hname _ eq_refl) as Hn.
  destruct (Scope obj) eqn:Hsc.
  - injection H as <- <-. split; [done|]. by intros ? [= <-].
  - injection H as <- <-. simpl. split.
    + split; [|done]. intros k sym [[<- <-]|[_ ?]]%lookup_insert_Some; [done|by apply Hst].
    + by intros ? [= <-].
  - injection H as <- <-. simpl. split.
    + split; [|done]. intros k sym [[<- <-]|[_ ?]]%lookup_insert_Some; [done|by apply Hst].
    + by intros ? [= <-].
Qed.

(** Two symbols of enclosing functions, first used in the order [x], [y] in
    a scope that has captured nothing yet, become the free symbols 0 and 1
    of the scope; the scope records the original symbols in that order, and
    later uses find the same free symbols. *)
Lemma free_symbols_in_first_use_order s outer x y sx sy outer1 outer2 :
  namesOk outer ->
  Outer s = Some outer -> FreeSymbols s = [] ->
  store s !! x = None -> store s !! y = None -> x <> y ->
  Resolve x outer = (Some sx, outer1) -> Scope sx <> GlobalScope ->
  Resolve y outer1 = (Some sy, outer2) -> Scope sy <> GlobalScope ->
  exists s1 s2,
    Resolve x s = (Some {| Name := x; Scope := FreeScope; Index := 0 |}, s1) /\
    Resolve y s1 = (Some {| Name := y; Scope := FreeScope; Index := 1 |}, s2) /\
    FreeSymbols s2 = [sx; sy] /\
    Resolve x s2 = (Some {| Name := x; Scope := FreeScope; Index := 0 |}, s2) /\
    Resolve y s2 = (Some {| Name := y; Scope := FreeScope; Index := 1 |}, s2).
Proof.
  intros Hok Ho Hfree Hx Hy Hxy Hrx Hgx Hry Hgy.
  destruct (Resolve_namesOk x outer Hok _ _ Hrx) as [Hok1 Hnx].
  destruct (Resolve_namesOk y outer1 Hok1 _ _ Hry) as [_ Hny].
  pose proof (Hnx _ eq_refl) as Hnamex. pose proof (Hny _ eq_refl) as Hnamey.
  pose proof (Resolve_enclosed s outer x sx outer1 Hx Ho Hrx Hgx) as R1.
  rewrite Hfree, Hnamex in R1. simpl in R1.
  eexists _, _. split; [exact R1|].
  match type of R1 with _ = (_, ?t) => set (s1 := t) in * end.
  assert (store s1 !! y = None) as Hy1.
  { simpl. by rewrite lookup_insert_ne. }
  pose proof (Resolve_enclosed s1 outer1 y sy outer2 Hy1 eq_refl Hry Hgy) as R2.
  rewrite Hnamey in R2. simpl in R2.
  split; [exact R2|]. split; [done|].
  split; apply Resolve_found; simpl.
  - rewrite lookup_insert_ne by done. by rewrite lookup_insert_eq.
  - by rewrite lookup_insert_eq.
Qed.

(** An identifier compiles to the load of the symbol it resolves to. *)
Lemma Compile_Identifier name c c' :
  wf c ->
  Compile NodeString (ast.Identifier name) c = Return (None, c') ->
  exists symbol c1,
    resolve name c = Return (Some symbol, c1) /\
    appended c1 c' (loadCode symbol) [].
Proof.
  intros Hwf H. simpl in H. go_step H as Hr into c1.
  match type of Hr with _ = Return (?r, _) => destruct r as [symbol|] end;
    [|by apply ret_Return in H as [? _]].
  go_step H as Hload into c2. apply ret_Return in H as [_ <-].
  apply loadSymbol_appended in Hload as (op & A & ->).
  - by exists symbol, c1.
  - by eapply resolve_grows.
Qed.

End Closures.


(** ** Runs: the element last popped *)

Section RunFacts.

Import opcode.

Variable HashKey : ir.Object -> ir.HashKey.

Lemma running_state vm b vm1 : vm.running vm = Return (b, vm1) -> vm1 = vm.
Proof.
  unfold vm.running, vm.currentFrame. intros H. go_step H as Hf.
  apply ret_Return in H as [_ ->].
  destruct (elemAt _ _); [|discriminate]. by apply lift_Return in Hf as [_ ->].
Qed.

Lemma runs_trans vm0 vm1 vm2 :
  runs HashKey vm0 vm1 -> runs HashKey vm1 vm2 -> runs HashKey vm0 vm2.
Proof. induction 1; [done|]. intros. eapply runs_step; eauto. Qed.

(** A run of [Run] that returns [nil] is a sequence of iterations that ends
    where the loop condition is false. *)
Lemma Run_runs fuel : forall vm vm',
  vm.Run HashKey fuel vm = Some (Return (None, vm')) ->
  runs HashKey vm vm' /\ vm.running vm' = Return (false, vm').
Proof.
  induction fuel as [|fuel IH]; intros vm vm' H; simpl in H; [discriminate|].
  destruct (vm.running vm) as [[b vm1]|] eqn:Hr; [|discriminate].
  pose proof (running_state _ _ _ Hr) as ->.
  destruct b.
  - destruct (vm.step HashKey vm) as [[[err|] vm1]|] eqn:Hs; try discriminate.
    apply IH in H as [H1 H2]. split; [|done]. by eapply runs_step.
  - injection H as <-. split; [constructor|done].
Qed.

(** The last iteration of a run. *)
Lemma runs_last vm vm' :
  runs HashKey vm vm' ->
  vm' = vm \/
  exists vmp, runs HashKey vm vmp /\
    vm.running vmp = Return (true, vmp) /\
    vm.step HashKey vmp = Return (None, vm').
Proof.
  induction 1 as [|vm vm1 vm2 Hr Hs _ IH]; [by left|]. right.
  destruct IH as [->|(vmp & H1 & H2 & H3)].
  - exists vm. split; [constructor|done].
  - exists vmp. split; [|done]. by eapply runs_step.
Qed.

(** [OpPop] leaves the top of the stack as the element last popped. *)
Lemma pop_leaves_last_popped vm f vm' :
  fetches vm f OpPop ->
  vm.step HashKey vm = Return (None, vm') ->
  exists v, vm.StackTop vm = Return (Some v) /\
    vm' = afterPop vm f /\
    vm.LastPoppedStackElem vm' = Return v.
Proof.
  intros Hfetch H. rewrite (step_fetch HashKey vm f OpPop) in H by done.
  unfold vm.execute in H. go_step H as Hpop. apply ret_Return in H as [_ ->].
  unfold vm.pop in Hpop. simpl in Hpop.
  destruct (elemAt (vm.stack vm) (vm.sp vm - 1)) as [v|] eqn:Hv; [|discriminate].
  injection Hpop as _ <-. exists v.
  pose proof (elemAt_range _ _ _ Hv) as Hrange.
  split; [|split; [done|]].
  - unfold vm.StackTop. destruct (decide _) as [|_]; [lia|]. by rewrite Hv.
  - unfold vm.LastPoppedStackElem. simpl. done.
Qed.

(** [OpSetGlobal] stores the top of the stack in the global and leaves it
    as the element last popped. *)
Lemma set_global_leaves_last_popped vm f vm' :
  fetches vm f OpSetGlobal ->
  vm.step HashKey vm = Return (None, vm') ->
  exists v globalIndex,
    vm.StackTop vm = Return (Some v) /\
    ReadUint16 (vm.Instructions f) (vm.ip f + 1 + 1) = Return globalIndex /\
    vm' = afterSetGlobal vm f globalIndex v /\
    vm.LastPoppedStackElem vm' = Return v /\
    vm.globals vm' !! Z.to_nat globalIndex = Some v.
Proof.
  intros Hfetch H. rewrite (step_fetch HashKey vm f OpSetGlobal) in H by done.
  destruct Hfetch as (Hi & Hf & _).
  unfold vm.execute in H. go_step H as Hread. apply lift_Return in Hread as [Hread ->].
  rewrite (bind_eq _ _ _ _ _ (advanceIp_after_fetch vm f 2 Hi Hf)) in H.
  go_step H as Hpop. unfold vm.pop in Hpop. simpl in Hpop.
  destruct (elemAt (vm.stack vm) (vm.sp vm - 1)) as [v|] eqn:Hv; [|discriminate].
  injection Hpop as <- <-.
  go_step H as Hget. apply get_Return in Hget as [-> ->].
  go_step H as Hassign. apply lift_Return in Hassign as [Hassign ->].
  apply assign_Some in Hassign as [Hrange ->].
  go_step H as Hput. injection Hput as _ <-. apply ret_Return in H as [_ ->].
  pose proof (elemAt_range _ _ _ Hv) as Hrange'.
  exists v. eexists. split; [|split; [exact Hread|split; [done|split]]].
  - unfold vm.StackTop. destruct (decide _) as [|_]; [lia|]. by rewrite Hv.
  - unfold vm.LastPoppedStackElem. simpl. done.
  - simpl. apply list_lookup_insert_eq. simpl in Hrange. unfold len in Hrange. lia.
Qed.

(** C1, as amended. After a run to completion without error,
    [LastPoppedStackElem] is the value that the last instruction popped:
    when that instruction is the [OpPop] of an expression statement, the
    value of the expression, on top of the stack before it; when it is the
    [OpSetGlobal] of a let statement, the value that the statement bound,
    which is then the value of the global. *)
Theorem last_popped_is_value_of_last_statement (fuel : nat) (vm vm' : vm.VM) :
  vm.Run HashKey fuel vm = Some (Return (None, vm')) ->
  vm.running vm = Return (true, vm) ->
  exists vmp,
    runs HashKey vm vmp /\
    vm.step HashKey vmp = Return (None, vm') /\
    vm.running vm' = Return (false, vm') /\
    (forall f, fetches vmp f OpPop ->
       exists v, vm.StackTop vmp = Return (Some v) /\
         vm.LastPoppedStackElem vm' = Return v) /\
    (forall f, fetches vmp f OpSetGlobal ->
       exists v globalIndex,
         vm.StackTop vmp = Return (Some v) /\
         ReadUint16 (vm.Instructions f) (vm.ip f + 1 + 1) = Return globalIndex /\
         vm.globals vm' !! Z.to_nat globalIndex = Some v /\
         vm.LastPoppedStackElem vm' = Return v).
Proof.
  intros HRun Hfirst. apply Run_runs in HRun as [Hruns Hend].
  apply runs_last in Hruns as [->|(vmp & Hruns & _ & Hstep)].
  { rewrite Hfirst in Hend. discriminate. }
  exists vmp. split; [done|]. split; [done|]. split; [done|]. split.
  - intros f Hfetch.
    destruct (pop_leaves_last_popped _ _ _ Hfetch Hstep) as (v & ? & _ & ?). eauto.
  - intros f Hfetch.
    destruct (set_global_leaves_last_popped _ _ _ Hfetch Hstep)
      as (v & i & ? & ? & _ & ? & ?).
    exists v, i. eauto.
Qed.

End RunFacts.


(** ** The claims on concrete inputs *)

Import opcode.

(** C1 as stated fails: after a program whose last statement is a let
    statement, [LastPoppedStackElem] is the value that the statement bound,
    here 5, not [Null]. *)
Lemma last_popped_after_let_is_not_null :
  exists v,
    runVmTest literalText contentHashKey 10
      (ast.Program [ast.LetStatement "x" (ast.IntegerLiteral 5)])
    = Some (Return (None, Return v)) /\
    v <> vm.Null.
Proof. exists (ir.Integer 5). split; [by vm_compute|done]. Qed.

Lemma last_popped_witness :
  exists vm',
    vm.Run contentHashKey 10
      (machine [ir.Integer 5] (Make OpConstant [0] ++ Make OpSetGlobal [0])
         [ir.Nil; ir.Nil] 0)
    = Some (Return (None, vm')) /\
    exists vmp,
      runs contentHashKey
        (machine [ir.Integer 5] (Make OpConstant [0] ++ Make OpSetGlobal [0])
           [ir.Nil; ir.Nil] 0) vmp /\
      vm.step contentHashKey vmp = Return (None, vm') /\
      vm.running vm' = Return (false, vm') /\
      (forall f, fetches vmp f OpPop ->
         exists v, vm.StackTop vmp = Return (Some v) /\
           vm.LastPoppedStackElem vm' = Return v) /\
      (forall f, fetches vmp f OpSetGlobal ->
         exists v globalIndex,
           vm.StackTop vmp = Return (Some v) /\
           ReadUint16 (vm.Instructions f) (vm.ip f + 1 + 1) = Return globalIndex /\
           vm.globals vm' !! Z.to_nat globalIndex = Some v /\
           vm.LastPoppedStackElem vm' = Return v).
Proof.
  eexists. split; [vm_compute; reflexivity|].
  apply (last_popped_is_value_of_last_statement contentHashKey 10);
    vm_compute; reflexivity.
Defined.

(** C2 fails on the code: a function that calls itself without end makes
    the machine panic with an index out of range, in [pushFrame], when the
    2048 frames are in use; no error value is returned. *)
Theorem unbounded_recursion_panics :
  runVmTest literalText contentHashKey 5000
    (ast.Program
       [ast.LetStatement "f"
          (ast.FunctionLiteral []
             (ast.BlockStatement
                [ast.ExpressionStatement (ast.CallExpression (ast.Identifier "f") [])]));
        ast.ExpressionStatement (ast.CallExpression (ast.Identifier "f") [])])
  = Some (Panics IndexOutOfRange).
Proof. by vm_compute. Qed.

(** C10 fails on the code: two keys with the same text are not ordered by
    the sort, so the two orders in which the map of the hash literal
    [{1: true, 1: 5}] can yield its pairs compile to different
    instructions. *)
Theorem hash_literal_with_equal_keys_depends_on_map_order :
  compiler.Instructions
    <$> bytecodeOf literalText
          (ast.Program
             [ast.ExpressionStatement
                (ast.HashLiteral [(ast.IntegerLiteral 1, ast.Boolean true);
                                  (ast.IntegerLiteral 1, ast.IntegerLiteral 5)])])
  = Some (Make OpConstant [0] ++ Make OpTrue [] ++ Make OpConstant [1]
          ++ Make OpConstant [2] ++ Make OpHash [4] ++ Make OpPop [])
  /\
  compiler.Instructions
    <$> bytecodeOf literalText
          (ast.Program
             [ast.ExpressionStatement
                (ast.HashLiteral [(ast.IntegerLiteral 1, ast.IntegerLiteral 5);
                                  (ast.IntegerLiteral 1, ast.Boolean true)])])
  = Some (Make OpConstant [0] ++ Make OpConstant [1] ++ Make OpConstant [2]
          ++ Make OpTrue [] ++ Make OpHash [4] ++ Make OpPop []).
Proof. split; by vm_compute. Qed.


(** Discharges the side conditions of an instance on a concrete machine. *)
Ltac concrete :=
  repeat match goal with
         | |- fetches _ _ _ => unfold fetches
         | |- _ /\ _ => split
         end;
  try (vm_compute; reflexivity);
  try (vm_compute; congruence);
  try (simpl; lia).

Lemma division_by_zero_witness :
  vm.step contentHashKey
    (machine [] (Make OpDiv []) [ir.Integer 7; ir.Integer 0] 2)
  = Panics DivideByZero.
Proof.
  apply (proj1 (division_by_zero_is_no_error_value contentHashKey
                  (machine [] (Make OpDiv []) [ir.Integer 7; ir.Integer 0] 2)
                  (mainFrame (Make OpDiv [])) OpDiv 7
                  ltac:(concrete) ltac:(set_solver) ltac:(concrete)
                  ltac:(concrete) ltac:(concrete)));
    reflexivity.
Defined.

Lemma call_with_wrong_arity_witness :
  vm.step contentHashKey
    (machine [] (Make OpCall [1])
       [ir.Closure (ir.HeapAddr 5) (returning 0); ir.Integer 1] 2)
  = Return (Some (ir.Errorf "wrong number of arguments: want=%d, got=%d"
                    [ArgInt 0; ArgInt 1]),
            atIp (machine [] (Make OpCall [1])
                    [ir.Closure (ir.HeapAddr 5) (returning 0); ir.Integer 1] 2)
              (mainFrame (Make OpCall [1])) 1).
Proof.
  apply (proj1 (call_checks_arity_and_pushes_frame contentHashKey
                  (machine [] (Make OpCall [1])
                     [ir.Closure (ir.HeapAddr 5) (returning 0); ir.Integer 1] 2)
                  (mainFrame (Make OpCall [1])) 1
                  (ir.Closure (ir.HeapAddr 5) (returning 0))
                  ltac:(concrete) ltac:(concrete) ltac:(concrete) ltac:(concrete))
           (ir.HeapAddr 5) (returning 0));
    concrete.
Defined.

Lemma return_value_witness :
  vm.step contentHashKey
    (calledMachine (Make OpReturnValue [])
       [ir.Closure (ir.HeapAddr 1) (returning 0); ir.Integer 7] 2)
  = Return (None,
            afterReturn
              (calledMachine (Make OpReturnValue [])
                 [ir.Closure (ir.HeapAddr 1) (returning 0); ir.Integer 7] 2)
              (calledFrame (Make OpReturnValue [])) (ir.Integer 7)).
Proof.
  apply (proj1 (return_rewinds_to_base_pointer contentHashKey
                  (calledMachine (Make OpReturnValue [])
                     [ir.Closure (ir.HeapAddr 1) (returning 0); ir.Integer 7] 2)
                  (calledFrame (Make OpReturnValue []))
                  ltac:(concrete) ltac:(concrete) ltac:(concrete) ltac:(concrete))
           (ir.Integer 7));
    concrete.
Defined.

Lemma index_out_of_range_witness :
  vm.step contentHashKey
    (machine [] (Make OpIndex [])
       [ir.Array (ir.HeapAddr 3) [ir.Integer 1]; ir.Integer 99] 2)
  = Return (None,
            afterBinary
              (machine [] (Make OpIndex [])
                 [ir.Array (ir.HeapAddr 3) [ir.Integer 1]; ir.Integer 99] 2)
              (mainFrame (Make OpIndex [])) vm.Null).
Proof.
  apply (proj1 (proj1 (index_out_of_range_is_null contentHashKey
                         (machine [] (Make OpIndex [])
                            [ir.Array (ir.HeapAddr 3) [ir.Integer 1]; ir.Integer 99] 2)
                         (mainFrame (Make OpIndex []))
                         (ir.Array (ir.HeapAddr 3) [ir.Integer 1]) (ir.Integer 99)
                         ltac:(concrete) ltac:(concrete) ltac:(concrete) ltac:(concrete))
                  (ir.HeapAddr 3) [ir.Integer 1] 99 eq_refl eq_refl));
    right; vm_compute; reflexivity.
Defined.

Lemma wf_New : wf compiler.New.
Proof. split; [done|reflexivity]. Defined.

Lemma implicit_return_witness :
  wf compiler.New /\
  exists c' p,
    compiler.Compile literalText
      (ast.FunctionLiteral ["a"] (ast.BlockStatement [])) compiler.New
    = Return (None, c') /\
    last (compiler.constants c')
    = Some (ir.Function_ p {| ir.Instructions := Make OpReturn [];
                             ir.NumLocals := len ["a"];
                             ir.NumParameters := len ["a"] |}).
Proof.
  split; [exact wf_New|].
  exact (proj2 (implicit_return literalText ["a"] [] (ast.IntegerLiteral 5)
                  compiler.New wf_New)).
Defined.

Lemma less_than_witness :
  exists c',
    compiler.Compile literalText
      (ast.InfixExpression (ast.IntegerLiteral 1) "<" (ast.IntegerLiteral 2)) compiler.New
    = Return (None, c') /\
    exists c1 c2 code_b code_a consts_b consts_a sc',
      compiler.Compile literalText (ast.IntegerLiteral 2) compiler.New = Return (None, c1) /\
      appended compiler.New c1 code_b consts_b /\
      compiler.Compile literalText (ast.IntegerLiteral 1) c1 = Return (None, c2) /\
      appended c1 c2 code_a consts_a /\
      appended compiler.New c' (code_b ++ code_a ++ Make OpGreaterThan [])
        (consts_b ++ consts_a) /\
      current c' = Some sc' /\
      compiler.Opcode (compiler.lastInstruction sc') = OpGreaterThan.
Proof.
  eexists. split; [vm_compute; reflexivity|].
  apply (proj1 (proj2 (less_than_is_greater_than_swapped literalText contentHashKey
                         (ast.IntegerLiteral 1) (ast.IntegerLiteral 2) compiler.New)));
    [exact wf_New|vm_compute; reflexivity].
Defined.

Lemma namesOk_Define name s : namesOk s -> namesOk (compiler.Define name s).2.
Proof.
  destruct s as [o st n free]. intros [Hst Hout]. split; [|done].
  simpl. intros k sym [[<- <-]|[_ ?]]%lookup_insert_Some; [done|by apply Hst].
Defined.

Lemma namesOk_outerTable : namesOk outerTable.
Proof.
  apply namesOk_Define, namesOk_Define. split; [|split; [|done]];
    intros k sym H; simpl in H; by rewrite lookup_empty in H.
Defined.



(** ** Sequences of instructions *)

Section Assemble.

Import opcode.

Lemma assemble_app code1 code2 : assemble (code1 ++ code2) = assemble code1 ++ assemble code2.
Proof. unfold assemble. by rewrite map_app, concat_app. Qed.

Lemma assemble_cons i code : assemble (i :: code) = Make i.1 i.2 ++ assemble code.
Proof. done. Qed.

Lemma size_app code1 code2 : size (code1 ++ code2) = size code1 + size code2.
Proof. unfold size, len. rewrite assemble_app, length_app. lia. Qed.

Lemma size_nil : size [] = 0.
Proof. done. Qed.

Lemma Make_length op operands :
  complete (op, operands) -> len (Make op operands) = sizeOf op.
Proof.
  unfold complete. simpl. intros H.
  destruct op; simpl in H;
    repeat (destruct operands as [|? operands]; simpl in H; try discriminate);
    reflexivity.
Qed.

Lemma size_singleton i : complete i -> size [i] = sizeOf i.1.
Proof.
  destruct i as [op operands]. intros H. unfold size, assemble. simpl.
  rewrite app_nil_r. by apply Make_length.
Qed.

Lemma sizeOf_pos op : 1 <= sizeOf op.
Proof. by destruct op. Qed.

Lemma size_nonneg code : 0 <= size code.
Proof. unfold size, len. lia. Qed.

Lemma size_take_le code k : size (take k code) <= size code.
Proof.
  rewrite <- (take_drop k code) at 2. rewrite size_app.
  pose proof (size_nonneg (drop k code)). lia.
Qed.

Lemma size_take_S code k i :
  code !! k = Some i -> complete i ->
  size (take (S k) code) = size (take k code) + sizeOf i.1.
Proof.
  intros Hk Hc. rewrite (take_S_r _ _ _ Hk), size_app. by rewrite size_singleton.
Qed.

(** An instruction ends before the end of the stream or at it. *)
Lemma size_take_lt code k i :
  code !! k = Some i -> complete i -> size (take k code) + sizeOf i.1 <= size code.
Proof.
  intros Hk Hc. rewrite <- (size_take_S _ _ _ Hk Hc). apply size_take_le.
Qed.

(** Only the last instruction ends where the stream ends. *)
Lemma size_take_end code k :
  Forall complete code -> (k <= length code)%nat -> size (take k code) = size code ->
  k = length code.
Proof.
  intros Hall Hk Hs. destruct (decide (k = length code)) as [|Hne]; [done|].
  assert (k < length code)%nat as Hlt by lia.
  apply lookup_lt_is_Some in Hlt as [i Hi].
  assert (complete i) as Hc by (by eapply Forall_lookup_1).
  pose proof (size_take_lt _ _ _ Hi Hc). pose proof (sizeOf_pos i.1). lia.
Qed.

Lemma assemble_middle code k op operands :
  code !! k = Some (op, operands) ->
  assemble code
  = assemble (take k code) ++ Make op operands ++ assemble (drop (S k) code).
Proof.
  intros Hk. rewrite <- (take_drop_middle _ _ _ Hk) at 1.
  by rewrite assemble_app, assemble_cons.
Qed.

(** The byte number [n] of the instruction number [k]. *)
Lemma assemble_byte code k op operands n x :
  code !! k = Some (op, operands) ->
  Make op operands !! n = Some x ->
  elemAt (assemble code) (size (take k code) + Z.of_nat n) = Return x.
Proof.
  intros Hk Hx. apply elemAt_Some. pose proof (size_nonneg (take k code)).
  split; [lia|]. rewrite (assemble_middle _ _ _ _ Hk). unfold size, len.
  replace (Z.to_nat (Z.of_nat (length (assemble (take k code))) + Z.of_nat n))
    with (length (assemble (take k code)) + n)%nat by lia.
  rewrite lookup_app_r by lia.
  replace (length (assemble (take k code)) + n - length (assemble (take k code)))%nat
    with n by lia.
  by apply lookup_app_l_Some.
Qed.

(** The opcode byte of the instruction number [k]. *)
Lemma assemble_opcode code k op operands :
  code !! k = Some (op, operands) ->
  elemAt (assemble code) (size (take k code)) = Return (byte op).
Proof.
  intros Hk. pose proof (assemble_byte code k op operands 0 (byte op) Hk eq_refl) as H.
  by rewrite Z.add_0_r in H.
Qed.

(** The operand of a jump, read back. *)
Lemma assemble_target code k op t :
  code !! k = Some (op, [t]) -> isJump op = true -> 0 <= t < 65536 ->
  ReadUint16 (assemble code) (size (take k code) + 1) = Return t.
Proof.
  intros Hk Hj Ht. unfold ReadUint16.
  pose proof (assemble_byte code k op [t] 1 ((t `mod` 65536) `div` 256) Hk) as H1.
  pose proof (assemble_byte code k op [t] 2 (t `mod` 256) Hk) as H2.
  replace (size (take k code) + Z.of_nat 1) with (size (take k code) + 1) in H1 by lia.
  replace (size (take k code) + Z.of_nat 2) with (size (take k code) + 1 + 1) in H2 by lia.
  rewrite H1, H2 by (by destruct op).
  f_equal. rewrite (Z.mod_small t 65536) by lia.
  pose proof (Z.div_mod t 256). lia.
Qed.

Lemma targetsOk_nil off K : targetsOk off K [].
Proof. by intros j op operands H. Qed.

Lemma targetsOk_mono off K K' code :
  (K <= K')%nat -> targetsOk off K code -> targetsOk off K' code.
Proof.
  intros HK H j op operands Hj Hjump.
  destruct (H j op operands Hj Hjump) as (k & Hk & ->). exists k. split; [lia|done].
Qed.

(** An instruction other than a jump can follow. *)
Lemma targetsOk_snoc off K code i :
  (K <= length code)%nat -> isJump i.1 = false ->
  targetsOk off K code -> targetsOk off K (code ++ [i]).
Proof.
  intros HK Hi H j op operands Hj Hjump.
  apply lookup_app_Some in Hj as [Hj|[Hlen Hj]].
  - destruct (H j op operands Hj Hjump) as (k & Hk & ->). exists k. split; [done|].
    by rewrite take_app_le by lia.
  - apply list_lookup_singleton_Some in Hj as [_ Heq]. subst i. simpl in Hi. congruence.
Qed.

(** Two pieces of code, one after the other. *)
Lemma targetsOk_app off K1 K2 code1 code2 :
  (K1 <= length code1)%nat ->
  targetsOk off K1 code1 -> targetsOk (off + size code1) K2 code2 ->
  targetsOk off (length code1 + K2) (code1 ++ code2).
Proof.
  intros HK H1 H2 j op operands Hj Hjump.
  apply lookup_app_Some in Hj as [Hj|[Hlen Hj]].
  - destruct (H1 j op operands Hj Hjump) as (k & Hk & ->). exists k. split; [lia|].
    by rewrite take_app_le by lia.
  - destruct (H2 _ op operands Hj Hjump) as (k & Hk & ->).
    exists (length code1 + k)%nat. split; [lia|].
    rewrite take_app_ge by lia.
    replace (length code1 + k - length code1)%nat with k by lia.
    rewrite size_app. f_equal. lia.
Qed.

(** Code without its last instruction, when no jump goes past the start of
    that instruction. *)
Lemma targetsOk_init off K init i :
  (K <= length init)%nat ->
  targetsOk off K (init ++ [i]) -> targetsOk off K init.
Proof.
  intros HK H j op operands Hj Hjump.
  destruct (H j op operands) as (k & Hk & ->); [|done|].
  - by apply lookup_app_l_Some.
  - exists k. split; [done|]. by rewrite take_app_le by lia.
Qed.

End Assemble.


(** ** The compiler: the instructions it writes *)

Section Writing.

Import opcode compiler.

Lemma offset_eq c sc : current c = Some sc -> offset c = len (instructions sc).
Proof. unfold offset. by intros ->. Qed.

Lemma offset_nonneg c : 0 <= offset c.
Proof. unfold offset. destruct (current c); simpl; unfold len; lia. Qed.

Lemma appended_wrote c c' code consts :
  appended c c' (assemble code) consts -> tableDepth c' = tableDepth c ->
  wrote c c' code consts.
Proof.
  intros (Hi & Hk & sc & sc' & Hc & Hs & Hd & _) Ht.
  split; [done|]. split; [done|]. split; [done|]. by exists sc, sc'.
Qed.

Lemma wrote_wf c c' code k : wf c -> wrote c c' code k -> wf c'.
Proof.
  intros [H0 H1] (Hi & _ & _ & sc & sc' & _ & Hs & _). unfold wf, len in *.
  by rewrite Hi, Hs, length_insert.
Qed.

Lemma wrote_current c c' code k :
  wrote c c' code k ->
  exists sc sc', current c = Some sc /\ current c' = Some sc' /\
    instructions sc' = instructions sc ++ assemble code.
Proof.
  intros (Hi & _ & _ & sc & sc' & Hc & Hs & Hd). exists sc, sc'.
  split; [done|]. split; [|done]. unfold current. rewrite Hs, Hi.
  apply list_lookup_insert_eq. by apply lookup_lt_Some in Hc.
Qed.

Lemma wrote_offset c c' code k : wrote c c' code k -> offset c' = offset c + size code.
Proof.
  intros (sc & sc' & Hc & Hc' & Hd)%wrote_current.
  rewrite (offset_eq _ _ Hc), (offset_eq _ _ Hc'), Hd.
  unfold size, len. rewrite length_app. lia.
Qed.

Lemma wrote_refl c : wf c -> wrote c c [] [].
Proof.
  intros Hwf. destruct (wf_current c Hwf) as [sc Hsc].
  split; [done|]. split; [by rewrite app_nil_r|]. split; [done|].
  exists sc, sc. split; [done|]. split; [by rewrite list_insert_id|].
  by rewrite app_nil_r.
Qed.

Lemma wrote_trans c0 c1 c2 d1 k1 d2 k2 :
  wrote c0 c1 d1 k1 -> wrote c1 c2 d2 k2 -> wrote c0 c2 (d1 ++ d2) (k1 ++ k2).
Proof.
  intros H1 H2. destruct (wrote_current _ _ _ _ H1) as (sc0 & sc1 & Hc0 & Hc1 & Hd1).
  destruct H1 as (Hi1 & Hk1 & Ht1 & sc0' & sc1' & Hc0' & Hs1 & _).
  destruct H2 as (Hi2 & Hk2 & Ht2 & sc1'' & sc2 & Hc1' & Hs2 & Hd2).
  assert (sc0' = sc0) as -> by congruence.
  assert (sc1'' = sc1) as -> by congruence.
  split; [congruence|]. split; [by rewrite Hk2, Hk1, app_assoc|].
  split; [congruence|]. exists sc0, sc2. split; [done|].
  split; [by rewrite Hs2, Hs1, Hi1, list_insert_insert_eq|].
  by rewrite Hd2, Hd1, assemble_app, app_assoc.
Qed.

(** A step that leaves the scopes alone. *)
Lemma wrote_same_scopes c c' k :
  wf c -> scopeIndex c' = scopeIndex c -> scopes c' = scopes c ->
  constants c' = constants c ++ k -> tableDepth c' = tableDepth c ->
  wrote c c' [] k /\ current c' = current c.
Proof.
  intros Hwf Hi Hs Hk Ht. destruct (wf_current c Hwf) as [sc Hsc].
  split; [|by unfold current; rewrite Hs, Hi].
  split; [done|]. split; [done|]. split; [done|]. exists sc, sc. split; [done|].
  split; [by rewrite Hs, list_insert_id|]. by rewrite app_nil_r.
Qed.

Lemma piece_refl c : wf c -> piece c c [] [].
Proof.
  intros Hwf. split; [done|]. split; [by apply wrote_refl|].
  split; [done|]. split; [apply targetsOk_nil|done].
Qed.

Lemma piece_trans c0 c1 c2 d1 k1 d2 k2 :
  piece c0 c1 d1 k1 -> piece c1 c2 d2 k2 -> piece c0 c2 (d1 ++ d2) (k1 ++ k2).
Proof.
  intros (Hwf1 & W1 & C1 & T1 & S1) (Hwf2 & W2 & C2 & T2 & S2).
  split; [done|]. split; [by eapply wrote_trans|].
  split; [by apply Forall_app|]. split; [|by apply Forall_app].
  rewrite length_app. apply (targetsOk_app _ (length d1)); [done|done|].
  by rewrite <- (wrote_offset _ _ _ _ W1).
Qed.

(** *** The primitives *)

Lemma emit_wrote c op operands pos c' :
  wf c -> emit op operands c = Return (pos, c') ->
  wrote c c' [(op, operands)] [] /\ pos = offset c /\
  lastOf c' = Some {| Opcode := op; Position := offset c |} /\
  previousOf c' = lastOf c.
Proof.
  intros Hwf H. destruct (wf_current c Hwf) as [sc Hsc].
  rewrite (emit_eq c sc) in H by (done || apply Hwf). injection H as <- <-.
  rewrite (offset_eq _ _ Hsc). unfold lastOf, previousOf.
  rewrite (current_withCurrent _ _ _ Hsc), Hsc. simpl.
  split; [|done]. split; [done|]. split; [by rewrite app_nil_r|]. split; [done|].
  eexists sc, _. split; [done|]. split; [done|]. simpl.
  unfold assemble. simpl. by rewrite app_nil_r.
Qed.

Lemma addConstant_wrote c obj i c' :
  wf c -> addConstant obj c = Return (i, c') ->
  wrote c c' [] [obj] /\ current c' = current c.
Proof. intros Hwf [= <- <-]. by apply wrote_same_scopes. Qed.

Lemma Define_depth name s : depth (Define name s).2 = depth s.
Proof. by destruct s as [[o|] st n free]. Qed.

Lemma Resolve_depth name s : depth (Resolve name s).2 = depth s.
Proof.
  induction s as [s IH] using SymbolTable_nested_ind.
  destruct s as [o st n free]. simpl.
  destruct (st !! name); [done|]. destruct o as [outer|]; [|done]. simpl in IH.
  destruct (Resolve name outer) as [r outer'] eqn:Hr. simpl in IH.
  destruct r as [obj|]; [|by simpl; rewrite IH].
  destruct (Scope obj); simpl; by rewrite IH.
Qed.

Lemma define_wrote c name symbol c' :
  wf c -> define name c = Return (symbol, c') ->
  wrote c c' [] [] /\ current c' = current c /\
  Scope symbol = (if decide (tableDepth c = 1%nat) then GlobalScope else LocalScope).
Proof.
  intros Hwf H. unfold define in H. unfold tableDepth.
  destruct (symbolTable c) as [s|] eqn:Hs; [|discriminate]. simpl.
  pose proof (Define_depth name s) as Hd.
  destruct (Define name s) as [sym s'] eqn:HD. injection H as <- <-.
  split; [|split].
  - apply wrote_same_scopes; simpl; try done; [by rewrite app_nil_r|].
    unfold tableDepth. by rewrite Hs.
  - done.
  - unfold Define in HD. injection HD as <- _. simpl.
    destruct s as [[o|] st n free]; simpl; [|done].
    destruct (decide _) as [Heq|]; [|done]. destruct o as [[?|] ? ? ?]; discriminate.
Qed.

Lemma resolve_wrote c name r c' :
  wf c -> resolve name c = Return (r, c') ->
  wrote c c' [] [] /\ current c' = current c.
Proof.
  intros Hwf H. unfold resolve in H.
  destruct (symbolTable c) as [s|] eqn:Hs; [|discriminate].
  pose proof (Resolve_depth name s) as Hd.
  destruct (Resolve name s) as [r' s']. injection H as <- <-.
  apply wrote_same_scopes; simpl; try done; [by rewrite app_nil_r|].
  unfold tableDepth. by rewrite Hs.
Qed.

Lemma complete_loadInstruction s : complete (loadInstruction s).
Proof. unfold loadInstruction, complete. by destruct (Scope s). Qed.

Lemma loadInstruction_opcode s :
  isJump (loadInstruction s).1 = false /\ (loadInstruction s).1 <> OpPop.
Proof. unfold loadInstruction. by destruct (Scope s). Qed.

Lemma loadSymbol_wrote c s r c' :
  wf c -> loadSymbol s c = Return (r, c') ->
  wrote c c' [loadInstruction s] [] /\
  lastOf c' = Some (cursorOf (offset c) [] (loadInstruction s)).
Proof.
  intros Hwf H. unfold loadSymbol in H. unfold loadInstruction, cursorOf.
  rewrite size_nil, Z.add_0_r.
  destruct (Scope s); go_step H as He; apply ret_Return in H as [_ ->];
    apply emit_wrote in He as (W & _ & L & _); done.
Qed.

(** *** Code that ends with an emitted instruction *)

(** An instruction emitted after a piece of code. *)
Lemma piece_emit c c1 code k op operands pos c' :
  piece c c1 code k ->
  emit op operands c1 = Return (pos, c') ->
  complete (op, operands) -> isJump op = false ->
  piece c c' (code ++ [(op, operands)]) k /\
  targetsOk (offset c) (length code) (code ++ [(op, operands)]) /\
  lastOf c' = Some (cursorOf (offset c) code (op, operands)) /\
  previousOf c' = lastOf c1 /\
  pos = offset c + size code.
Proof.
  intros (Hwf1 & W & C & T & S) He Hc Hj.
  apply emit_wrote in He as (We & -> & L & Pv); [|done].
  pose proof (wrote_trans _ _ _ _ _ _ _ W We) as W'. rewrite app_nil_r in W'.
  assert (targetsOk (offset c) (length code) (code ++ [(op, operands)])) as T'.
  { by apply targetsOk_snoc. }
  rewrite (wrote_offset _ _ _ _ W) in L |- *.
  split; [|done]. split; [by eapply wrote_wf|]. split; [done|].
  split; [apply Forall_app; by split; [|apply Forall_singleton]|]. split; [|done].
  eapply targetsOk_mono; [|done]. rewrite length_app. lia.
Qed.

(** The end of an expression. *)
Lemma value_emit c c1 code k op operands pos c' :
  piece c c1 code k ->
  emit op operands c1 = Return (pos, c') ->
  complete (op, operands) -> isJump op = false -> op <> OpPop ->
  piece c c' (code ++ [(op, operands)]) k /\ valueDone c c' (code ++ [(op, operands)]).
Proof.
  intros P He Hc Hj Hop.
  destruct (piece_emit _ _ _ _ _ _ _ _ P He Hc Hj) as (P' & _ & L & _).
  split; [done|]. by exists code, (op, operands).
Qed.

(** The end of a statement. *)
Lemma statement_emit c c1 code k op operands pos c' :
  piece c c1 code k -> valueDone c c1 code ->
  emit op operands c1 = Return (pos, c') ->
  complete (op, operands) -> isJump op = false ->
  piece c c' (code ++ [(op, operands)]) k /\
  statementDone c c' (code ++ [(op, operands)]) op.
Proof.
  intros P (init & j & -> & Hj & Lj) He Hc Hjump.
  destruct (piece_emit _ _ _ _ _ _ _ _ P He Hc Hjump) as (P' & T & L & Pv & _).
  split; [done|]. exists (init ++ [j]), operands.
  split; [done|]. split; [done|]. split; [done|]. split; [done|].
  intros _. exists init, j. split; [done|]. split; [done|]. by rewrite Pv.
Qed.

End Writing.


(** ** The compiler: patches, strips and lists *)

Section Patching.

Import opcode compiler.

(** Bytes replaced by as many bytes. *)
Lemma replaceBytes_exact b' : forall a b c,
  length b' = length b ->
  replaceBytes (a ++ b ++ c) (len a) b' = Return (a ++ b' ++ c).
Proof.
  induction b' as [|x b' IH]; intros a b c Hl.
  - by destruct b.
  - destruct b as [|y b]; [discriminate|]. simpl in Hl. simpl.
    assert (assign (a ++ y :: b ++ c) (len a) x = Return ((a ++ [x]) ++ b ++ c)) as ->.
    { apply assign_Some. unfold len. rewrite length_app. simpl. split; [lia|].
      rewrite Nat2Z.id. rewrite insert_app_r_alt by lia. rewrite Nat.sub_diag. simpl.
      by rewrite <- app_assoc. }
    replace (len a + 1) with (len (a ++ [x])); last first.
    { unfold len. rewrite length_app. simpl. lia. }
    rewrite (IH (a ++ [x]) b c) by lia. by rewrite <- app_assoc.
Qed.

Lemma Make_jump_length op x t :
  isJump op = true -> length (Make op [t]) = length (Make op [x]).
Proof. by destruct op. Qed.

(** [changeOperand] on a jump that the compiler wrote: the jump gets the new
    operand, all else stays. *)
Lemma changeOperand_patch c0 c code1 op x code2 k t r c' :
  wf c0 -> wf c ->
  wrote c0 c (code1 ++ (op, [x]) :: code2) k ->
  isJump op = true ->
  changeOperand (offset c0 + size code1) t c = Return (r, c') ->
  wf c' /\
  wrote c0 c' (code1 ++ (op, [t]) :: code2) k /\
  lastOf c' = lastOf c /\ previousOf c' = previousOf c.
Proof.
  intros Hwf0 Hwf W Hj H.
  destruct (wrote_current _ _ _ _ W) as (sc0 & sc & Hc0 & Hc & Hd).
  rewrite (offset_eq _ _ Hc0) in H.
  rewrite assemble_app, assemble_cons in Hd. cbn [fst snd] in Hd.
  rewrite app_assoc in Hd.
  assert (len (instructions sc0) + size code1
          = len (instructions sc0 ++ assemble code1)) as Hpos.
  { unfold size, len. rewrite length_app. lia. }
  rewrite Hpos in H.
  unfold changeOperand in H.
  rewrite (bind_eq _ _ _ _ _ (currentInstructions_eq c sc (proj1 Hwf) Hc)) in H.
  assert (elemAt (instructions sc) (len (instructions sc0 ++ assemble code1))
          = Return (byte op)) as Hb.
  { apply elemAt_Some. unfold len. split; [lia|]. rewrite Nat2Z.id, Hd.
    rewrite lookup_app_r by lia. by rewrite Nat.sub_diag. }
  unfold bind at 1 in H. unfold lift at 1 in H. rewrite Hb, Lookup_byte in H.
  unfold replaceInstruction in H.
  rewrite (bind_eq _ _ _ _ _ (currentScope_eq c sc (proj1 Hwf) Hc)) in H.
  rewrite Hd in H.
  rewrite (replaceBytes_exact (Make op [t]) _ (Make op [x])) in H
    by (by apply Make_jump_length).
  unfold bind at 1 in H. unfold lift at 1 in H.
  erewrite setCurrentScope_eq in H by (done || apply Hwf). injection H as _ <-.
  split; [by apply wf_withCurrent|]. unfold lastOf, previousOf.
  rewrite (current_withCurrent _ _ _ Hc), Hc. simpl. split; [|done].
  destruct W as (Hi & Hk & Ht & sc0' & sc' & Hc0' & Hs & _).
  assert (sc0' = sc0) as -> by congruence.
  split; [done|]. split; [done|]. split; [done|]. eexists sc0, _.
  split; [done|]. simpl. split; [by rewrite Hs, Hi, list_insert_insert_eq|].
  rewrite assemble_app, assemble_cons. cbn [fst snd]. by rewrite <- !app_assoc.
Qed.

Lemma valueDone_shift c c1 c' code1 k1 code2 :
  wrote c c1 code1 k1 -> valueDone c1 c' code2 -> valueDone c c' (code1 ++ code2).
Proof.
  intros W (init & i & -> & Hi & L). exists (code1 ++ init), i.
  split; [by rewrite app_assoc|]. split; [done|].
  rewrite L. unfold cursorOf. rewrite (wrote_offset _ _ _ _ W), size_app.
  do 2 f_equal. lia.
Qed.

Lemma statementDone_shift c c1 c' code1 k1 code2 op :
  wrote c c1 code1 k1 -> targetsOk (offset c) (length code1) code1 ->
  statementDone c1 c' code2 op -> statementDone c c' (code1 ++ code2) op.
Proof.
  intros W T1 (init & operands & -> & Hj & T & L & Hpop).
  pose proof (wrote_offset _ _ _ _ W) as Hoff.
  exists (code1 ++ init), operands.
  split; [by rewrite app_assoc|]. split; [done|]. split; [|split].
  - rewrite length_app. apply (targetsOk_app _ (length code1)); [done|done|].
    by rewrite <- Hoff.
  - rewrite L. unfold cursorOf. rewrite Hoff, size_app. do 2 f_equal. lia.
  - intros Hop. destruct (Hpop Hop) as (init' & j & -> & Hjop & Pv).
    exists (code1 ++ init'), j. split; [by rewrite app_assoc|]. split; [done|].
    rewrite Pv. unfold cursorOf. rewrite Hoff, size_app. do 2 f_equal. lia.
Qed.

(** The strip of a trailing [OpPop] after a block that follows an emitted
    instruction other than [OpPop]. *)
Lemma strip_block ss c2 c3 code k r c4 cur :
  wf c2 ->
  piece c2 c3 code k -> statementsDone ss c2 c3 code ->
  lastOf c2 = Some cur -> Opcode cur <> OpPop ->
  removeLastPopIfAny c3 = Return (r, c4) ->
  exists code', piece c2 c4 code' k /\ blockValue c2 c4 code'.
Proof.
  intros Hwf2 P Hdone Hlast Hcur H.
  destruct P as (Hwf3 & W & C & T & Sh).
  destruct (wrote_current _ _ _ _ W) as (sc2 & sc3 & Hc2 & Hc3 & Hd).
  unfold removeLastPopIfAny in H.
  rewrite (bind_eq _ _ _ _ _ (lastInstructionIs_eq c3 sc3 OpPop (proj1 Hwf3) Hc3)) in H.
  destruct Hdone as [(-> & -> & ->)|(s & _ & init & operands & -> & Hj & Ti & L & Hpop)].
  - (* no statement *)
    assert (sc3 = sc2) as -> by congruence.
    assert ((if decide (len (instructions sc2) = 0) then false
             else bool_decide (Opcode (lastInstruction sc2) = OpPop)) = false) as Hno.
    { destruct (decide _); [done|]. apply bool_decide_eq_false.
      unfold lastOf in Hlast. rewrite Hc2 in Hlast. by injection Hlast as ->. }
    rewrite Hno in H. apply ret_Return in H as [_ ->].
    exists []. split; [done|]. by left.
  - set (op := finalOpcode s (tableDepth c2)) in *.
    unfold lastOf in L. rewrite Hc3 in L. injection L as L.
    assert (len (instructions sc3) <> 0) as Hne.
    { rewrite Hd, assemble_app. unfold len. rewrite !length_app.
      unfold assemble. simpl. lia. }
    destruct (decide (len (instructions sc3) = 0)) as [|_]; [done|].
    rewrite L in H. simpl in H. case_bool_decide as Hop.
    + (* the block ends with OpPop *)
      destruct (Hpop Hop) as (init' & j & -> & Hjop & Pv).
      unfold previousOf in Pv. rewrite Hc3 in Pv. injection Pv as Pv.
      assert (Position (lastInstruction sc3)
              = len (instructions sc2 ++ assemble (init' ++ [j]))) as Hpos.
      { rewrite L. simpl. rewrite (offset_eq _ _ Hc2). unfold size, len.
        rewrite length_app. lia. }
      rewrite (removeLastPop_eq c3 sc3) in H; [|apply Hwf3|done|]; last first.
      { rewrite Hpos, Hd, !assemble_app. unfold len. rewrite !length_app. lia. }
      injection H as _ <-.
      assert (take (Z.to_nat (Position (lastInstruction sc3))) (instructions sc3)
              = instructions sc2 ++ assemble (init' ++ [j])) as Htake.
      { rewrite Hpos, Hd. rewrite (assemble_app (init' ++ [j])), app_assoc.
        unfold len. rewrite Nat2Z.id. by rewrite take_app_length. }
      rewrite Htake.
      exists (init' ++ [j]). split; [split; [|split; [|split; [|split]]]|].
      * by apply wf_withCurrent.
      * destruct W as (Hi & Hk & Ht & sc2' & sc3' & Hc2' & Hs & _).
        assert (sc2' = sc2) as -> by congruence.
        split; [done|]. split; [done|]. split; [done|]. eexists sc2, _.
        split; [done|]. simpl.
        split; [by rewrite Hs, Hi, list_insert_insert_eq|done].
      * by apply Forall_app in C as [? _].
      * eapply targetsOk_init; [done|]. exact Ti.
      * done.
      * right. exists init', j. split; [done|]. split; [done|].
        unfold lastOf. rewrite (current_withCurrent _ _ _ Hc3). simpl. by rewrite Pv.
    + apply ret_Return in H as [_ ->].
      exists (init ++ [(op, operands)]). split; [done|]. right.
      exists init, (op, operands). split; [done|]. split; [done|].
      unfold lastOf. rewrite Hc3. simpl. by rewrite L.
Qed.

(** *** Lists of nodes *)

Lemma each_pieces {A} (f : A -> M Compiler (option Error)) xs :
  Forall (fun x => forall c c', wf c -> f x c = Return (None, c') ->
                     exists code k, piece c c' code k) xs ->
  forall c c', wf c -> each f xs c = Return (None, c') ->
    exists code k, piece c c' code k.
Proof.
  induction 1 as [|x xs Hx _ IH]; intros c c' Hwf H; simpl in H.
  - apply ret_Return in H as [_ ->]. exists [], []. by apply piece_refl.
  - go_step H as Hf into c1.
    destruct (Hx _ _ Hwf Hf) as (code1 & k1 & P1).
    destruct (IH _ _ (proj1 P1) H) as (code2 & k2 & P2).
    eexists _, _. by eapply piece_trans.
Qed.

Lemma each_statements (f : ast.Node -> M Compiler (option Error)) ss :
  Forall (fun s => forall c c', wf c -> f s c = Return (None, c') ->
                     exists code k, piece c c' code k /\
                       statementDone c c' code (finalOpcode s (tableDepth c))) ss ->
  forall c c', wf c -> each f ss c = Return (None, c') ->
    exists code k, piece c c' code k /\ statementsDone ss c c' code.
Proof.
  induction 1 as [|s ss Hs _ IH]; intros c c' Hwf H; simpl in H.
  - apply ret_Return in H as [_ ->]. exists [], [].
    split; [by apply piece_refl|]. by left.
  - go_step H as Hf into c1.
    destruct (Hs _ _ Hwf Hf) as (code1 & k1 & P1 & D1).
    destruct (IH _ _ (proj1 P1) H) as (code2 & k2 & P2 & D2).
    exists (code1 ++ code2), (k1 ++ k2). split; [by eapply piece_trans|]. right.
    destruct D2 as [(-> & -> & ->)|(s' & Hlast & D2)].
    + exists s. split; [done|]. by rewrite app_nil_r.
    + exists s'. split.
      * destruct ss; [done|]. done.
      * destruct P1 as (_ & W1 & _ & T1 & _).
        assert (tableDepth c1 = tableDepth c) as Ht by apply W1.
        rewrite Ht in D2. by eapply statementDone_shift.
Qed.

End Patching.


(** ** The compiler: conditionals *)

Section Conditionals.

Import opcode compiler.

Variable NodeString : ast.Node -> string.

Lemma size_cons i code : size (i :: code) = len (Make i.1 i.2) + size code.
Proof. unfold size, len. rewrite assemble_cons, length_app. lia. Qed.

Lemma size_jump op x code : isJump op = true -> size ((op, [x]) :: code) = 3 + size code.
Proof. intros H. rewrite size_cons. by destruct op. Qed.

(** [targetsOk], instruction by instruction. *)
Lemma targetsOk_Forall off K code :
  targetsOk off K code <->
  Forall (fun i : Instruction =>
            isJump i.1 = true ->
            exists k, (k <= K)%nat /\ i.2 = [off + size (take k code)]) code.
Proof.
  rewrite Forall_lookup. split.
  - intros H j [op operands] Hj. by apply (H j).
  - intros H j op operands Hj. by apply (H j (op, operands)).
Qed.

(** The jumps of a piece of code inside a longer one. *)
Lemma targetsOk_inside off pre mid post K :
  (K <= length mid)%nat ->
  targetsOk (off + size pre) K mid ->
  Forall (fun i : Instruction =>
            isJump i.1 = true ->
            exists k, (k <= length pre + length mid + length post)%nat /\
              i.2 = [off + size (take k (pre ++ mid ++ post))]) mid.
Proof.
  intros HK H. apply targetsOk_Forall in H. eapply Forall_impl; [exact H|].
  intros i Hi Hj. destruct (Hi Hj) as (k & Hk & ->).
  exists (length pre + k)%nat. split; [lia|].
  rewrite take_app_ge by lia.
  replace (length pre + k - length pre)%nat with k by lia.
  rewrite take_app_le by lia. rewrite size_app. f_equal. lia.
Qed.

(** The code of a conditional: the condition [A], the conditional jump to
    the alternative, the consequence [B], the jump to the end, the
    alternative [C]. *)
Lemma targetsOk_conditional off A B C t1 t2 :
  targetsOk off (length A) A ->
  targetsOk (off + size A + 3) (length B) B ->
  targetsOk (off + size A + 3 + size B + 3) (length C) C ->
  t1 = off + size A + 3 + size B + 3 ->
  t2 = t1 + size C ->
  targetsOk off (length (A ++ (OpJumpNotTruthy, [t1]) :: B ++ (OpJump, [t2]) :: C))
    (A ++ (OpJumpNotTruthy, [t1]) :: B ++ (OpJump, [t2]) :: C).
Proof.
  intros HA HB HC -> ->.
  set (J1 := (OpJumpNotTruthy, [off + size A + 3 + size B + 3]) : Instruction).
  set (J2 := (OpJump, [off + size A + 3 + size B + 3 + size C]) : Instruction).
  assert (size [J1] = 3) as HJ1 by done.
  assert (size [J2] = 3) as HJ2 by done.
  set (total := A ++ J1 :: B ++ J2 :: C).
  assert (total = (A ++ J1 :: B ++ [J2]) ++ C) as Hsplit.
  { unfold total. rewrite <- !app_assoc. simpl. by rewrite <- app_assoc. }
  assert (length total = (length A + 1 + length B + 1 + length C)%nat) as Hlen.
  { unfold total. repeat (progress (simpl; rewrite ?length_app)). lia. }
  apply targetsOk_Forall.
  change (Forall (fun i : Instruction =>
                    isJump i.1 = true ->
                    exists k, (k <= length total)%nat /\
                      i.2 = [off + size (take k total)])
            (A ++ J1 :: B ++ J2 :: C)).
  rewrite Hlen.
  apply Forall_app. split; [|apply Forall_cons; split;
                             [|apply Forall_app; split; [|apply Forall_cons; split]]].
  - pose proof (targetsOk_inside off [] A (J1 :: B ++ J2 :: C) (length A)) as H.
    rewrite size_nil, Z.add_0_r in H. specialize (H ltac:(lia) HA).
    eapply Forall_impl; [exact H|]. intros i Hi Hj.
    destruct (Hi Hj) as (k & Hk & ->). exists k. split; [|done].
    repeat (progress (simpl in Hk; rewrite ?length_app in Hk)). lia.
  - intros _. exists (length (A ++ J1 :: B ++ [J2])). split.
    { repeat (progress (simpl; rewrite ?length_app)). lia. }
    rewrite Hsplit, take_app_length. unfold J1, J2.
    rewrite !size_app, !size_jump, !size_app, !size_jump, size_nil by done.
    simpl. f_equal. lia.
  - pose proof (targetsOk_inside off (A ++ [J1]) B (J2 :: C) (length B)) as H.
    rewrite size_app, HJ1, Z.add_assoc in H. specialize (H ltac:(lia) HB).
    rewrite <- app_assoc in H.
    eapply Forall_impl; [exact H|]. intros i Hi Hj.
    destruct (Hi Hj) as (k & Hk & ->). exists k. split; [|done].
    repeat (progress (simpl in Hk; rewrite ?length_app in Hk)). lia.
  - intros _. exists (length total). split; [lia|].
    rewrite firstn_all. unfold total, J1, J2.
    rewrite !size_app, !size_jump, !size_app, !size_jump by done.
    simpl. f_equal. lia.
  - pose proof (targetsOk_inside off (A ++ J1 :: B ++ [J2]) C [] (length C)) as H.
    assert (size (A ++ J1 :: B ++ [J2]) = size A + 3 + size B + 3) as Hpre.
    { unfold J1, J2.
      rewrite !size_app, !size_jump, !size_app, !size_jump, size_nil by done. lia. }
    rewrite Hpre in H.
    replace (off + (size A + 3 + size B + 3))
      with (off + size A + 3 + size B + 3) in H by lia.
    specialize (H ltac:(lia) HC). rewrite app_nil_r, <- Hsplit in H.
    eapply Forall_impl; [exact H|]. intros i Hi Hj.
    destruct (Hi Hj) as (k & Hk & ->). exists k. split; [|done].
    repeat (progress (simpl in Hk; rewrite ?length_app in Hk)). lia.
Qed.

End Conditionals.


Section CompileConditional.

Import opcode compiler.

Variable NodeString : ast.Node -> string.

Lemma currentInstructions_offset c x c' :
  currentInstructions c = Return (x, c') -> c' = c /\ len x = offset c.
Proof.
  intros (-> & sc & Hsc & ->)%currentInstructions_Return.
  by rewrite (offset_eq _ _ Hsc).
Qed.

Lemma app_cons_assoc {X} (a : list X) j b p c :
  (a ++ j :: b ++ [p]) ++ c = (a ++ j :: b) ++ p :: c.
Proof. by rewrite <- !app_assoc, <- !app_comm_cons, <- app_assoc. Qed.

(** The conditional: the code of the condition, [OpJumpNotTruthy] to the
    alternative, the consequence without a trailing [OpPop], [OpJump] to the
    end, and the alternative without a trailing [OpPop] or [OpNull]. *)
Lemma Compile_IfExpression cond t e :
  compilesTo NodeString cond (compiledAs ExpressionNode cond) ->
  compilesTo NodeString t (compiledAs BlockNode t) ->
  from_option (fun alt => compilesTo NodeString alt (compiledAs BlockNode alt))
    Logic.True e ->
  compilesTo NodeString (ast.IfExpression cond t e)
    (compiledAs ExpressionNode (ast.IfExpression cond t e)).
Proof.
  intros Hcond Hthen Helse c0 c' Hwf H. simpl in H.
  (* the condition *)
  go_step H as H1 into c1. destruct (Hcond _ _ Hwf H1) as (A & kA & PA & _).
  destruct PA as (Hwf1 & WA & CA & TA & SA).
  (* the conditional jump *)
  go_step H as H2 into c2. rename x into jumpNotTruthyPos.
  apply emit_wrote in H2 as (W12 & -> & L2 & _); [|done].
  pose proof (wrote_wf _ _ _ _ Hwf1 W12) as Hwf2.
  (* the consequence *)
  go_step H as H3 into c3. destruct (Hthen _ _ Hwf2 H3) as (B0 & kB & PB0 & ss & DB0).
  go_step H as H4 into c4.
  destruct (strip_block _ _ _ _ _ _ _ _ Hwf2 PB0 DB0 L2 ltac:(done) H4)
    as (B & PB & VB).
  destruct PB as (Hwf4 & WB & CB & TB & SB).
  (* the jump over the alternative *)
  go_step H as H5 into c5. rename x0 into jumpPos.
  apply emit_wrote in H5 as (W45 & -> & L5 & _); [|done].
  pose proof (wrote_wf _ _ _ _ Hwf4 W45) as Hwf5.
  go_step H as H6. apply currentInstructions_offset in H6 as [-> Ht1].
  cbv zeta in H. rewrite Ht1 in H.
  (* the first patch *)
  pose proof (wrote_trans _ _ _ _ _ _ _ WA
                (wrote_trans _ _ _ _ _ _ _ W12
                   (wrote_trans _ _ _ _ _ _ _ WB W45))) as W05.
  pose proof (wrote_offset _ _ _ _ WA) as O1.
  pose proof (wrote_offset _ _ _ _ W12) as O2.
  pose proof (wrote_offset _ _ _ _ WB) as O4.
  pose proof (wrote_offset _ _ _ _ W45) as O5.
  rewrite size_jump in O2 by done. rewrite size_jump in O5 by done.
  change (size []) with 0 in O2, O5.
  go_step H as H7 into c6. rewrite O1 in H7.
  destruct (changeOperand_patch c0 c5 A OpJumpNotTruthy 9999 (B ++ [(OpJump, [9999])])
              _ (offset c5) _ _ Hwf Hwf5 W05 eq_refl H7) as (Hwf6 & W06 & L6 & _).
  pose proof (wrote_offset _ _ _ _ W06) as O6.
  rewrite size_app, size_jump, size_app, size_jump in O6 by done.
  change (size []) with 0 in O6.
  (* the alternative *)
  go_step H as H8 into c7.
  assert (exists C kC, piece c6 c7 C kC /\ blockValue c6 c7 C) as (C & kC & PC & VC).
  { destruct e as [alt|]; simpl in Helse; cbv iota in H8.
    - go_step H8 as H81 into c6a.
      destruct (Helse _ _ Hwf6 H81) as (C0 & kC & PC0 & ss' & DC0).
      go_step H8 as H82 into c6b. apply ret_Return in H8 as [_ ->].
      rewrite L5 in L6.
      destruct (strip_block _ _ _ _ _ _ _ _ Hwf6 PC0 DC0 L6 ltac:(done) H82)
        as (C & PC & VC).
      by exists C, kC.
    - go_step H8 as H81 into c6a. apply ret_Return in H8 as [_ ->].
      destruct (value_emit _ _ _ _ _ _ _ _ (piece_refl c6 Hwf6) H81) as [PC VC]; try done.
      eexists _, _. split; [exact PC|]. by right. }
  destruct PC as (Hwf7 & WC & CC & TC & SC).
  pose proof (wrote_offset _ _ _ _ WC) as O7.
  (* the second patch *)
  go_step H as H9. apply currentInstructions_offset in H9 as [-> Ht2].
  cbv zeta in H. rewrite Ht2 in H.
  go_step H as H10 into c8. apply ret_Return in H as [_ ->].
  pose proof (wrote_trans _ _ _ _ _ _ _ W06 WC) as W07.
  rewrite app_cons_assoc in W07.
  assert (offset c4 = offset c0 + size (A ++ (OpJumpNotTruthy, [offset c5]) :: B)) as O4'.
  { rewrite size_app, size_jump by done. lia. }
  rewrite O4' in H10.
  destruct (changeOperand_patch c0 c7 _ OpJump 9999 C _ (offset c7) _ _
              Hwf Hwf7 W07 eq_refl H10) as (Hwf8 & W08 & L8 & _).
  rewrite <- app_assoc, <- app_comm_cons in W08.
  (* the whole *)
  eexists _, _. split; [split; [done|split; [exact W08|split; [|split]]]|].
  - apply Forall_app. split; [done|]. apply Forall_cons. split; [done|].
    apply Forall_app. split; [done|]. by apply Forall_cons.
  - apply targetsOk_conditional; try done.
    + replace (offset c0 + size A + 3) with (offset c2) by lia. done.
    + replace (offset c0 + size A + 3 + size B + 3) with (offset c6) by lia. done.
    + lia.
    + lia.
  - rewrite !app_nil_r. by repeat apply Forall_app_2.
  - simpl. destruct VC as [[-> LC]|VC].
    + exists (A ++ (OpJumpNotTruthy, [offset c5]) :: B), (OpJump, [offset c7]).
      split; [by rewrite <- app_assoc|]. split; [done|].
      rewrite L8, LC, L6, L5. unfold cursorOf. simpl. do 2 f_equal.
      rewrite size_app, size_jump by done. lia.
    + destruct VC as (init & i & -> & Hi & LC).
      exists (A ++ (OpJumpNotTruthy, [offset c5]) :: B ++ (OpJump, [offset c7]) :: init), i.
      split; [by rewrite <- !app_assoc, <- !app_comm_cons, <- !app_assoc|].
      split; [done|]. rewrite L8, LC. unfold cursorOf. do 2 f_equal.
      rewrite size_app, size_jump, size_app, size_jump by done. lia.
Qed.

End CompileConditional.


(** ** The compiler: function literals *)

Section CompileFunction.

Import opcode compiler.

Variable NodeString : ast.Node -> string.

Lemma offset_zero c sc : current c = Some sc -> offset c = 0 -> instructions sc = [].
Proof.
  intros Hc. rewrite (offset_eq _ _ Hc). unfold len.
  destruct (instructions sc); [done|simpl; lia].
Qed.

Lemma targetsOk_singleton off K i : isJump i.1 = false -> targetsOk off K [i].
Proof.
  intros H j op operands Hj Hjump.
  apply list_lookup_singleton_Some in Hj as [_ ->]. simpl in H. congruence.
Qed.

Lemma closed_return : closed [(OpReturn, [])] OpReturn.
Proof.
  exists [], []. split; [done|]. split; [by apply Forall_singleton|].
  by apply targetsOk_singleton.
Qed.

(** The end of a function body, compiled in a new scope: the code of the
    scope becomes closed code that ends with a return. *)
Lemma implicitReturn_closed ss c2 c3 code k r cin :
  wf c2 -> offset c2 = 0 ->
  piece c2 c3 code k -> statementsDone ss c2 c3 code ->
  implicitReturn c3 = Return (r, cin) ->
  exists code' op,
    wf cin /\ wrote c2 cin code' k /\ closed code' op /\
    (op = OpReturnValue \/ op = OpReturn).
Proof.
  intros Hwf2 Hoff (Hwf3 & W & C & T & Sh) Hdone H.
  destruct (wrote_current _ _ _ _ W) as (sc2 & sc3 & Hc2 & Hc3 & Hd).
  pose proof (offset_zero _ _ Hc2 Hoff) as Hnil. rewrite Hnil in Hd. simpl in Hd.
  rewrite Hoff in T.
  unfold implicitReturn in H.
  rewrite (bind_eq _ _ _ _ _ (lastInstructionIs_eq c3 sc3 OpPop (proj1 Hwf3) Hc3)) in H.
  destruct Hdone as [(-> & -> & ->)|(s & _ & init & operands & -> & Hj & Ti & L & Hpop)].
  - (* no statement: OpReturn is all of the code *)
    assert (len (instructions sc3) = 0) as Hlen by (by rewrite Hd).
    destruct (decide _) as [_|]; [|done].
    go_step H as H1. apply ret_Return in H1 as [_ ->].
    rewrite (bind_eq _ _ _ _ _
               (lastInstructionIs_eq c2 sc3 OpReturnValue (proj1 Hwf3) Hc3)) in H.
    destruct (decide _) as [_|]; [|done].
    go_step H as He into c4. apply ret_Return in H as [_ ->].
    apply emit_wrote in He as (We & _); [|done].
    pose proof (wrote_trans _ _ _ _ _ _ _ W We) as W'.
    rewrite app_nil_r in W'. simpl in W'.
    exists [(OpReturn, [])], OpReturn.
    split; [by eapply wrote_wf|]. split; [done|]. split; [apply closed_return|by right].
  - set (op := finalOpcode s (tableDepth c2)) in *. rewrite Hoff in Ti, L.
    unfold lastOf in L. rewrite Hc3 in L. injection L as L.
    assert (len (instructions sc3) <> 0) as Hne.
    { rewrite Hd, assemble_app. unfold len. rewrite !length_app.
      unfold assemble. simpl. lia. }
    destruct (decide (len (instructions sc3) = 0)) as [|_]; [done|].
    rewrite L in H. simpl in H. case_bool_decide as Hop.
    + (* a trailing OpPop becomes OpReturnValue *)
      go_step H as H1 into c4.
      apply (replaceLastPopWithReturn_Return c3 sc3) in H1 as (ins & Hrep & ->);
        [|apply Hwf3|done].
      rewrite L in Hrep. unfold cursorOf in Hrep. cbn [Position] in Hrep.
      assert (instructions sc3 = assemble init ++ Make OpPop operands ++ []) as Hd'.
      { rewrite Hd, assemble_app, Hop. unfold assemble at 2. by simpl. }
      rewrite Hd' in Hrep.
      change (0 + size init) with (len (assemble init)) in Hrep.
      rewrite (replaceBytes_exact (Make OpReturnValue [])) in Hrep by done.
      injection Hrep as <-.
      match type of H with context [withCurrent c3 ?sc] => set (sc4 := sc) in * end.
      pose proof (current_withCurrent c3 sc3 sc4 Hc3) as Hc4.
      pose proof (wf_withCurrent c3 sc4 Hwf3) as Hwf4.
      rewrite (bind_eq _ _ _ _ _
                 (lastInstructionIs_eq _ sc4 OpReturnValue (proj1 Hwf4) Hc4)) in H.
      destruct (decide _) as [Hz|_].
      { exfalso. unfold sc4, len in Hz. simpl in Hz. rewrite length_app in Hz.
        simpl in Hz. lia. }
      simpl in H. try rewrite bool_decide_eq_true_2 in H by done.
      apply ret_Return in H as [_ ->].
      exists (init ++ [(OpReturnValue, [])]), OpReturnValue.
      split; [done|]. split; [|split; [|by left]].
      * destruct W as (Hi & Hk & Ht & sc2' & sc3' & Hc2' & Hs & _).
        assert (sc2' = sc2) as -> by congruence.
        split; [done|]. split; [done|]. split; [done|]. exists sc2, sc4.
        split; [done|]. split; [simpl; by rewrite Hs, Hi, list_insert_insert_eq|].
        rewrite Hnil. simpl. by rewrite assemble_app.
      * exists init, []. split; [done|].
        apply Forall_app in C as [Cinit _].
        split; [apply Forall_app; by split; [|apply Forall_singleton]|].
        apply targetsOk_snoc; [done|done|]. by eapply targetsOk_init.
    + go_step H as H1. apply ret_Return in H1 as [_ ->].
      rewrite (bind_eq _ _ _ _ _
                 (lastInstructionIs_eq c3 sc3 OpReturnValue (proj1 Hwf3) Hc3)) in H.
      destruct (decide (len (instructions sc3) = 0)) as [|_]; [done|].
      rewrite L in H. simpl in H. case_bool_decide as Hret.
      * (* the body ends with a return statement *)
        apply ret_Return in H as [_ ->].
        exists (init ++ [(op, operands)]), op.
        split; [done|]. split; [done|]. split; [|by left].
        by exists init, operands.
      * (* OpReturn after a let statement *)
        go_step H as He into c4. apply ret_Return in H as [_ ->].
        apply emit_wrote in He as (We & _); [|done].
        pose proof (wrote_trans _ _ _ _ _ _ _ W We) as W'. rewrite app_nil_r in W'.
        exists ((init ++ [(op, operands)]) ++ [(OpReturn, [])]), OpReturn.
        split; [by eapply wrote_wf|]. split; [done|]. split; [|by right].
        exists (init ++ [(op, operands)]), []. split; [done|].
        split; [apply Forall_app; by split; [|apply Forall_singleton]|].
        by apply targetsOk_snoc.
Qed.

Lemma foreach_define_wrote ps : forall c r c',
  wf c -> foreach define ps c = Return (r, c') ->
  wrote c c' [] [] /\ current c' = current c.
Proof.
  induction ps as [|p ps IH]; intros c r c' Hwf H; simpl in H.
  - apply ret_Return in H as [_ ->]. split; [by apply wrote_refl|done].
  - go_step H as Hd into c1. apply define_wrote in Hd as (W1 & Hc1 & _); [|done].
    apply IH in H as (W2 & Hc2); [|by eapply wrote_wf].
    split; [|congruence]. exact (wrote_trans _ _ _ _ _ _ _ W1 W2).
Qed.

Lemma foreach_loadSymbol_piece ss : forall c r c',
  wf c -> foreach loadSymbol ss c = Return (r, c') ->
  piece c c' (map loadInstruction ss) [].
Proof.
  induction ss as [|s ss IH]; intros c r c' Hwf H; simpl in H.
  - apply ret_Return in H as [_ ->]. by apply piece_refl.
  - go_step H as Hl into c1. apply loadSymbol_wrote in Hl as (W1 & _); [|done].
    pose proof (wrote_wf _ _ _ _ Hwf W1) as Hwf1.
    apply IH in H; [|done].
    assert (piece c c1 [loadInstruction s] []) as P1.
    { split; [done|]. split; [done|].
      split; [apply Forall_singleton, complete_loadInstruction|]. split; [|done].
      apply targetsOk_singleton, loadInstruction_opcode. }
    exact (piece_trans _ _ _ _ _ _ _ P1 H).
Qed.

(** A function literal: the body is compiled in a scope of its own into
    the code of a function, which becomes a constant; the enclosing scope
    gets the loads of the captured symbols and [OpClosure]. *)
Lemma Compile_FunctionLiteral_piece ps b :
  compilesTo NodeString b (compiledAs BlockNode b) ->
  compilesTo NodeString (ast.FunctionLiteral ps b)
    (compiledAs ExpressionNode (ast.FunctionLiteral ps b)).
Proof.
  intros Hbody c c' Hwf H. simpl in H.
  go_step H as Henter into c1. injection Henter as _ <-.
  set (c1 := {| constants := constants c;
                symbolTable := Some (NewEnclosedSymbolTable (symbolTable c));
                scopes := scopes c ++ [emptyScope];
                scopeIndex := scopeIndex c + 1 |}) in *.
  assert (wf c1) as Hwf1.
  { destruct Hwf as [Hw0 Hw1]. unfold wf, len in *. simpl.
    rewrite length_app. simpl. lia. }
  assert (current c1 = Some emptyScope) as Hc1.
  { unfold current. simpl. destruct Hwf as [Hw0 Hw1]. unfold len in Hw1.
    replace (Z.to_nat (scopeIndex c + 1)) with (length (scopes c) + 0)%nat by lia.
    by rewrite lookup_app_r, Nat.add_sub' by lia. }
  assert (tableDepth c1 = Datatypes.S (tableDepth c)) as Ht1.
  { unfold tableDepth. simpl. by destruct (symbolTable c). }
  go_step H as Hdefs into c2.
  apply foreach_define_wrote in Hdefs as (W12 & Hc12); [|done].
  pose proof (wrote_wf _ _ _ _ Hwf1 W12) as Hwf2.
  assert (offset c2 = 0) as Hoff2.
  { unfold offset. by rewrite Hc12, Hc1. }
  go_step H as Hcompile into c3.
  destruct (Hbody _ _ Hwf2 Hcompile) as (B & kB & PB & ss & DB).
  (* the two ifs *)
  assert (exists r' cin, implicitReturn c3 = Return (r', cin) /\
            (s <- theSymbolTable ;;
             let freeSymbols := FreeSymbols s in
             let numLocals := numDefinitions s in
             instructions <- leaveScope ;;
             foreach loadSymbol freeSymbols ;;
             c <- get ;;
             let compiledfunction :=
               ir.Function_ (ir.ConstAddr (len (constants c)))
                 {| ir.Instructions := instructions;
                    ir.NumLocals := numLocals;
                    ir.NumParameters := len ps |} in
             functionIndex <- addConstant compiledfunction ;;
             emit OpClosure [functionIndex; len freeSymbols] ;;
             ret (None : option Error)) cin = Return (None, c'))
    as (r' & cin & Himp & Hrest).
  { unfold implicitReturn.
    go_step H as H1. go_step H as H2. go_step H as H3. go_step H as H4.
    eexists _, _. split; [|exact H].
    rewrite (bind_eq _ _ _ _ _ H1). rewrite (bind_eq _ _ _ _ _ H2).
    rewrite (bind_eq _ _ _ _ _ H3).
    match type of H4 with (if ?b then _ else _) _ = _ => destruct b end.
    - apply ret_Return in H4 as [-> ->]. done.
    - go_step H4 as H5. apply ret_Return in H4 as [-> ->].
      by rewrite (bind_eq _ _ _ _ _ H5). }
  clear H.
  destruct (implicitReturn_closed _ _ _ _ _ _ _ Hwf2 Hoff2 PB DB Himp)
    as (F & op & Hwfin & Win & HF & Hop).
  pose proof (wrote_trans _ _ _ _ _ _ _ W12 Win) as W1in. simpl in W1in.
  destruct (wrote_current _ _ _ _ W1in) as (sc1 & scin & Hc1' & Hcin & Hdin).
  assert (sc1 = emptyScope) as -> by congruence. simpl in Hdin.
  destruct W1in as (Hi & Hk & Ht & sc1 & scin' & _ & Hs & _).
  (* back in the enclosing scope *)
  go_step Hrest as Hst. unfold theSymbolTable in Hst.
  destruct (symbolTable cin) as [s|] eqn:Hsym; [|discriminate]. injection Hst as <- <-.
  cbv zeta in Hrest. go_step Hrest as Hleave into cout.
  unfold leaveScope in Hleave.
  rewrite (bind_eq _ _ _ _ _ (currentInstructions_eq cin scin (proj1 Hwfin) Hcin)) in Hleave.
  destruct (decide _) as [|_]; [discriminate|]. rewrite Hsym in Hleave.
  injection Hleave as <- <-.
  set (cout := {| constants := constants cin; symbolTable := Outer s;
                  scopes := take (length (scopes cin) - 1) (scopes cin);
                  scopeIndex := scopeIndex cin - 1 |}) in *.
  destruct (wrote_same_scopes c cout kB Hwf) as [Wout Hcout]; simpl.
  { rewrite Hi. simpl. lia. }
  { rewrite Hs, length_insert. simpl. rewrite length_app. simpl.
    destruct Hwf as [Hw0 Hw1]. unfold len in Hw1.
    replace (Z.to_nat (scopeIndex c + 1)) with (length (scopes c)) by lia.
    replace (length (scopes c) + 1 - 1)%nat with (length (scopes c)) by lia.
    rewrite take_insert_ge by lia. by rewrite take_app_length. }
  { by rewrite Hk. }
  { rewrite Ht1 in Ht. unfold tableDepth in Ht |- *. rewrite Hsym in Ht.
    simpl in Ht |- *. destruct s as [[o|] st n free]; simpl in *; lia. }
  pose proof (wrote_wf _ _ _ _ Hwf Wout) as Hwfout.
  assert (piece c cout [] kB) as Pout.
  { split; [done|]. split; [done|]. split; [done|]. split; [apply targetsOk_nil|].
    apply PB. }
  go_step Hrest as Hloads into c5.
  apply foreach_loadSymbol_piece in Hloads; [|done].
  go_step Hrest as Hget. apply get_Return in Hget as [-> ->].
  cbv zeta in Hrest. go_step Hrest as Hadd into c6.
  apply addConstant_wrote in Hadd as [Wadd _]; [|apply Hloads].
  match type of Wadd with wrote _ _ _ [?o] => set (fn := o) in * end.
  assert (piece c5 c6 [] [fn]) as Padd.
  { split; [eapply wrote_wf; [apply Hloads|done]|]. split; [done|]. split; [done|].
    split; [apply targetsOk_nil|]. apply Forall_singleton. simpl.
    exists F, op. by rewrite Hdin. }
  go_step Hrest as Hemit into c7. apply ret_Return in Hrest as [_ ->].
  pose proof (piece_trans _ _ _ _ _ _ _ Pout
                (piece_trans _ _ _ _ _ _ _ Hloads Padd)) as P.
  destruct (value_emit _ _ _ _ _ _ _ _ P Hemit) as [P' V]; try done.
  by eexists _, _.
Qed.

End CompileFunction.


(** ** The compiler: every node of a typed tree *)

Section CompileTyped.

Import opcode compiler.

Variable NodeString : ast.Node -> string.

Lemma hasType_forallb t ns :
  forallb (hasType t) ns = true -> Forall (fun n => hasType t n = true) ns.
Proof.
  rewrite forallb_forall, Forall_forall. intros H n Hn. apply H.
  by apply list_elem_of_In.
Qed.

Lemma prefixOpcode_Some s op :
  prefixOpcode s = Some op -> complete (op, []) /\ isJump op = false /\ op <> OpPop.
Proof.
  unfold prefixOpcode. repeat (destruct (decide _)); intros [= <-]; done.
Qed.

Lemma infixOpcode_Some s op :
  infixOpcode s = Some op -> complete (op, []) /\ isJump op = false /\ op <> OpPop.
Proof.
  unfold infixOpcode. repeat (destruct (decide _)); intros [= <-]; done.
Qed.

Lemma loadSymbol_emit s c r c' :
  loadSymbol s c = Return (r, c') ->
  exists pos, emit (loadInstruction s).1 (loadInstruction s).2 c = Return (pos, c').
Proof.
  unfold loadSymbol, loadInstruction. intros H.
  destruct (Scope s); go_step H as He; apply ret_Return in H as [_ ->]; eauto.
Qed.

(** A step that writes no code. *)
Lemma wrote_piece c c' k :
  wf c -> wrote c c' [] k -> Forall shapely k -> piece c c' [] k.
Proof.
  intros Hwf W Hk. split; [by eapply wrote_wf|]. split; [done|]. split; [done|].
  split; [apply targetsOk_nil|done].
Qed.

(** The code of an expression after a piece of code. *)
Lemma piece_value c c1 c2 code1 k1 code2 k2 :
  piece c c1 code1 k1 -> piece c1 c2 code2 k2 -> valueDone c1 c2 code2 ->
  piece c c2 (code1 ++ code2) (k1 ++ k2) /\ valueDone c c2 (code1 ++ code2).
Proof.
  intros P1 P2 V. split; [by eapply piece_trans|].
  eapply valueDone_shift; [apply P1|done].
Qed.

(** Every successful compilation of a node of a typed tree writes a piece
    of code to the current scope: complete instructions whose jumps stay
    inside the piece, the constants of functions being closed code that ends
    with a return.  The last instruction is the one the compiler remembers
    as the last: one that leaves a value for an expression, the instruction
    of the statement for a statement. *)
Lemma Compile_typed n :
  forall t, hasType t n = true -> compilesTo NodeString n (compiledAs t n).
Proof.
  induction n as
    [ss IHss|e IHe|name v IHv|v IHv|ss IHss|v|v|v|v|es IHes|ps IHps|op r IHr
    |l op r IHl IHr|cond th el IHc IHt IHe|l i IHl IHi|fn args IHfn IHargs|ps b IHb]
    using Node_nested_ind;
    intros [] Ht; simpl in Ht; try discriminate.
  - (* ExpressionStatement *)
    intros c c' Hwf H. simpl in H.
    go_step H as He into c1. destruct (IHe ExpressionNode Ht _ _ Hwf He) as (code & k & P & V).
    go_step H as Hemit into c2. apply ret_Return in H as [_ ->].
    destruct (statement_emit _ _ _ _ _ _ _ _ P V Hemit) as [P' D]; [done..|].
    by eexists _, _.
  - (* LetStatement *)
    intros c c' Hwf H. simpl in H.
    go_step H as Hdef into c1. apply define_wrote in Hdef as (W1 & _ & Hscope); [|done].
    pose proof (wrote_piece _ _ _ Hwf W1 ltac:(done)) as P1.
    go_step H as Hv into c2.
    destruct (IHv ExpressionNode Ht _ _ (proj1 P1) Hv) as (code & k & P2 & V2).
    destruct (piece_value _ _ _ _ _ _ _ P1 P2 V2) as [P V]. simpl in P, V.
    go_step H as Hemit into c3. apply ret_Return in H as [_ ->].
    unfold compiledAs, finalOpcode. rewrite Hscope in Hemit.
    destruct (decide (tableDepth c = 1%nat)).
    + destruct (decide (GlobalScope = GlobalScope)); [|done].
      destruct (statement_emit _ _ _ _ _ _ _ _ P V Hemit) as [P' D]; [done..|].
      by eexists _, _.
    + destruct (decide (LocalScope = GlobalScope)); [done|].
      destruct (statement_emit _ _ _ _ _ _ _ _ P V Hemit) as [P' D]; [done..|].
      by eexists _, _.
  - (* ReturnStatement *)
    intros c c' Hwf H. simpl in H.
    go_step H as He into c1. destruct (IHv ExpressionNode Ht _ _ Hwf He) as (code & k & P & V).
    go_step H as Hemit into c2. apply ret_Return in H as [_ ->].
    destruct (statement_emit _ _ _ _ _ _ _ _ P V Hemit) as [P' D]; [done..|].
    by eexists _, _.
  - (* BlockStatement *)
    intros c c' Hwf H. simpl in H.
    apply hasType_forallb in Ht.
    destruct (each_statements (Compile NodeString) ss) with (c := c) (c' := c')
      as (code & k & P & D); [|done|done|].
    { rewrite Forall_forall in IHss, Ht |- *. intros s Hs.
      apply (IHss s Hs StatementNode). by apply Ht. }
    exists code, k. split; [done|]. by exists ss.
  - (* Identifier *)
    intros c c' Hwf H. simpl in H.
    go_step H as Hr into c1. rename x into found.
    destruct found as [symbol|]; [|by apply ret_Return in H as [? _]].
    apply resolve_wrote in Hr as [W1 _]; [|done].
    pose proof (wrote_piece _ _ _ Hwf W1 ltac:(done)) as P1.
    go_step H as Hl into c2. apply ret_Return in H as [_ ->].
    apply loadSymbol_emit in Hl as (pos & Hemit).
    destruct (loadInstruction_opcode symbol) as [Hj Hp].
    destruct (value_emit _ _ _ _ _ _ _ _ P1 Hemit (complete_loadInstruction symbol) Hj Hp)
      as [P V].
    by eexists _, _.
  - (* IntegerLiteral *)
    intros c c' Hwf H. simpl in H.
    go_step H as Ha into c1. apply addConstant_wrote in Ha as [W1 _]; [|done].
    pose proof (wrote_piece _ _ _ Hwf W1 ltac:(by apply Forall_singleton)) as P1.
    go_step H as Hemit into c2. apply ret_Return in H as [_ ->].
    destruct (value_emit _ _ _ _ _ _ _ _ P1 Hemit) as [P V]; [done..|].
    by eexists _, _.
  - (* StringLiteral *)
    intros c c' Hwf H. simpl in H.
    go_step H as Hg. apply get_Return in Hg as [-> ->].
    go_step H as Ha into c1. apply addConstant_wrote in Ha as [W1 _]; [|done].
    pose proof (wrote_piece _ _ _ Hwf W1 ltac:(by apply Forall_singleton)) as P1.
    go_step H as Hemit into c2. apply ret_Return in H as [_ ->].
    destruct (value_emit _ _ _ _ _ _ _ _ P1 Hemit) as [P V]; [done..|].
    by eexists _, _.
  - (* Boolean *)
    intros c c' Hwf H. simpl in H.
    go_step H as Hemit into c1. apply ret_Return in H as [_ ->].
    destruct v;
      destruct (value_emit _ _ _ _ _ _ _ _ (piece_refl c Hwf) Hemit) as [P V]; try done;
      by eexists _, _.
  - (* ArrayLiteral *)
    intros c c' Hwf H. simpl in H.
    apply hasType_forallb in Ht.
    go_step H as Hes into c1.
    destruct (each_pieces (Compile NodeString) es) with (c := c) (c' := c1)
      as (code & k & P1); [|done|done|].
    { rewrite Forall_forall in IHes, Ht |- *. intros x Hx c0 c0' Hwf0 H0.
      destruct (IHes x Hx ExpressionNode (Ht x Hx) _ _ Hwf0 H0) as (? & ? & ? & _).
      eauto. }
    go_step H as Hemit into c2. apply ret_Return in H as [_ ->].
    destruct (value_emit _ _ _ _ _ _ _ _ P1 Hemit) as [P V]; [done..|].
    by eexists _, _.
  - (* HashLiteral *)
    intros c c' Hwf H. simpl in H.
    go_step H as Hps into c1.
    destruct (each_pieces (@snd ast.Node (M Compiler (option Error)))
                (sortSlice (keyLess NodeString)
                   (map (fun kv : ast.Node * ast.Node =>
                           (kv.1, (try Compile NodeString kv.1 ;;
                                   try Compile NodeString kv.2 ;; ret None)))
                        ps)))
      with (c := c) (c' := c1) as (code & k & P1); [|done|done|].
    { apply Forall_forall. intros [key m] Hin%sortSlice_elem.
      apply list_elem_of_fmap in Hin as ([key' v] & [= -> ->] & Hin).
      rewrite Forall_forall in IHps. destruct (IHps _ Hin) as [IHk IHv]. simpl in *.
      rewrite forallb_forall in Ht.
      destruct (proj1 (andb_true_iff _ _) (Ht _ (proj1 (list_elem_of_In _ _) Hin)))
        as [Htk Htv]. simpl in Htk, Htv.
      intros c0 c0' Hwf0 H0.
      go_step H0 as Hk into c01.
      destruct (IHk ExpressionNode Htk _ _ Hwf0 Hk) as (codek & kk & Pk & _).
      go_step H0 as Hv into c02. apply ret_Return in H0 as [_ ->].
      destruct (IHv ExpressionNode Htv _ _ (proj1 Pk) Hv) as (codev & kv & Pv & _).
      eexists _, _. by eapply piece_trans. }
    go_step H as Hemit into c2. apply ret_Return in H as [_ ->].
    destruct (value_emit _ _ _ _ _ _ _ _ P1 Hemit) as [P V]; [done..|].
    by eexists _, _.
  - (* PrefixExpression *)
    intros c c' Hwf H. simpl in H.
    go_step H as Hr into c1. destruct (IHr ExpressionNode Ht _ _ Hwf Hr) as (code & k & P1 & _).
    destruct (prefixOpcode op) as [o|] eqn:Ho; [|by apply ret_Return in H as [? _]].
    apply prefixOpcode_Some in Ho as (? & ? & ?).
    go_step H as Hemit into c2. apply ret_Return in H as [_ ->].
    destruct (value_emit _ _ _ _ _ _ _ _ P1 Hemit) as [P V]; [done..|].
    by eexists _, _.
  - (* InfixExpression *)
    intros c c' Hwf H. simpl in H.
    apply andb_true_iff in Ht as [Htl Htr].
    destruct (decide (op = "<")).
    + go_step H as Hr into c1.
      destruct (IHr ExpressionNode Htr _ _ Hwf Hr) as (code1 & k1 & P1 & _).
      go_step H as Hl into c2.
      destruct (IHl ExpressionNode Htl _ _ (proj1 P1) Hl) as (code2 & k2 & P2 & _).
      go_step H as Hemit into c3. apply ret_Return in H as [_ ->].
      destruct (value_emit _ _ _ _ _ _ _ _ (piece_trans _ _ _ _ _ _ _ P1 P2) Hemit)
        as [P V]; [done..|].
      by eexists _, _.
    + go_step H as Hl into c1.
      destruct (IHl ExpressionNode Htl _ _ Hwf Hl) as (code1 & k1 & P1 & _).
      go_step H as Hr into c2.
      destruct (IHr ExpressionNode Htr _ _ (proj1 P1) Hr) as (code2 & k2 & P2 & _).
      destruct (infixOpcode op) as [o|] eqn:Ho; [|by apply ret_Return in H as [? _]].
      apply infixOpcode_Some in Ho as (? & ? & ?).
      go_step H as Hemit into c3. apply ret_Return in H as [_ ->].
      destruct (value_emit _ _ _ _ _ _ _ _ (piece_trans _ _ _ _ _ _ _ P1 P2) Hemit)
        as [P V]; [done..|].
      by eexists _, _.
  - (* IfExpression *)
    apply andb_true_iff in Ht as [Ht Hte]. apply andb_true_iff in Ht as [Htc Htt].
    apply Compile_IfExpression; [by apply IHc|by apply IHt|].
    destruct el as [alt|]; simpl in *; [by apply IHe|done].
  - (* IndexExpression *)
    intros c c' Hwf H. simpl in H.
    apply andb_true_iff in Ht as [Htl Hti].
    go_step H as Hl into c1.
    destruct (IHl ExpressionNode Htl _ _ Hwf Hl) as (code1 & k1 & P1 & _).
    go_step H as Hi into c2.
    destruct (IHi ExpressionNode Hti _ _ (proj1 P1) Hi) as (code2 & k2 & P2 & _).
    go_step H as Hemit into c3. apply ret_Return in H as [_ ->].
    destruct (value_emit _ _ _ _ _ _ _ _ (piece_trans _ _ _ _ _ _ _ P1 P2) Hemit)
      as [P V]; [done..|].
    by eexists _, _.
  - (* CallExpression *)
    intros c c' Hwf H. simpl in H.
    apply andb_true_iff in Ht as [Htf Hta]. apply hasType_forallb in Hta.
    go_step H as Hf into c1.
    destruct (IHfn ExpressionNode Htf _ _ Hwf Hf) as (code1 & k1 & P1 & _).
    go_step H as Hargs into c2.
    destruct (each_pieces (Compile NodeString) args) with (c := c1) (c' := c2)
      as (code2 & k2 & P2); [|apply P1|done|].
    { rewrite Forall_forall in IHargs, Hta |- *. intros x Hx c0 c0' Hwf0 H0.
      destruct (IHargs x Hx ExpressionNode (Hta x Hx) _ _ Hwf0 H0) as (? & ? & ? & _).
      eauto. }
    go_step H as Hemit into c3. apply ret_Return in H as [_ ->].
    destruct (value_emit _ _ _ _ _ _ _ _ (piece_trans _ _ _ _ _ _ _ P1 P2) Hemit)
      as [P V]; [done..|].
    by eexists _, _.
  - (* FunctionLiteral *)
    apply Compile_FunctionLiteral_piece. by apply IHb.
Qed.

End CompileTyped.


(** ** The virtual machine: good objects *)

Section Good.

Import opcode.

Lemma good_Array p elements : good (ir.Array p elements) <-> Forall good elements.
Proof.
  simpl. induction elements as [|x l IH]; [by split|].
  rewrite Forall_cons. by rewrite IH.
Qed.

Lemma good_Hash p pairs :
  good (ir.Hash p pairs)
  <-> Forall (fun kv : ir.HashKey * ir.HashPair =>
                good (ir.Key kv.2) /\ good (ir.Value kv.2)) pairs.
Proof.
  simpl. induction pairs as [|[h [key value]] l IH]; [by split|].
  rewrite Forall_cons. simpl. by rewrite IH.
Qed.

Lemma good_Closure p c :
  good (ir.Closure p c)
  <-> runnable (ir.Instructions (ir.Function c)) /\ Forall good (ir.Free c).
Proof.
  simpl. destruct c as [fn free]. simpl. split.
  - intros [Hr Hall]. split; [done|].
    induction free as [|x l IH]; [done|]. destruct Hall as [Hx Hl].
    apply Forall_cons. split; [done|by apply IH].
  - intros [Hr Hall]. split; [done|]. induction Hall; [done|]. by split.
Qed.

Lemma keeps_refl vm : keeps vm vm.
Proof. by repeat split. Qed.

Lemma keeps_trans vm1 vm2 vm3 : keeps vm1 vm2 -> keeps vm2 vm3 -> keeps vm1 vm3.
Proof.
  intros (K1 & F1 & I1 & S1 & G1) (K2 & F2 & I2 & S2 & G2).
  repeat split; try congruence; auto.
Qed.

Lemma pop_keeps vm o vm' :
  vm.pop vm = Return (o, vm') ->
  keeps vm vm' /\ vm.sp vm' = vm.sp vm - 1 /\ (Forall good (vm.stack vm) -> good o).
Proof.
  unfold vm.pop. destruct (elemAt _ _) as [x|] eqn:E; [|discriminate].
  intros [= <- <-]. split; [by repeat split|]. split; [done|].
  intros Hs. apply elemAt_Some in E as [_ E]. by eapply Forall_lookup_1.
Qed.

Lemma push_keeps vm o vm' :
  vm.push o vm = Return (None, vm') -> good o -> keeps vm vm'.
Proof.
  unfold vm.push. destruct (decide _); [discriminate|].
  destruct (assign _ _ _) as [st|] eqn:E; [|discriminate].
  intros [= <-] Ho. apply assign_Some in E as [_ ->].
  repeat split; try done. simpl. intros Hs. by apply Forall_insert.
Qed.

Lemma alloc_keeps vm p vm' : vm.alloc vm = Return (p, vm') -> keeps vm vm'.
Proof. intros [= <- <-]. by repeat split. Qed.

Lemma setSp_keeps vm n : keeps vm (vm.setSp n vm).
Proof. by repeat split. Qed.

Lemma copyFrom_good n : forall i st r,
  vm.copyFrom n i st = Return r -> Forall good st -> Forall good r.
Proof.
  induction n as [|n IH]; intros i st r H Hst; simpl in H.
  - by injection H as <-.
  - destruct (elemAt st i) as [o|] eqn:E; [|discriminate].
    destruct (vm.copyFrom n (i + 1) st) as [rest|] eqn:Hr; [|discriminate].
    injection H as <-. apply Forall_cons. split; [|by eapply IH].
    apply elemAt_Some in E as [_ E]. by eapply Forall_lookup_1.
Qed.

End Good.


(** ** The virtual machine: instructions that go on to the next one *)

Section Keeping.

Import opcode.

Variable HashKey : ir.Object -> ir.HashKey.

(** Pops the top of the stack in a hypothesis [H] about a run. *)
Ltac popped H K Hg :=
  let Hp := fresh "Hp" in
  go_step H as Hp; apply pop_keeps in Hp as (K & _ & Hg).

Lemma executeBinaryOperation_keeps op vm vm' :
  vm.executeBinaryOperation op vm = Return (None, vm') -> keeps vm vm'.
Proof.
  unfold vm.executeBinaryOperation. intros H.
  popped H K1 G1. popped H K2 G2.
  go_step H as Hl. apply lift_Return in Hl as [_ ->].
  go_step H as Hr. apply lift_Return in Hr as [_ ->].
  apply (keeps_trans _ _ _ K1), (keeps_trans _ _ _ K2).
  destruct (decide _).
  - unfold vm.executeBinaryIntegerOperation in H.
    go_step H as Hl. apply lift_Return in Hl as [_ ->].
    go_step H as Hr. apply lift_Return in Hr as [_ ->].
    destruct op; try discriminate; try (by eapply push_keeps).
    go_step H as Hd. apply lift_Return in Hd as [_ ->]. by eapply push_keeps.
  - destruct (decide _); [|discriminate].
    unfold vm.executeBinaryStringOperation in H.
    destruct (decide _); [discriminate|].
    go_step H as Hl. apply lift_Return in Hl as [_ ->].
    go_step H as Hr. apply lift_Return in Hr as [_ ->].
    go_step H as Ha. apply alloc_keeps in Ha.
    apply (keeps_trans _ _ _ Ha). by eapply push_keeps.
Qed.

Lemma good_Boolean b : good (vm.nativeBoolToBooleanObject b).
Proof. by destruct b. Qed.

Lemma executeComparison_keeps op vm vm' :
  vm.executeComparison op vm = Return (None, vm') -> keeps vm vm'.
Proof.
  unfold vm.executeComparison. intros H.
  popped H K1 G1. popped H K2 G2.
  go_step H as Hl. apply lift_Return in Hl as [_ ->].
  go_step H as Ha.
  match type of Ha with _ ?s = Return (_, ?s') => assert (s' = s) as -> end.
  { destruct (decide _); [by apply ret_Return in Ha as [_ ->]|].
    go_step Ha as Hr. apply lift_Return in Hr as [_ ->].
    by apply ret_Return in Ha as [_ ->]. }
  apply (keeps_trans _ _ _ K1), (keeps_trans _ _ _ K2).
  match type of H with (if ?b then _ else _) _ = _ => destruct b end.
  - unfold vm.executeIntegerComparison in H.
    go_step H as Hl. apply lift_Return in Hl as [_ ->].
    go_step H as Hr. apply lift_Return in Hr as [_ ->].
    destruct op; try discriminate; eapply push_keeps; try done; apply good_Boolean.
  - destruct op; try (eapply push_keeps; [done|apply good_Boolean]);
      go_step H as Hl; go_step H as Hr; discriminate.
Qed.

Lemma executeMinusOperator_keeps vm vm' :
  vm.executeMinusOperator vm = Return (None, vm') -> keeps vm vm'.
Proof.
  unfold vm.executeMinusOperator. intros H. popped H K1 G1.
  go_step H as Hl. apply lift_Return in Hl as [_ ->].
  apply (keeps_trans _ _ _ K1).
  destruct (decide _); [discriminate|].
  go_step H as Hv. apply lift_Return in Hv as [_ ->]. by eapply push_keeps.
Qed.

Lemma executeBangOperator_keeps vm vm' :
  vm.executeBangOperator vm = Return (None, vm') -> keeps vm vm'.
Proof.
  unfold vm.executeBangOperator. intros H. popped H K1 G1.
  apply (keeps_trans _ _ _ K1).
  destruct x as [| |[]| | | | | |]; by eapply push_keeps.
Qed.

Lemma lookupPair_good pairs key found :
  vm.lookupPair pairs key = Some found ->
  Forall (fun kv : ir.HashKey * ir.HashPair =>
            good (ir.Key kv.2) /\ good (ir.Value kv.2)) pairs ->
  good (ir.Value found).
Proof.
  unfold vm.lookupPair. intros H Hall.
  destruct (list_find _ pairs) as [[i [h kv]]|] eqn:E; [|discriminate].
  injection H as <-. apply list_find_Some in E as (Hl & _).
  by destruct (Forall_lookup_1 _ _ _ _ Hall Hl).
Qed.

Lemma executeIndexExpression_keeps left index vm vm' :
  good left ->
  vm.executeIndexExpression HashKey left index vm = Return (None, vm') ->
  keeps vm vm'.
Proof.
  intros Hgood H. unfold vm.executeIndexExpression in H.
  go_step H as Hl. apply lift_Return in Hl as [_ ->].
  go_step H as Ha.
  match type of Ha with _ ?s = Return (_, ?s') => assert (s' = s) as -> end.
  { destruct (decide _); [|by apply ret_Return in Ha as [_ ->]].
    go_step Ha as Hr. apply lift_Return in Hr as [_ ->].
    by apply ret_Return in Ha as [_ ->]. }
  match type of H with (if ?b then _ else _) _ = _ => destruct b end.
  - unfold vm.executeArrayIndex in H. destruct left; try discriminate.
    apply good_Array in Hgood.
    go_step H as Hi. apply lift_Return in Hi as [_ ->].
    destruct (decide _); [by eapply push_keeps|].
    go_step H as He. apply lift_Return in He as [He ->].
    eapply push_keeps; [done|]. apply elemAt_Some in He as [_ He].
    by eapply Forall_lookup_1.
  - destruct (decide _); [|discriminate].
    unfold vm.executeHashIndex in H. destruct left; try discriminate.
    apply good_Hash in Hgood.
    destruct (ir.Hashable index); [|by go_step H as Ht].
    destruct (vm.lookupPair _ _) as [found|] eqn:E; [|by eapply push_keeps].
    eapply push_keeps; [done|]. by eapply lookupPair_good.
Qed.

Lemma buildHashFrom_good n : forall i acc vm r vm',
  vm.buildHashFrom HashKey n i acc vm = Return (inl r, vm') ->
  Forall good (vm.stack vm) ->
  Forall (fun kv : ir.HashKey * ir.HashPair =>
            good (ir.Key kv.2) /\ good (ir.Value kv.2)) acc ->
  vm' = vm /\
  Forall (fun kv : ir.HashKey * ir.HashPair =>
            good (ir.Key kv.2) /\ good (ir.Value kv.2)) r.
Proof.
  induction n as [|n IH]; intros i acc vm r vm' H Hst Hacc; simpl in H.
  - by apply ret_Return in H as [[= <-] ->].
  - go_step H as Hg. apply get_Return in Hg as [-> ->].
    go_step H as Hk. apply lift_Return in Hk as [Hk ->].
    go_step H as Hv. apply lift_Return in Hv as [Hv ->].
    destruct (ir.Hashable _).
    + eapply IH; [exact H|done|]. apply Forall_cons. split; [|done]. simpl.
      apply elemAt_Some in Hk as [_ Hk]. apply elemAt_Some in Hv as [_ Hv].
      split; by eapply Forall_lookup_1.
    + go_step H as Ht. by apply ret_Return in H as [? _].
Qed.

Lemma buildHash_good startIndex endIndex vm hash vm' :
  vm.buildHash HashKey startIndex endIndex vm = Return (inl hash, vm') ->
  Forall good (vm.stack vm) ->
  keeps vm vm' /\ vm.sp vm' = vm.sp vm /\ good hash.
Proof.
  unfold vm.buildHash. intros H Hst. go_step H as Hb.
  destruct x as [pairs|err]; [|by apply ret_Return in H as [? _]].
  apply buildHashFrom_good in Hb as [-> Hpairs]; [|done..].
  go_step H as Ha. apply ret_Return in H as [Heq ->]. injection Heq as ->.
  split; [by eapply alloc_keeps|]. split; [by injection Ha as _ <-|].
  by apply good_Hash.
Qed.

Lemma buildArray_good startIndex endIndex vm array vm' :
  vm.buildArray startIndex endIndex vm = Return (array, vm') ->
  Forall good (vm.stack vm) ->
  keeps vm vm' /\ good array.
Proof.
  unfold vm.buildArray. intros H Hst.
  go_step H as Hg. apply get_Return in Hg as [-> ->].
  go_step H as Hc. apply lift_Return in Hc as [Hc ->].
  go_step H as Ha. apply ret_Return in H as [-> ->].
  apply alloc_keeps in Ha. split; [done|]. apply good_Array.
  by eapply copyFrom_good.
Qed.

Lemma pushClosure_keeps constIndex numFree vm vm' :
  vm.pushClosure constIndex numFree vm = Return (None, vm') ->
  Forall good (vm.constants vm) -> Forall good (vm.stack vm) ->
  keeps vm vm'.
Proof.
  unfold vm.pushClosure. intros H Hk Hst.
  go_step H as Hg. apply get_Return in Hg as [-> ->].
  apply bind_Return in H as (constant & vm1 & Hc & H).
  apply lift_Return in Hc as [Hc ->].
  destruct constant; try discriminate.
  apply bind_Return in H as (free & vm1 & Hf & H).
  apply lift_Return in Hf as [Hf ->].
  go_step H as Hp. injection Hp as _ <-.
  go_step H as Ha. apply alloc_keeps in Ha.
  apply (keeps_trans _ (vm.setSp (vm.sp vm - numFree) vm)); [apply setSp_keeps|].
  apply (keeps_trans _ _ _ Ha). eapply push_keeps; [done|].
  apply good_Closure. simpl. split; [|by eapply copyFrom_good].
  apply elemAt_Some in Hc as [_ Hc]. exact (Forall_lookup_1 _ _ _ _ Hk Hc).
Qed.

End Keeping.


Section Executing.

Import opcode.

Variable HashKey : ir.Object -> ir.HashKey.

Lemma keeps_setStack vm st :
  Forall good st -> keeps vm (vm.setStack st vm).
Proof. by repeat split. Qed.

Lemma keeps_setGlobals vm g :
  Forall good g -> keeps vm (vm.setGlobals g vm).
Proof. by repeat split. Qed.

Lemma keeps_stack vm vm' :
  keeps vm vm' -> Forall good (vm.stack vm) -> Forall good (vm.stack vm').
Proof. intros (_ & _ & _ & H & _). exact H. Qed.

Lemma keeps_globals vm vm' :
  keeps vm vm' -> Forall good (vm.globals vm) -> Forall good (vm.globals vm').
Proof. intros (_ & _ & _ & _ & H). exact H. Qed.

(** Every instruction but the jumps, the call and the returns leaves the
    machine right before the next instruction, with its frames as they
    were. *)
Lemma execute_keeps vm f op vm' :
  1 <= vm.framesIndex vm ->
  vm.frames vm !! Z.to_nat (vm.framesIndex vm - 1) = Some (Some f) ->
  Forall good (vm.constants vm) ->
  Forall good (vm.stack vm) ->
  Forall good (vm.globals vm) ->
  Forall good (ir.Free (vm.cl f).2) ->
  op ∉ [OpJump; OpJumpNotTruthy; OpCall; OpReturnValue; OpReturn] ->
  vm.execute HashKey op (vm.Instructions f) (vm.ip f + 1) (atIp vm f (vm.ip f + 1))
  = Return (None, vm') ->
  keeps (atIp vm f (vm.ip f + sizeOf op)) vm'.
Proof.
  intros Hi Hf Hk Hst Hgl Hfree Hop H.
  pose proof (advanceIp_after_fetch vm f 1 Hi Hf) as A1.
  pose proof (advanceIp_after_fetch vm f 2 Hi Hf) as A2.
  pose proof (advanceIp_after_fetch vm f 3 Hi Hf) as A3.
  assert (forall n, vm.currentFrame (atIp vm f n) = Return (movedTo f n, atIp vm f n)) as Hcur.
  { intros n. apply currentFrame_eq; [done|]. by apply atIp_frame. }
  destruct op; unfold vm.execute in H;
    try (exfalso; apply Hop; by repeat constructor);
    match goal with
    | |- keeps (atIp _ _ (_ + sizeOf ?o)) _ =>
        let w := eval vm_compute in (sizeOf o) in
        change (sizeOf o) with w;
        replace (vm.ip f + w) with (vm.ip f + 1 + (w - 1)) by lia;
        simpl (_ - 1)
    end;
    rewrite ?Z.add_0_r.
  - (* OpConstant *)
    go_step H as Hr. apply lift_Return in Hr as [_ ->].
    rewrite (bind_eq _ _ _ _ _ A2) in H.
    go_step H as Hg. apply get_Return in Hg as [-> ->].
    go_step H as Hc. apply lift_Return in Hc as [Hc ->].
    eapply push_keeps; [done|]. apply elemAt_Some in Hc as [_ Hc].
    exact (Forall_lookup_1 _ _ _ _ Hk Hc).
  - by eapply executeBinaryOperation_keeps.
  - by eapply executeBinaryOperation_keeps.
  - by eapply executeBinaryOperation_keeps.
  - by eapply executeBinaryOperation_keeps.
  - (* OpPop *)
    go_step H as Hp. apply pop_keeps in Hp as (K & _). by apply ret_Return in H as [_ ->].
  - by eapply push_keeps.
  - by eapply push_keeps.
  - by eapply executeComparison_keeps.
  - by eapply executeComparison_keeps.
  - by eapply executeComparison_keeps.
  - by eapply executeMinusOperator_keeps.
  - by eapply executeBangOperator_keeps.
  - by eapply push_keeps.
  - (* OpSetGlobal *)
    go_step H as Hr. apply lift_Return in Hr as [_ ->].
    rewrite (bind_eq _ _ _ _ _ A2) in H.
    go_step H as Hp. apply pop_keeps in Hp as (K & _ & G).
    go_step H as Hg. apply get_Return in Hg as [-> ->].
    go_step H as Ha. apply lift_Return in Ha as [Ha ->].
    go_step H as Hput. injection Hput as _ <-. apply ret_Return in H as [_ ->].
    apply (keeps_trans _ _ _ K). apply keeps_setGlobals.
    apply assign_Some in Ha as [_ ->]. apply Forall_insert; [|by apply G].
    by apply (keeps_globals _ _ K).
  - (* OpGetGlobal *)
    go_step H as Hr. apply lift_Return in Hr as [_ ->].
    rewrite (bind_eq _ _ _ _ _ A2) in H.
    go_step H as Hg. apply get_Return in Hg as [-> ->].
    go_step H as Ho. apply lift_Return in Ho as [Ho ->].
    eapply push_keeps; [done|]. apply elemAt_Some in Ho as [_ Ho].
    exact (Forall_lookup_1 _ _ _ _ Hgl Ho).
  - (* OpSetLocal *)
    go_step H as Hr. apply lift_Return in Hr as [_ ->].
    rewrite (bind_eq _ _ _ _ _ A1) in H.
    rewrite (bind_eq _ _ _ _ _ (Hcur _)) in H.
    go_step H as Hp. apply pop_keeps in Hp as (K & _ & G).
    go_step H as Hg. apply get_Return in Hg as [-> ->].
    go_step H as Ha. apply lift_Return in Ha as [Ha ->].
    go_step H as Hput. injection Hput as _ <-. apply ret_Return in H as [_ ->].
    apply (keeps_trans _ _ _ K). apply keeps_setStack.
    apply assign_Some in Ha as [_ ->]. apply Forall_insert; [|by apply G].
    by apply (keeps_stack _ _ K).
  - (* OpGetLocal *)
    go_step H as Hr. apply lift_Return in Hr as [_ ->].
    rewrite (bind_eq _ _ _ _ _ A1) in H.
    rewrite (bind_eq _ _ _ _ _ (Hcur _)) in H.
    go_step H as Hg. apply get_Return in Hg as [-> ->].
    go_step H as Ho. apply lift_Return in Ho as [Ho ->].
    eapply push_keeps; [done|]. apply elemAt_Some in Ho as [_ Ho].
    exact (Forall_lookup_1 _ _ _ _ Hst Ho).
  - (* OpGetFree *)
    go_step H as Hr. apply lift_Return in Hr as [_ ->].
    rewrite (bind_eq _ _ _ _ _ A1) in H.
    rewrite (bind_eq _ _ _ _ _ (Hcur _)) in H.
    go_step H as Ho. apply lift_Return in Ho as [Ho ->].
    eapply push_keeps; [done|]. apply elemAt_Some in Ho as [_ Ho].
    exact (Forall_lookup_1 _ _ _ _ Hfree Ho).
  - (* OpArray *)
    go_step H as Hr. apply lift_Return in Hr as [_ ->].
    rewrite (bind_eq _ _ _ _ _ A2) in H.
    go_step H as Hg. apply get_Return in Hg as [-> ->].
    go_step H as Hb. apply buildArray_good in Hb as [K G]; [|done].
    go_step H as Hg. apply get_Return in Hg as [-> ->].
    go_step H as Hput. injection Hput as _ <-.
    apply (keeps_trans _ _ _ K).
    eapply keeps_trans; [apply setSp_keeps|]. by eapply push_keeps.
  - (* OpHash *)
    go_step H as Hr. apply lift_Return in Hr as [_ ->].
    rewrite (bind_eq _ _ _ _ _ A2) in H.
    go_step H as Hg. apply get_Return in Hg as [-> ->].
    apply bind_Return in H as (built & vm1 & Hb & H).
    destruct built as [hash|err]; [|by apply ret_Return in H as [? _]].
    apply buildHash_good in Hb as (K & _ & G); [|done].
    go_step H as Hg. apply get_Return in Hg as [-> ->].
    go_step H as Hput. injection Hput as _ <-.
    apply (keeps_trans _ _ _ K).
    eapply keeps_trans; [apply setSp_keeps|]. by eapply push_keeps.
  - (* OpIndex *)
    go_step H as Hp. apply pop_keeps in Hp as (K1 & _ & G1).
    go_step H as Hp. apply pop_keeps in Hp as (K2 & _ & G2).
    apply (keeps_trans _ _ _ K1), (keeps_trans _ _ _ K2).
    eapply executeIndexExpression_keeps; [|done].
    apply G2. by apply (keeps_stack _ _ K1).
  - (* OpClosure *)
    go_step H as Hr. apply lift_Return in Hr as [_ ->].
    go_step H as Hr. apply lift_Return in Hr as [_ ->].
    rewrite (bind_eq _ _ _ _ _ A3) in H.
    by eapply pushClosure_keeps.
Qed.

End Executing.


(** ** The virtual machine: jumps, calls and returns *)

Section Control.

Import opcode.

Variable HashKey : ir.Object -> ir.HashKey.

Lemma setIp_atIp vm f n m :
  1 <= vm.framesIndex vm ->
  vm.frames vm !! Z.to_nat (vm.framesIndex vm - 1) = Some (Some f) ->
  vm.setIp m (atIp vm f n) = Return (tt, atIp vm f m).
Proof.
  intros Hi Hf.
  rewrite (setIp_eq (atIp vm f n) (movedTo f n)); [|done|by apply atIp_frame].
  by rewrite atIp_atIp.
Qed.

(** [OpJump] sets the instruction pointer right before its operand. *)
Lemma execute_jump vm f vm' :
  1 <= vm.framesIndex vm ->
  vm.frames vm !! Z.to_nat (vm.framesIndex vm - 1) = Some (Some f) ->
  vm.execute HashKey OpJump (vm.Instructions f) (vm.ip f + 1) (atIp vm f (vm.ip f + 1))
  = Return (None, vm') ->
  exists t, ReadUint16 (vm.Instructions f) (vm.ip f + 1 + 1) = Return t /\
    vm' = atIp vm f (t - 1).
Proof.
  intros Hi Hf H. unfold vm.execute in H.
  apply bind_Return in H as (t & vm1 & Hr & H). apply lift_Return in Hr as [Hr ->].
  rewrite (bind_eq _ _ _ _ _ (setIp_atIp vm f _ (t - 1) Hi Hf)) in H.
  apply ret_Return in H as [_ ->]. by exists t.
Qed.

(** A machine that kept the frames of [atIp vm f n] and then moved the
    instruction pointer to [m] kept the frames of [atIp vm f m]. *)
Lemma keeps_atIp vm f n vm1 m :
  vm.frames vm !! Z.to_nat (vm.framesIndex vm - 1) = Some (Some f) ->
  keeps (atIp vm f n) vm1 ->
  keeps (atIp vm f m) (atIp vm1 (movedTo f n) m).
Proof.
  intros Hf (K & F & I & S & G). repeat split; try done.
  simpl in *. rewrite F, I. by rewrite list_insert_insert_eq.
Qed.

(** [OpJumpNotTruthy] pops the condition and goes on, or sets the
    instruction pointer right before its operand. *)
Lemma execute_jumpNotTruthy vm f vm' :
  1 <= vm.framesIndex vm ->
  vm.frames vm !! Z.to_nat (vm.framesIndex vm - 1) = Some (Some f) ->
  vm.execute HashKey OpJumpNotTruthy (vm.Instructions f) (vm.ip f + 1)
    (atIp vm f (vm.ip f + 1))
  = Return (None, vm') ->
  exists t, ReadUint16 (vm.Instructions f) (vm.ip f + 1 + 1) = Return t /\
    (keeps (atIp vm f (vm.ip f + 1 + 2)) vm' \/ keeps (atIp vm f (t - 1)) vm').
Proof.
  intros Hi Hf H. unfold vm.execute in H.
  apply bind_Return in H as (t & vm1 & Hr & H). apply lift_Return in Hr as [Hr ->].
  rewrite (bind_eq _ _ _ _ _ (advanceIp_after_fetch vm f 2 Hi Hf)) in H.
  apply bind_Return in H as (condition & vm1 & Hp & H).
  apply pop_keeps in Hp as (K & _ & _).
  exists t. split; [done|].
  destruct (vm.isTruthy condition).
  - go_step H as H1. apply ret_Return in H1 as [_ ->].
    apply ret_Return in H as [_ ->]. by left.
  - go_step H as H1. apply ret_Return in H as [_ ->]. right.
    pose proof K as (_ & F & I & _).
    rewrite (setIp_eq vm1 (movedTo f (vm.ip f + 1 + 2))) in H1.
    + injection H1 as _ <-. by apply keeps_atIp.
    + by rewrite I.
    + rewrite F, I. by apply atIp_frame.
Qed.

(** [OpCall] that returns no error: the callee is a closure on the stack,
    the frame array has room, and the machine is as [afterCall] says. *)
Lemma execute_call vm f vm' :
  1 <= vm.framesIndex vm ->
  vm.frames vm !! Z.to_nat (vm.framesIndex vm - 1) = Some (Some f) ->
  Forall good (vm.stack vm) ->
  vm.execute HashKey OpCall (vm.Instructions f) (vm.ip f + 1) (atIp vm f (vm.ip f + 1))
  = Return (None, vm') ->
  exists numArgs p c,
    good (ir.Closure p c) /\
    vm.framesIndex vm < len (vm.frames vm) /\
    vm' = afterCall vm f (p, c) numArgs.
Proof.
  intros Hi Hf Hst H. unfold vm.execute in H.
  apply bind_Return in H as (numArgs & vm1 & Hr & H). apply lift_Return in Hr as [Hr ->].
  rewrite (bind_eq _ _ _ _ _ (advanceIp_after_fetch vm f 1 Hi Hf)) in H.
  unfold vm.executeCall in H.
  go_step H as Hg. apply get_Return in Hg as [-> ->].
  apply bind_Return in H as (callee & vm1 & Hc & H). apply lift_Return in Hc as [Hc ->].
  destruct callee as [| | | | | | | |p c]; try discriminate.
  exists numArgs, p, c. simpl in Hc. apply elemAt_Some in Hc as [_ Hc].
  split; [exact (Forall_lookup_1 _ _ _ _ Hst Hc)|].
  unfold vm.callClosure in H. simpl in H. destruct (decide _); [discriminate|].
  go_step H as Hg. apply get_Return in Hg as [-> ->].
  apply bind_Return in H as (u & vm1 & Hp & H).
  unfold vm.pushFrame in Hp.
  destruct (assign _ _ _) as [fs|] eqn:Ha; [|discriminate].
  injection Hp as _ <-. apply assign_Some in Ha as [Hroom ->].
  go_step H as Hg. apply get_Return in Hg as [-> ->].
  go_step H as Hput. injection Hput as _ <-. apply ret_Return in H as [_ ->].
  simpl in Hroom. unfold len in Hroom. rewrite length_insert in Hroom.
  split; [unfold len; lia|]. done.
Qed.

(** A return that returns no error: the frame has a base pointer of at
    least 1, and the machine is as [afterReturn] says, with a good value. *)
Lemma execute_return vm f op vm' :
  1 <= vm.framesIndex vm ->
  vm.frames vm !! Z.to_nat (vm.framesIndex vm - 1) = Some (Some f) ->
  Forall good (vm.stack vm) ->
  op = OpReturnValue \/ op = OpReturn ->
  vm.execute HashKey op (vm.Instructions f) (vm.ip f + 1) (atIp vm f (vm.ip f + 1))
  = Return (None, vm') ->
  exists v, good v /\ 1 <= vm.basePointer f /\ vm' = afterReturn vm f v.
Proof.
  intros Hi Hf Hst Hop H.
  assert (forall v vm1,
            vm.stack vm1 = vm.stack vm -> vm.constants vm1 = vm.constants vm ->
            vm.globals vm1 = vm.globals vm -> vm.allocated vm1 = vm.allocated vm ->
            vm.frames vm1 = vm.frames (atIp vm f (vm.ip f + 1)) ->
            vm.framesIndex vm1 = vm.framesIndex vm ->
            (frame <- vm.popFrame ;;
             vm <- get ;;
             put (vm.setSp (vm.basePointer frame - 1) vm) ;;
             vm.push v) vm1 = Return (None, vm') ->
            1 <= vm.basePointer f /\ vm' = afterReturn vm f v) as Hrest.
  { intros v vm1 Hs1 Hk1 Hg1 Ha1 Hf1 Hi1 H1.
    apply bind_Return in H1 as (frame & vm2 & Hp & H1).
    unfold vm.popFrame in Hp. simpl in Hp. rewrite Hf1, Hi1 in Hp.
    assert (elemAt (vm.frames (atIp vm f (vm.ip f + 1))) (vm.framesIndex vm - 1)
            = Return (Some (movedTo f (vm.ip f + 1)))) as Hel.
    { apply elemAt_Some. split; [lia|]. by apply atIp_frame. }
    rewrite Hel in Hp. injection Hp as <- <-.
    go_step H1 as Hg. apply get_Return in Hg as [-> ->].
    go_step H1 as Hput. injection Hput as _ <-.
    unfold vm.push in H1. simpl in H1. destruct (decide _); [discriminate|].
    destruct (assign _ _ _) as [st|] eqn:Ha; [|discriminate].
    injection H1 as <-. apply assign_Some in Ha as [Hr ->].
    split; [lia|]. unfold afterReturn, vm.setSp, vm.setStack, vm.setFramesIndex. simpl.
    by rewrite Hs1, Hk1, Hg1, Ha1, Hf1. }
  unfold vm.execute in H. destruct Hop as [-> | ->].
  - apply bind_Return in H as (v & vm1 & Hp & H).
    pose proof Hp as Hp'. apply pop_keeps in Hp' as (_ & _ & G).
    unfold vm.pop in Hp. destruct (elemAt _ _); [|discriminate]. injection Hp as -> <-.
    exists v. split; [by apply G|]. by apply Hrest in H.
  - exists vm.Null. split; [done|]. by apply Hrest in H.
Qed.

End Control.


(** ** The virtual machine: the states of a run *)

Section Stepping.

Import opcode.

Variable HashKey : ir.Object -> ir.HashKey.

Lemma closed_size code op : closed code op -> 1 <= size code.
Proof.
  intros (init & operands & -> & C & _). rewrite size_app.
  apply Forall_app in C as [_ C]. pose proof (Forall_inv C) as Hc.
  rewrite (size_singleton _ Hc). pose proof (size_nonneg init).
  pose proof (sizeOf_pos op). simpl. lia.
Qed.

(** The last instruction of closed code. *)
Lemma closed_last code op k i :
  closed code op -> code !! k = Some i -> Datatypes.S k = length code -> i.1 = op.
Proof.
  intros (init & operands & -> & _) Hk Hlen.
  rewrite length_app in Hlen. simpl in Hlen.
  rewrite lookup_app_r in Hk by lia.
  replace (k - length init)%nat with 0%nat in Hk by lia. by injection Hk as <-.
Qed.

(** A jump of closed code goes to the start of an instruction. *)
Lemma closed_target code op k o operands :
  closed code op -> size code <= 65536 ->
  code !! k = Some (o, operands) -> isJump o = true ->
  exists k', (k' < length code)%nat /\ operands = [size (take k' code)] /\
    0 <= size (take k' code) < size code /\
    ReadUint16 (assemble code) (size (take k code) + 1) = Return (size (take k' code)).
Proof.
  intros (init & ops & Hcode & C & T) Hsmall Hk Hj.
  destruct (T k o operands Hk Hj) as (k' & Hk' & ->).
  assert (k' < length code)%nat as Hlt.
  { rewrite Hcode, length_app. simpl. lia. }
  exists k'. split; [done|]. rewrite Z.add_0_l. split; [done|].
  assert (0 <= size (take k' code) < size code) as Hrange.
  { pose proof (size_nonneg (take k' code)).
    apply lookup_lt_is_Some in Hlt as [i Hi].
    pose proof (size_take_lt _ _ _ Hi (Forall_lookup_1 _ _ _ _ C Hi)).
    pose proof (sizeOf_pos i.1). lia. }
  split; [done|]. rewrite Z.add_0_l in Hk.
  apply (assemble_target code k o); [done|done|lia].
Qed.

(** The current frame moved to the start of an instruction of its code. *)
Lemma landed_vmOk main mainOp vm f n vm' code op k :
  vmOk main mainOp vm ->
  vm.frames vm !! Z.to_nat (vm.framesIndex vm - 1) = Some (Some f) ->
  vm.Instructions f = assemble code -> closed code op -> size code <= 65536 ->
  (if decide (Z.to_nat (vm.framesIndex vm - 1) = 0%nat) then eq mainOp else isReturn) op ->
  (k <= length code)%nat -> n + 1 = size (take k code) ->
  keeps (atIp vm f n) vm' ->
  vmOk main mainOp vm'.
Proof.
  intros (Hk & Hst & Hgl & Hi & Hfr) Hf Hins Hcl Hsmall Hfin Hle Hn (K & F & I & S & G).
  simpl in K, F, I, S, G.
  split; [by rewrite K|]. split; [by apply S|]. split; [by apply G|].
  split; [by rewrite I|]. rewrite I, F. intros i Hlt.
  destruct (Hfr i Hlt) as (f0 & Hf0 & Hok & Hbp & Hsus).
  destruct (decide (i = Z.to_nat (vm.framesIndex vm - 1))) as [->|Hne].
  - assert (f0 = f) as -> by congruence.
    exists (movedTo f n). split.
    { apply list_lookup_insert_eq. by apply lookup_lt_Some in Hf. }
    split; [|split; [done|lia]].
    split; [apply Hok|]. by exists code, op, k.
  - exists f0. by rewrite list_lookup_insert_ne.
Qed.

(** One iteration of the loop keeps the machine in a state of a run of
    compiled code, and the loop goes on after it unless the iteration
    executed the last instruction of the program. *)
Lemma step_vmOk main mainOp vm vm' :
  mainOp <> OpCall ->
  vmOk main mainOp vm ->
  vm.running vm = Return (true, vm) ->
  vm.step HashKey vm = Return (None, vm') ->
  vmOk main mainOp vm' /\
  (vm.running vm' = Return (true, vm')
   \/ (vm.framesIndex vm = 1 /\
       exists f, fetches vm f mainOp /\
         vm.ip f + 1 + sizeOf mainOp = len (vm.Instructions f))).
Proof.
  intros Hmain Hok Hrun H.
  pose proof Hok as (Hk & Hst & Hgl & Hi & Hfr).
  destruct (Hfr (Z.to_nat (vm.framesIndex vm - 1)) ltac:(lia))
    as (f & Hf & (Hfree & code & opf & k & Hins & Hcl & Hfin & Hsmall & Hle & Hip)
        & Hbp & _).
  (* the instruction at the instruction pointer *)
  unfold vm.running in Hrun.
  rewrite (bind_eq _ _ _ _ _ (currentFrame_eq vm f Hi Hf)) in Hrun.
  apply ret_Return in Hrun as [Hrun _]. symmetry in Hrun.
  apply bool_decide_eq_true in Hrun.
  assert (size code = len (vm.Instructions f)) as Hsize by (by rewrite Hins).
  assert (k < length code)%nat as Hlt.
  { destruct (decide (k = length code)) as [->|]; [|lia].
    rewrite firstn_all in Hip. lia. }
  apply lookup_lt_is_Some in Hlt as [[op operands] Hop].
  pose proof Hcl as (init & opsf & Hcode & Hcomplete & _).
  pose proof (Forall_lookup_1 _ _ _ _ Hcomplete Hop) as Hc.
  pose proof (size_take_S _ _ _ Hop Hc) as Hnext. simpl in Hnext.
  pose proof (size_take_le code (Datatypes.S k)) as Hnextle.
  assert (fetches vm f op) as Hfetch.
  { split; [done|]. split; [done|]. rewrite Hip, Hins. by eapply assemble_opcode. }
  rewrite (step_fetch HashKey vm f op Hfetch) in H.
  (* what follows when the machine is right before the next instruction *)
  assert (forall vm1, keeps (atIp vm f (vm.ip f + sizeOf op)) vm1 ->
            op <> OpReturnValue -> op <> OpReturn -> op <> OpCall ->
            vmOk main mainOp vm1 /\
            (vm.running vm1 = Return (true, vm1)
             \/ (vm.framesIndex vm = 1 /\
                 exists f, fetches vm f mainOp /\
                   vm.ip f + 1 + sizeOf mainOp = len (vm.Instructions f)))) as Hnextok.
  { intros vm1 K Hn1 Hn2 Hn3. split.
    { eapply (landed_vmOk main mainOp vm f _ vm1 code opf (Datatypes.S k)); try done.
      - apply lookup_lt_Some in Hop. lia.
      - lia. }
    destruct K as (_ & F & I & _). simpl in F, I.
    destruct (decide (size (take (Datatypes.S k) code) < size code)) as [Hmore|Hend].
    - left. unfold vm.running.
      rewrite (bind_eq _ _ _ _ _
                 (currentFrame_eq vm1 (movedTo f (vm.ip f + sizeOf op)) ltac:(lia)
                    ltac:(rewrite F, I; apply list_lookup_insert_eq;
                          by apply lookup_lt_Some in Hf))).
      unfold ret. do 2 f_equal. apply bool_decide_eq_true. simpl.
      change (vm.Instructions (movedTo f (vm.ip f + sizeOf op))) with (vm.Instructions f).
      lia.
    - right.
      assert (Datatypes.S k = length code) as Hlast.
      { apply size_take_end; [done| |lia]. apply lookup_lt_Some in Hop. lia. }
      pose proof (closed_last _ _ _ _ Hcl Hop Hlast) as Hopf. simpl in Hopf. subst opf.
      destruct (decide (Z.to_nat (vm.framesIndex vm - 1) = 0%nat)) as [Hz|Hnz].
      + subst op. split; [lia|]. exists f. split; [done|]. lia.
      + destruct Hfin; congruence. }
  destruct (decide (op ∈ [OpJump; OpJumpNotTruthy; OpCall; OpReturnValue; OpReturn]))
    as [Hctl|Hsimple].
  2: { apply Hnextok.
       - by eapply execute_keeps.
       - intros ->. apply Hsimple. by repeat constructor.
       - intros ->. apply Hsimple. by repeat constructor.
       - intros ->. apply Hsimple. by repeat constructor. }
  assert (op = OpJump \/ op = OpJumpNotTruthy \/ op = OpCall
          \/ op = OpReturnValue \/ op = OpReturn) as Hcase.
  { repeat (apply elem_of_cons in Hctl as [->|Hctl]; [tauto|]).
    by apply elem_of_nil in Hctl. }
  clear Hctl.
  (* after a jump to the start of an instruction the loop goes on *)
  assert (forall vm1 t, isJump op = true ->
            ReadUint16 (vm.Instructions f) (vm.ip f + 1 + 1) = Return t ->
            keeps (atIp vm f (t - 1)) vm1 ->
            vmOk main mainOp vm1 /\ vm.running vm1 = Return (true, vm1)) as Hjump.
  { intros vm1 t Hj Hread K.
    destruct (closed_target _ _ _ _ _ Hcl Hsmall Hop Hj) as (k' & Hk' & _ & Hrange & Hread').
    rewrite Hins, Hip, Hread' in Hread. injection Hread as <-.
    split.
    { eapply (landed_vmOk main mainOp vm f _ vm1 code opf k'); try done; lia. }
    destruct K as (_ & F & I & _). simpl in F, I.
    unfold vm.running.
    rewrite (bind_eq _ _ _ _ _
               (currentFrame_eq vm1 (movedTo f (size (take k' code) - 1)) ltac:(lia)
                  ltac:(rewrite F, I; apply list_lookup_insert_eq;
                        by apply lookup_lt_Some in Hf))).
    unfold ret. do 2 f_equal. apply bool_decide_eq_true. simpl.
    change (vm.Instructions (movedTo f (size (take k' code) - 1)))
      with (vm.Instructions f).
    lia. }
  destruct Hcase as [->|[->|[->|Hret]]].
  - (* OpJump *)
    apply execute_jump in H as (t & Hread & ->); [|done..].
    destruct (Hjump (atIp vm f (t - 1)) t eq_refl Hread (keeps_refl _)) as [? ?]. auto.
  - (* OpJumpNotTruthy *)
    apply execute_jumpNotTruthy in H as (t & Hread & [K|K]); [| |done..].
    + apply Hnextok; try done.
      replace (vm.ip f + sizeOf OpJumpNotTruthy) with (vm.ip f + 1 + 2); [done|].
      change (sizeOf OpJumpNotTruthy) with 3. lia.
    + destruct (Hjump vm' t eq_refl Hread K) as [? ?]. auto.
  - (* OpCall *)
    apply execute_call in H as (numArgs & p & c & Hgood & Hroom & ->); [|done..].
    apply good_Closure in Hgood as [[(fcode & fop & Hfins & Hfcl & Hfret) Hfsmall] Hffree].
    assert (size (take (Datatypes.S k) code) < size code) as Hmore.
    { destruct (decide (size (take (Datatypes.S k) code) < size code)); [done|].
      assert (Datatypes.S k = length code) as Hlast.
      { apply size_take_end; [done| |lia]. apply lookup_lt_Some in Hop. lia. }
      pose proof (closed_last _ _ _ _ Hcl Hop Hlast) as Hopf. simpl in Hopf. subst opf.
      destruct (decide (Z.to_nat (vm.framesIndex vm - 1) = 0%nat)).
      - congruence.
      - destruct Hfin; discriminate. }
    change (sizeOf OpCall) with 2 in Hnext.
    assert (length (vm.frames vm) > Z.to_nat (vm.framesIndex vm))%nat as Hroom'.
    { unfold len in Hroom. lia. }
    split.
    + split; [done|]. split; [done|]. split; [done|]. split; [simpl; lia|].
      simpl. intros i Hlt.
      destruct (decide (i = Z.to_nat (vm.framesIndex vm))) as [->|Hne].
      * (* the frame of the callee *)
        exists (vm.NewFrame (p, c) (vm.sp vm - numArgs)).
        split; [by apply list_lookup_insert_eq; rewrite length_insert; lia|].
        destruct (decide (Z.to_nat (vm.framesIndex vm) = 0%nat)) as [Hz|_]; [lia|].
        split; [|split; [lia|lia]].
        split; [done|]. exists fcode, fop, 0%nat.
        split; [done|]. split; [done|]. split; [done|].
        split; [by rewrite Hfins in Hfsmall|]. split; [lia|done].
      * rewrite list_lookup_insert_ne by done.
        destruct (decide (i = Z.to_nat (vm.framesIndex vm - 1))) as [->|Hne'].
        -- (* the frame of the caller *)
           exists (movedTo f (vm.ip f + 1 + 1)).
           split; [apply list_lookup_insert_eq; by apply lookup_lt_Some in Hf|].
           split; [|split; [done|]].
           ++ split; [done|]. exists code, opf, (Datatypes.S k).
              split; [done|]. split; [done|]. split; [done|]. split; [done|].
              split; [apply lookup_lt_Some in Hop; lia|]. simpl. lia.
           ++ intros _. simpl.
              change (vm.Instructions (movedTo f (vm.ip f + 1 + 1)))
                with (vm.Instructions f).
              lia.
        -- rewrite list_lookup_insert_ne by done.
           destruct (Hfr i ltac:(lia)) as (f0 & Hf0 & Hok0 & Hbp0 & Hsus0).
           exists f0. split; [done|]. split; [done|]. split; [done|].
           intros _. apply Hsus0. lia.
    + left. unfold vm.running.
      rewrite (bind_eq _ _ _ _ _
                 (currentFrame_eq (afterCall vm f (p, c) numArgs)
                    (vm.NewFrame (p, c) (vm.sp vm - numArgs))
                    ltac:(simpl; lia)
                    ltac:(simpl;
                          replace (Z.to_nat (vm.framesIndex vm + 1 - 1))
                            with (Z.to_nat (vm.framesIndex vm)) by lia;
                          apply list_lookup_insert_eq; rewrite length_insert; lia))).
      unfold ret. do 2 f_equal. apply bool_decide_eq_true. simpl.
      change (vm.Instructions (vm.NewFrame (p, c) (vm.sp vm - numArgs)))
        with (ir.Instructions (ir.Function c)).
      rewrite Hfins. pose proof (closed_size _ _ Hfcl). unfold size in *. lia.
  - (* the returns *)
    apply execute_return in H as (v & Hv & Hbp1 & ->); [|done|done|done|tauto].
    assert (2 <= vm.framesIndex vm) as Hi2.
    { destruct (decide (vm.framesIndex vm = 1)) as [Hone|]; [|lia].
      rewrite Hone in Hbp. destruct (Hbp eq_refl). lia. }
    destruct (Hfr (Z.to_nat (vm.framesIndex vm - 1 - 1)) ltac:(lia))
      as (f2 & Hf2 & Hok2 & Hbp2 & Hsus2).
    split.
    + split; [done|]. split; [by apply Forall_insert|]. split; [done|].
      split; [simpl; lia|]. simpl. intros i Hlt.
      destruct (Hfr i ltac:(lia)) as (f0 & Hf0 & Hok0 & Hbp0 & Hsus0).
      exists f0. rewrite list_lookup_insert_ne by lia.
      split; [done|]. split; [done|]. split; [done|]. intros ?. apply Hsus0. lia.
    + left. unfold vm.running.
      rewrite (bind_eq _ _ _ _ _
                 (currentFrame_eq (afterReturn vm f v) f2 ltac:(simpl; lia)
                    ltac:(simpl; rewrite list_lookup_insert_ne by lia; done))).
      unfold ret. do 2 f_equal. apply bool_decide_eq_true.
      specialize (Hsus2 ltac:(lia)). lia.
Qed.

End Stepping.


(** ** Programs: from the source tree to the end of the run *)

Section Programs.

Import opcode.

Variable NodeString : ast.Node -> string.
Variable HashKey : ir.Object -> ir.HashKey.

Lemma wf_New_compiler : wf compiler.New.
Proof. split; [done|reflexivity]. Qed.

(** The code of a program that compiles: closed code that ends with the
    instruction of the last statement; the constants are integers, strings
    and functions with the code of compiled functions. *)
Lemma Compile_Program ss s c' :
  isProgram (ast.Program ss) = true -> last ss = Some s ->
  compiler.Compile NodeString (ast.Program ss) compiler.New = Return (None, c') ->
  exists code sc,
    current c' = Some sc /\
    compiler.instructions sc = assemble code /\
    closed code (finalOpcode s 1) /\
    Forall shapely (compiler.constants c').
Proof.
  intros Ht Hlast H. simpl in Ht, H. apply hasType_forallb in Ht.
  destruct (each_statements (compiler.Compile NodeString) ss)
    with (c := compiler.New) (c' := c') as (code & k & P & D);
    [|apply wf_New_compiler|done|].
  { rewrite Forall_forall in Ht |- *. intros x Hx.
    apply (Compile_typed NodeString x StatementNode). by apply Ht. }
  destruct P as (Hwf & W & C & T & Sh).
  destruct (wrote_current _ _ _ _ W) as (sc0 & sc & Hc0 & Hc & Hd).
  injection Hc0 as <-. simpl in Hd.
  exists code, sc. split; [done|]. split; [done|].
  split; [|by destruct W as (_ & -> & _)].
  destruct D as [(-> & _)|(s' & Hlast' & init & operands & -> & _ & Ti & _)];
    [discriminate|].
  assert (s' = s) as -> by congruence.
  exists init, operands. by split.
Qed.

Lemma shapely_good o : shapely o -> small o -> good o.
Proof. by destruct o. Qed.

(** The machine that [New] builds for the bytecode of a program is in a
    state of a run of compiled code. *)
Lemma New_vmOk bytecode code op :
  compiler.Instructions bytecode = assemble code -> closed code op ->
  len (compiler.Instructions bytecode) <= 65536 ->
  Forall shapely (compiler.Constants bytecode) ->
  Forall small (compiler.Constants bytecode) ->
  vmOk (compiler.Instructions bytecode) op (vm.New bytecode).
Proof.
  intros Hins Hcl Hsmall Hsh Hsm.
  split; [|split; [|split; [|split]]].
  - change (vm.constants (vm.New bytecode)) with (compiler.Constants bytecode).
    rewrite Forall_forall in Hsh, Hsm |- *. intros o Ho.
    apply shapely_good; auto.
  - change (vm.stack (vm.New bytecode)) with (replicate (Z.to_nat vm.StackSize) ir.Nil).
    by apply Forall_replicate.
  - change (vm.globals (vm.New bytecode))
      with (replicate (Z.to_nat vm.GlobalSize) ir.Nil).
    by apply Forall_replicate.
  - change (vm.framesIndex (vm.New bytecode)) with 1. lia.
  - change (vm.framesIndex (vm.New bytecode)) with 1.
    intros i Hi. assert (i = 0%nat) as -> by lia. eexists. split; [reflexivity|].
    split; [|split; [by split|lia]].
    split; [by apply Forall_nil|]. exists code, op, 0%nat.
    split; [exact Hins|]. split; [done|]. split; [reflexivity|].
    split; [by unfold size; rewrite <- Hins|]. split; [lia|reflexivity].
Qed.

Lemma runs_vmOk main mainOp vm vm' :
  mainOp <> OpCall -> vmOk main mainOp vm -> runs HashKey vm vm' -> vmOk main mainOp vm'.
Proof.
  intros Hmain Hok Hruns. induction Hruns as [|vm vm1 vm2 Hr Hs _ IH]; [done|].
  apply IH. by destruct (step_vmOk HashKey main mainOp vm vm1 Hmain Hok Hr Hs).
Qed.

Lemma finalOpcode_not_call s n : finalOpcode s n <> OpCall.
Proof. destruct s; simpl; try done. by destruct (decide _). Qed.

(** A run of a compiled program that returns no error ends with the last
    instruction of the program, executed in the frame of the program. *)
Lemma Run_ends_with_last_instruction ss s bytecode fuel vm' :
  isProgram (ast.Program ss) = true -> last ss = Some s ->
  bytecodeOf NodeString (ast.Program ss) = Some bytecode ->
  len (compiler.Instructions bytecode) <= 65536 ->
  Forall small (compiler.Constants bytecode) ->
  vm.Run HashKey fuel (vm.New bytecode) = Some (Return (None, vm')) ->
  exists vmp f,
    runs HashKey (vm.New bytecode) vmp /\
    vm.step HashKey vmp = Return (None, vm') /\
    vm.framesIndex vmp = 1 /\
    fetches vmp f (finalOpcode s 1) /\
    vm.basePointer f = 0 /\
    vm.Instructions f = compiler.Instructions bytecode /\
    vm.ip f + 1 + sizeOf (finalOpcode s 1) = len (compiler.Instructions bytecode).
Proof.
  intros Ht Hlast Hbc Hsmall Hsm HRun.
  unfold bytecodeOf in Hbc.
  destruct (compiler.Compile NodeString (ast.Program ss) compiler.New)
    as [[[err|] c]|] eqn:Hc; try discriminate.
  destruct (Compile_Program _ _ _ Ht Hlast Hc) as (code & sc & Hsc & Hins & Hcl & Hsh).
  assert (wf c) as Hwf.
  { destruct (Compile_grows NodeString _ _ _ wf_New_compiler Hc) as [? _]. done. }
  unfold compiler.Bytecode_ in Hbc.
  rewrite (bind_eq _ _ _ _ _ (currentInstructions_eq c sc (proj1 Hwf) Hsc)) in Hbc.
  unfold bind, get, ret in Hbc. injection Hbc as <-.
  cbn [compiler.Instructions compiler.Constants] in *.
  set (bytecode := {| compiler.Instructions := compiler.instructions sc;
                      compiler.Constants := compiler.constants c |}) in *.
  pose proof (New_vmOk bytecode code (finalOpcode s 1) Hins Hcl Hsmall Hsh Hsm) as Hok.
  pose proof (finalOpcode_not_call s 1) as Hmain.
  apply Run_runs in HRun as [Hruns Hend].
  apply runs_last in Hruns as [->|(vmp & Hruns & Hrun & Hstep)].
  { exfalso. unfold vm.running in Hend.
    rewrite (bind_eq _ _ _ _ _
               (currentFrame_eq (vm.New bytecode)
                  (vm.NewFrame (ir.HeapAddr 0,
                                {| ir.Function := {| ir.Instructions := compiler.instructions sc;
                                                     ir.NumLocals := 0;
                                                     ir.NumParameters := 0 |};
                                   ir.Free := [] |}) 0)
                  ltac:(by change (vm.framesIndex (vm.New bytecode)) with 1)
                  eq_refl)) in Hend.
    apply ret_Return in Hend as [Hend _]. symmetry in Hend.
    apply bool_decide_eq_false in Hend. apply Hend.
    change (-1 < len (compiler.instructions sc) - 1).
    rewrite Hins. pose proof (closed_size _ _ Hcl). unfold size in *. lia. }
  pose proof (runs_vmOk _ _ _ _ Hmain Hok Hruns) as Hokp.
  destruct (step_vmOk HashKey _ _ _ _ Hmain Hokp Hrun Hstep)
    as [_ [Hgo|(Hone & f & Hfetch & Hlen)]].
  { rewrite Hgo in Hend. discriminate. }
  exists vmp, f. split; [done|]. split; [done|]. split; [done|]. split; [done|].
  clear Hok. destruct Hokp as (_ & _ & _ & _ & Hfr).
  destruct (Hfr 0%nat ltac:(lia)) as (f0 & Hf0 & _ & Hbp & _).
  destruct (Hbp eq_refl) as [Hbase Hmaincode].
  pose proof Hfetch as (_ & Hf & _).
  replace (Z.to_nat (vm.framesIndex vmp - 1)) with 0%nat in Hf by lia.
  assert (f0 = f) as -> by congruence.
  split; [done|]. split; [done|]. rewrite Hlen. by rewrite Hmaincode.
Qed.

End Programs.


(** ** The symbols that a function literal captures *)

Section Resolving.

Import opcode compiler.

Lemma moveLeft_map {A B} (f : A -> B) (less : A -> A -> bool) (less' : B -> B -> bool) x r :
  (forall a b, less' (f a) (f b) = less a b) ->
  moveLeft less' (f x) (map f r) = map f (moveLeft less x r).
Proof.
  intros Hf. induction r as [|y r IH]; simpl; [done|].
  rewrite Hf. destruct (less x y); simpl; [by rewrite IH|done].
Qed.

Lemma map_reverse {A B} (f : A -> B) l : map f (reverse l) = reverse (map f l).
Proof.
  induction l as [|x l IH]; [done|].
  simpl. by rewrite !reverse_cons, map_app, IH.
Qed.

(** Sorting looks at the keys only. *)
Lemma sortSlice_map {A B} (f : A -> B) (less : A -> A -> bool) (less' : B -> B -> bool) l :
  (forall a b, less' (f a) (f b) = less a b) ->
  sortSlice less' (map f l) = map f (sortSlice less l).
Proof.
  intros Hf. unfold sortSlice. rewrite map_reverse. f_equal.
  change (@nil B) with (map f []). generalize (@nil A).
  induction l as [|x l IH]; intros acc; simpl; [done|].
  rewrite (moveLeft_map f less less') by done. apply IH.
Qed.

(** One step of [enclosing]. *)
Lemma enclosing_eq s n :
  enclosing s n
  = match store s !! n with
    | Some obj => bool_decide (Scope obj <> GlobalScope)
    | None =>
        match Outer s with
        | Some u => enclosing u n
        | None => false
        end
    end.
Proof.
  unfold enclosing. destruct s as [o st nd free]. simpl.
  destruct (st !! n) as [obj|]; [done|].
  destruct o as [u|]; [|done].
  destruct (Resolve n u) as [[obj|] u']; [|done]. simpl.
  destruct (Scope obj) eqn:E; simpl; rewrite ?E; by repeat case_bool_decide.
Qed.

(** A resolution that finds no symbol of an enclosing function leaves the
    table as it is. *)
Lemma Resolve_unchanged name s :
  forall r s', Resolve name s = (r, s') -> outside r -> s' = s.
Proof.
  induction s as [s IH] using SymbolTable_nested_ind.
  intros r s' H Hr. destruct s as [o st nd free]. simpl in *.
  destruct (st !! name) as [obj|]; [by injection H as _ <-|].
  destruct o as [u|]; [|by injection H as _ <-]. simpl in IH.
  destruct (Resolve name u) as [[obj|] u'] eqn:Hu.
  - destruct (Scope obj) eqn:E.
    + injection H as <- <-. by rewrite (IH _ _ eq_refl E).
    + injection H as <- <-. done.
    + injection H as <- <-. done.
  - injection H as <- <-. by rewrite (IH _ _ eq_refl I).
Qed.

(** A resolution does not change which names are symbols of enclosing
    functions. *)
Lemma enclosing_Resolve m s :
  namesOk s ->
  forall r s', Resolve m s = (r, s') -> forall n, enclosing s' n = enclosing s n.
Proof.
  induction s as [s IH] using SymbolTable_nested_ind.
  intros Hok r s' H n.
  destruct (Resolve_namesOk m s Hok _ _ H) as [_ Hname].
  destruct s as [o st nd free]. simpl in *. destruct Hok as [Hst Hout].
  destruct (st !! m) as [obj|] eqn:Hm; [by injection H as _ <-|].
  destruct o as [u|]; [|by injection H as _ <-]. simpl in IH, Hout.
  destruct (Resolve m u) as [r0 u'] eqn:Hu.
  pose proof (IH Hout _ _ eq_refl n) as IHn.
  destruct r0 as [obj|].
  2:{ injection H as <- <-. rewrite !(enclosing_eq (mkSymbolTable _ _ _ _)). simpl.
      by rewrite IHn. }
  assert (forall g, Scope g <> GlobalScope ->
            Scope obj <> GlobalScope -> Name obj = m ->
            enclosing {| Outer := Some u'; store := <[Name obj := g]> st;
                         numDefinitions := nd; FreeSymbols := free ++ [obj] |} n
            = enclosing {| Outer := Some u; store := st;
                           numDefinitions := nd; FreeSymbols := free |} n) as Hfree.
  { intros g Hg Hobj Hno. rewrite !(enclosing_eq (mkSymbolTable _ _ _ _)). simpl.
    destruct (decide (n = m)) as [->|Hne].
    - rewrite Hno, lookup_insert_eq, Hm. rewrite bool_decide_eq_true_2 by done.
      symmetry. unfold enclosing. rewrite Hu. simpl. by rewrite bool_decide_eq_true_2.
    - rewrite Hno, lookup_insert_ne by done. by rewrite IHn. }
  destruct (Resolve_namesOk m u Hout _ _ Hu) as [_ Hname0].
  pose proof (Hname0 _ eq_refl) as Hno.
  destruct (Scope obj) eqn:E.
  - injection H as <- <-. rewrite !(enclosing_eq (mkSymbolTable _ _ _ _)). simpl.
    by rewrite IHn.
  - injection H as <- <-. apply Hfree; try done; by rewrite ?E.
  - injection H as <- <-. apply Hfree; try done; by rewrite ?E.
Qed.

Lemma originals_snoc outer caps n :
  originals outer (caps ++ [n])
  = match Resolve n (originals outer caps).2 with
    | (Some symbol, o') => ((originals outer caps).1 ++ [symbol], o')
    | (None, o') => ((originals outer caps).1, o')
    end.
Proof.
  unfold originals. rewrite foldl_app. simpl.
  by destruct (foldl _ _ caps) as [acc o].
Qed.

Lemma originals_ok outer caps :
  namesOk outer ->
  namesOk (originals outer caps).2 /\
  forall n, enclosing (originals outer caps).2 n = enclosing outer n.
Proof.
  intros Hok. induction caps as [|m caps [IHok IH]] using rev_ind; [done|].
  rewrite originals_snoc.
  destruct (Resolve m (originals outer caps).2) as [r o'] eqn:Hr.
  destruct (Resolve_namesOk _ _ IHok _ _ Hr) as [Hok' _].
  pose proof (enclosing_Resolve _ _ IHok _ _ Hr) as He.
  destruct r as [symbol|]; simpl; (split; [done|]); intros n; by rewrite He, IH.
Qed.

End Resolving.

Section Capturing.

Import opcode compiler.

Variable outer : SymbolTable.
Variable ps bs : list string.

Hypothesis outer_ok : namesOk outer.

Local Unset Default Proof Using.

#[local] Arguments capture : simpl never.
#[local] Arguments originals : simpl never.

Lemma capture_app caps l1 l2 :
  capture outer ps caps (l1 ++ l2) = capture outer ps (capture outer ps caps l1) l2.
Proof. apply foldl_app. Qed.

Lemma capture_one caps n :
  capture outer ps caps [n]
  = if capturable outer ps n && bool_decide (n ∉ caps) then caps ++ [n] else caps.
Proof. done. Qed.

Lemma capture_known caps n :
  (capturable outer ps n = true -> n ∈ caps) -> capture outer ps caps [n] = caps.
Proof.
  intros H. rewrite capture_one. destruct (capturable outer ps n); [|done].
  simpl. by rewrite bool_decide_eq_false_2 by (intros Hn; by apply Hn, H).
Qed.

Lemma capture_concat {A} (f : A -> list string) caps x xs :
  capture outer ps caps (concat (map f (x :: xs)))
  = capture outer ps (capture outer ps caps (f x)) (concat (map f xs)).
Proof. simpl. apply capture_app. Qed.

(** Every capturable name of the list is among the captured ones. *)
Lemma capture_elem l : forall caps n,
  n ∈ caps \/ (n ∈ l /\ capturable outer ps n = true) -> n ∈ capture outer ps caps l.
Proof.
  induction l as [|m l IH]; intros caps n H; simpl.
  - destruct H as [H|[H _]]; [done|]. by apply elem_of_nil in H.
  - apply IH. destruct H as [H|[H Hc]].
    + left. destruct (_ && _); [|done]. apply elem_of_app. by left.
    + apply elem_of_cons in H as [->|H]; [|by right].
      left. rewrite Hc. simpl. case_bool_decide as Hn.
      * apply elem_of_app. right. by apply list_elem_of_singleton.
      * by destruct (decide (m ∈ caps)).
Qed.

Lemma unseen_mono caps caps' t :
  (forall n, n ∈ caps -> n ∈ caps') ->
  unseen outer ps bs caps t -> unseen outer ps bs caps' t.
Proof. intros Hsub H n Hc Hb Hn. apply H; try done. intros ?. by apply Hn, Hsub. Qed.

(** The table of the function itself resolves a name. *)
Lemma Resolve_atHost n F caps r F' :
  namesOk F ->
  unseen outer ps bs caps F -> atHost outer ps bs caps F ->
  (capturable outer ps n = true -> n ∉ bs) ->
  Resolve n F = (r, F') ->
  unseen outer ps bs (capture outer ps caps [n]) F' /\
  atHost outer ps bs (capture outer ps caps [n]) F'.
Proof.
  intros Hok Hun (Hfree & Hout & Hlen & Hcaps & Hps & Hbs) Hn H.
  destruct (Resolve_namesOk n F Hok _ _ H) as [_ Hname].
  destruct F as [o st nd free]. simpl in *. subst o.
  destruct (st !! n) as [obj|] eqn:Hst.
  { injection H as <- <-.
    rewrite capture_known; [done|].
    intros Hc. destruct (decide (n ∈ caps)) as [|Hnot]; [done|].
    specialize (Hun n Hc (Hn Hc) Hnot). simpl in Hun. congruence. }
  destruct (originals_ok outer caps outer_ok) as [Hoko Henc].
  destruct (Resolve n (originals outer caps).2) as [r0 o'] eqn:Hr.
  assert (n ∉ caps) as Hnot.
  { intros [i Hi]%list_elem_of_lookup. specialize (Hcaps i n Hi). simpl in Hcaps. congruence. }
  destruct (capturable outer ps n) eqn:Hc.
  - (* a symbol of an enclosing function: it is captured *)
    assert (capture outer ps caps [n] = caps ++ [n]) as ->.
    { rewrite capture_one, Hc. simpl. by rewrite bool_decide_eq_true_2. }
    pose proof (Hn eq_refl) as Hnb.
    unfold capturable in Hc. apply andb_true_iff in Hc as [_ He].
    rewrite <- Henc in He. unfold enclosing in He. rewrite Hr in He. simpl in He.
    destruct r0 as [obj|]; [|done]. apply bool_decide_eq_true_1 in He.
    destruct (Resolve_namesOk n _ Hoko _ _ Hr) as [_ Hname0].
    pose proof (Hname0 _ eq_refl) as Hno.
    assert ((r, F')
            = (Some {| Name := Name obj; Scope := FreeScope; Index := len free |},
               {| Outer := Some o'; store := <[Name obj := {| Name := Name obj;
                                                               Scope := FreeScope;
                                                               Index := len free |}]> st;
                  numDefinitions := nd; FreeSymbols := free ++ [obj] |})) as Heq.
    { rewrite <- H. by destruct (Scope obj). }
    injection Heq as -> ->. split.
    + intros m Hcm Hbm Hm. simpl. rewrite Hno, lookup_insert_ne.
      * apply (Hun m Hcm Hbm). intros ?. apply Hm, elem_of_app. by left.
      * intros <-. apply Hm, elem_of_app. right. by apply list_elem_of_singleton.
    + unfold atHost. simpl. rewrite originals_snoc, Hr. simpl.
      rewrite Hfree. split; [done|]. split; [done|].
      split; [rewrite !length_app; simpl; rewrite <- Hfree; lia|].
      split; [|split].
      * intros i m Hi. rewrite Hno.
        destruct (decide (i < length caps)%nat) as [Hlt|Hge].
        -- rewrite lookup_app_l in Hi by done.
           rewrite lookup_insert_ne; [by apply Hcaps|].
           intros <-. apply Hnot. by eapply list_elem_of_lookup_2.
        -- rewrite lookup_app_r in Hi by lia.
           destruct (i - length caps)%nat as [|j] eqn:Hj; [|done].
           injection Hi as <-. rewrite lookup_insert_eq. do 2 f_equal.
           unfold len. rewrite <- ?Hfree. lia.
      * intros p Hp. rewrite Hno.
        destruct (decide (p = n)) as [->|Hne]; [by rewrite lookup_insert_eq|].
        rewrite lookup_insert_ne by done. by apply Hps.
      * apply Forall_app. split; [done|]. by apply Forall_singleton.
  - (* no symbol of an enclosing function: nothing is captured *)
    assert (capture outer ps caps [n] = caps) as ->.
    { by rewrite capture_one, Hc. }
    assert (outside r0) as Hr0.
    { unfold capturable in Hc. apply andb_false_iff in Hc as [Hc|Hc].
      - apply bool_decide_eq_false_1 in Hc. destruct (decide (n ∈ ps)) as [Hp|]; [|done].
        destruct (Hps n Hp) as [? ?]. congruence.
      - rewrite <- Henc in Hc. unfold enclosing in Hc. rewrite Hr in Hc. simpl in Hc.
        destruct r0 as [obj|]; [|done]. simpl.
        apply bool_decide_eq_false_1 in Hc. by destruct (decide (Scope obj = GlobalScope)). }
    pose proof (Resolve_unchanged _ _ _ _ Hr Hr0) as ->.
    assert (F' = {| Outer := Some (originals outer caps).2; store := st;
                    numDefinitions := nd; FreeSymbols := free |}) as ->.
    { destruct r0 as [obj|]; simpl in Hr0.
      - rewrite Hr0 in H. by injection H as _ <-.
      - by injection H as _ <-. }
    done.
Qed.

(** A table [k] scopes inside the function resolves a name. *)
Lemma Resolve_capturing n k : forall t caps r t',
  namesOk t ->
  capturing outer ps bs caps k t ->
  (capturable outer ps n = true -> n ∉ bs) ->
  Resolve n t = (r, t') ->
  capturing outer ps bs (capture outer ps caps [n]) k t'.
Proof.
  induction k as [|k IH]; intros t caps r t' Hok [Hun Hk] Hn H.
  { destruct (Resolve_atHost n t caps r t' Hok Hun Hk Hn H). by split. }
  destruct t as [o st nd free]. simpl in *.
  destruct o as [u|]; [|done]. destruct Hok as [Hst Hok].
  assert (forall m, m ∈ caps -> m ∈ capture outer ps caps [n]) as Hsub.
  { intros m Hm. apply capture_elem. by left. }
  destruct (st !! n) as [obj|] eqn:Hl.
  { injection H as <- <-.
    rewrite capture_known; [done|].
    intros Hc. destruct (decide (n ∈ caps)) as [|Hnot]; [done|].
    specialize (Hun n Hc (Hn Hc) Hnot). simpl in Hun. congruence. }
  destruct (Resolve n u) as [r0 u'] eqn:Hr.
  pose proof (IH u caps r0 u' Hok Hk Hn Hr) as IHu.
  destruct (Resolve_namesOk n u Hok _ _ Hr) as [_ Hname0].
  assert (unseen outer ps bs (capture outer ps caps [n])
            {| Outer := Some u; store := st; numDefinitions := nd; FreeSymbols := free |})
    as Hun'.
  { by eapply unseen_mono. }
  destruct r0 as [obj|].
  2:{ injection H as <- <-. by split. }
  pose proof (Hname0 _ eq_refl) as Hno.
  destruct (Scope obj) eqn:E.
  - injection H as <- <-. by split.
  - injection H as <- <-. split; [|done].
    intros m Hcm Hbm Hm. simpl. rewrite Hno, lookup_insert_ne; [by apply Hun'|].
    intros <-. apply Hm, capture_elem. right. split; [by apply list_elem_of_singleton|done].
  - injection H as <- <-. split; [|done].
    intros m Hcm Hbm Hm. simpl. rewrite Hno, lookup_insert_ne; [by apply Hun'|].
    intros <-. apply Hm, capture_elem. right. split; [by apply list_elem_of_singleton|done].
Qed.

(** A definition of a bound name. *)
Lemma Define_capturing name k : forall t caps,
  name ∈ bs ->
  capturing outer ps bs caps k t ->
  capturing outer ps bs caps k (Define name t).2.
Proof.
  intros t caps Hb Hc.
  assert (unseen outer ps bs caps t ->unseen outer ps bs caps (Define name t).2) as Hun'.
  { intros Hun m Hcm Hbm Hm. simpl. rewrite lookup_insert_ne; [by apply Hun|].
    by intros <-. }
  destruct k as [|k]; destruct Hc as [Hun Hk]; (split; [by apply Hun'|]); [|done].
  destruct Hk as (Hfree & Hout & Hlen & Hcaps & Hps & Hbs).
  unfold atHost. simpl. repeat (split; [done|]). split; [|split; [|done]].
  - intros i m Hi. rewrite lookup_insert_ne; [by apply Hcaps|].
    intros <-. rewrite Forall_forall in Hbs. apply (Hbs name); [|done].
    by eapply list_elem_of_lookup_2.
  - intros p Hp. destruct (decide (p = name)) as [->|Hne]; [by rewrite lookup_insert_eq|].
    rewrite lookup_insert_ne by done. by apply Hps.
Qed.

End Capturing.

Section Tables.

Import opcode compiler.

(** The steps of the compiler that leave the symbol table alone. *)
Lemma currentScope_state c sc c' : currentScope c = Return (sc, c') -> c' = c.
Proof. unfold currentScope. by intros [_ ->]%lift_Return. Qed.

Lemma setCurrentScope_table c sc r c' :
  setCurrentScope sc c = Return (r, c') -> symbolTable c' = symbolTable c.
Proof.
  unfold setCurrentScope. destruct (assign _ _ _); [|discriminate]. by intros [= _ <-].
Qed.

Lemma currentInstructions_state c ins c' :
  currentInstructions c = Return (ins, c') -> c' = c.
Proof.
  unfold currentInstructions. intros H. go_step H as H1.
  apply currentScope_state in H1 as ->. by apply ret_Return in H as [_ ->].
Qed.

Lemma emit_table c op operands pos c' :
  emit op operands c = Return (pos, c') -> symbolTable c' = symbolTable c.
Proof.
  unfold emit, addInstruction, setLastInstruction. intros H.
  go_step H as H1. go_step H1 as H2. apply currentInstructions_state in H2 as ->.
  go_step H1 as H2. apply currentScope_state in H2 as ->.
  go_step H1 as H2. apply setCurrentScope_table in H2. apply ret_Return in H1 as [_ ->].
  go_step H as H3. go_step H3 as H4. apply currentScope_state in H4 as ->.
  apply setCurrentScope_table in H3. apply ret_Return in H as [_ ->]. congruence.
Qed.

Lemma addConstant_table c obj i c' :
  addConstant obj c = Return (i, c') -> symbolTable c' = symbolTable c.
Proof. unfold addConstant. by intros [= _ <-]. Qed.

Lemma lastInstructionIs_state c op b c' :
  lastInstructionIs op c = Return (b, c') -> c' = c.
Proof.
  unfold lastInstructionIs. intros H. go_step H as H1.
  apply currentInstructions_state in H1 as ->.
  destruct (decide _); [by apply ret_Return in H as [_ ->]|].
  go_step H as H1. apply currentScope_state in H1 as ->. by apply ret_Return in H as [_ ->].
Qed.

Lemma removeLastPop_table c r c' :
  removeLastPop c = Return (r, c') -> symbolTable c' = symbolTable c.
Proof.
  unfold removeLastPop. intros H. go_step H as H1. apply currentScope_state in H1 as ->.
  go_step H as H1. apply currentInstructions_state in H1 as ->.
  destruct (decide _); [|discriminate]. by apply setCurrentScope_table in H.
Qed.

Lemma removeLastPopIfAny_table c r c' :
  removeLastPopIfAny c = Return (r, c') -> symbolTable c' = symbolTable c.
Proof.
  unfold removeLastPopIfAny. intros H. go_step H as H1.
  apply lastInstructionIs_state in H1 as ->.
  match type of H with (if ?b then _ else _) _ = _ => destruct b end.
  - by apply removeLastPop_table in H.
  - by apply ret_Return in H as [_ ->].
Qed.

Lemma replaceInstruction_table c pos new r c' :
  replaceInstruction pos new c = Return (r, c') -> symbolTable c' = symbolTable c.
Proof.
  unfold replaceInstruction. intros H. go_step H as H1. apply currentScope_state in H1 as ->.
  go_step H as H1. apply lift_Return in H1 as [_ ->]. by apply setCurrentScope_table in H.
Qed.

Lemma changeOperand_table c opPos operand r c' :
  changeOperand opPos operand c = Return (r, c') -> symbolTable c' = symbolTable c.
Proof.
  unfold changeOperand. intros H. go_step H as H1.
  apply currentInstructions_state in H1 as ->.
  go_step H as H1. apply lift_Return in H1 as [_ ->].
  by apply replaceInstruction_table in H.
Qed.

Lemma replaceLastPopWithReturn_table c r c' :
  replaceLastPopWithReturn c = Return (r, c') -> symbolTable c' = symbolTable c.
Proof.
  unfold replaceLastPopWithReturn. intros H.
  go_step H as H1. apply currentScope_state in H1 as ->.
  go_step H as H1. apply replaceInstruction_table in H1.
  go_step H as H2. apply currentScope_state in H2 as ->.
  apply setCurrentScope_table in H. congruence.
Qed.

Lemma loadSymbol_table c s r c' :
  loadSymbol s c = Return (r, c') -> symbolTable c' = symbolTable c.
Proof.
  unfold loadSymbol. intros H.
  destruct (Scope s); go_step H as H1; apply emit_table in H1;
    apply ret_Return in H as [_ ->]; done.
Qed.

Lemma foreach_loadSymbol_table ss : forall c r c',
  foreach loadSymbol ss c = Return (r, c') -> symbolTable c' = symbolTable c.
Proof.
  induction ss as [|s ss IH]; intros c r c' H; simpl in H.
  - by apply ret_Return in H as [_ ->].
  - go_step H as H1. apply loadSymbol_table in H1. apply IH in H. congruence.
Qed.

Lemma implicitReturn_table c r c' :
  implicitReturn c = Return (r, c') -> symbolTable c' = symbolTable c.
Proof.
  unfold implicitReturn. intros H.
  go_step H as H1. apply lastInstructionIs_state in H1 as ->.
  go_step H as H1 into c1.
  assert (symbolTable c1 = symbolTable c) as E1.
  { match type of H1 with (if ?b then _ else _) _ = _ => destruct b end.
    - by apply replaceLastPopWithReturn_table in H1.
    - by apply ret_Return in H1 as [_ ->]. }
  go_step H as H2. apply lastInstructionIs_state in H2 as ->.
  match type of H with (if ?b then _ else _) _ = _ => destruct b end.
  - by apply ret_Return in H as [_ ->].
  - go_step H as H3. apply emit_table in H3. apply ret_Return in H as [_ ->]. congruence.
Qed.

End Tables.

Section Tracking.

Import opcode compiler.

Variable NodeString : ast.Node -> string.
Variable outer : SymbolTable.
Variable ps bs : list string.

Hypothesis outer_ok : namesOk outer.

Local Unset Default Proof Using.

#[local] Arguments capture : simpl never.

Lemma tracks_same caps k c c' :
  symbolTable c' = symbolTable c ->
  tracks outer ps bs caps k c -> tracks outer ps bs caps k c'.
Proof. intros E (t & Ht & H). exists t. by rewrite E. Qed.

Lemma define_tracks caps k name c symbol c' :
  name ∈ bs ->
  tracks outer ps bs caps k c -> define name c = Return (symbol, c') ->
  tracks outer ps bs caps k c'.
Proof.
  intros Hb (t & Ht & Hok & Hc) H. unfold define in H. rewrite Ht in H.
  destruct (Define name t) as [sym t'] eqn:Hd. injection H as _ <-.
  exists t'. split; [done|].
  replace t' with (Define name t).2 by by rewrite Hd.
  split; [by apply namesOk_Define|by apply Define_capturing].
Qed.

Lemma foreach_define_tracks caps k names : forall c r c',
  bindable bs names ->
  tracks outer ps bs caps k c -> foreach define names c = Return (r, c') ->
  tracks outer ps bs caps k c'.
Proof.
  induction names as [|name names IH]; intros c r c' Hb T H; simpl in H.
  - by apply ret_Return in H as [_ ->].
  - apply Forall_cons in Hb as [Hname Hb]. go_step H as H1.
    eapply IH; [done| |done]. by eapply define_tracks.
Qed.

Lemma resolve_tracks caps k name c r c' :
  (capturable outer ps name = true -> name ∉ bs) ->
  tracks outer ps bs caps k c -> resolve name c = Return (r, c') ->
  tracks outer ps bs (capture outer ps caps [name]) k c'.
Proof.
  intros Hn (t & Ht & Hok & Hc) H. unfold resolve in H. rewrite Ht in H.
  destruct (Resolve name t) as [r0 t'] eqn:Hr. injection H as _ <-.
  exists t'. split; [done|].
  split; [by destruct (Resolve_namesOk name t Hok _ _ Hr)|].
  by eapply Resolve_capturing.
Qed.

Lemma enterScope_tracks caps k c r c' :
  tracks outer ps bs caps k c -> enterScope c = Return (r, c') ->
  tracks outer ps bs caps (S k) c'.
Proof.
  intros (t & Ht & Hok & Hc) H. unfold enterScope in H. injection H as _ <-.
  eexists. split; [done|]. rewrite Ht. split; [|split].
  - split; [|done]. intros name symbol Hl. simpl in Hl. by rewrite lookup_empty in Hl.
  - intros n _ _ _. simpl. apply lookup_empty.
  - done.
Qed.

Lemma leaveScope_tracks caps k c ins c' :
  tracks outer ps bs caps (S k) c -> leaveScope c = Return (ins, c') ->
  tracks outer ps bs caps k c'.
Proof.
  intros (t & Ht & Hok & Hun & Hc) H. unfold leaveScope in H.
  go_step H as H1. apply currentInstructions_state in H1 as ->.
  destruct (decide _); [discriminate|]. rewrite Ht in H. injection H as _ <-.
  destruct t as [o st nd fr]. simpl in *. destruct o as [u|]; [|done].
  exists u. split; [done|]. split; [by destruct Hok|done].
Qed.

Lemma each_tracked nodes :
  Forall (tracked NodeString outer ps bs) nodes ->
  forall k caps c c',
    unbound outer ps bs (concat (map (identifiers NodeString) nodes)) ->
    bindable bs (concat (map bound nodes)) ->
    tracks outer ps bs caps k c ->
    each (Compile NodeString) nodes c = Return (None, c') ->
    tracks outer ps bs
      (capture outer ps caps (concat (map (identifiers NodeString) nodes))) k c'.
Proof.
  induction 1 as [|node nodes Hnode _ IH]; intros k caps c c' Hf Hb T H; simpl in H.
  - by apply ret_Return in H as [_ ->].
  - simpl in Hf, Hb. apply Forall_app in Hf as [Hf1 Hf2]. apply Forall_app in Hb as [Hb1 Hb2].
    go_step H as H1. simpl. rewrite (capture_app outer ps).
    eapply IH; [done|done| |done]. by eapply Hnode.
Qed.

(** Moves [T : tracks ... c] along a step of the compiler from [c]. *)
Ltac follow :=
  match goal with
  | T : tracks _ _ _ _ _ ?c, H : emit _ _ ?c = Return (_, _) |- _ =>
      apply emit_table in H
  | T : tracks _ _ _ _ _ ?c, H : addConstant _ ?c = Return (_, _) |- _ =>
      apply addConstant_table in H
  | T : tracks _ _ _ _ _ ?c, H : changeOperand _ _ ?c = Return (_, _) |- _ =>
      apply changeOperand_table in H
  | T : tracks _ _ _ _ _ ?c, H : removeLastPopIfAny ?c = Return (_, _) |- _ =>
      apply removeLastPopIfAny_table in H
  | T : tracks _ _ _ _ _ ?c, H : currentInstructions ?c = Return (_, _) |- _ =>
      apply currentInstructions_state in H; apply (f_equal symbolTable) in H
  | T : tracks _ _ _ _ _ ?c, H : lastInstructionIs _ ?c = Return (_, _) |- _ =>
      apply lastInstructionIs_state in H; apply (f_equal symbolTable) in H
  | T : tracks _ _ _ _ _ ?c, H : replaceLastPopWithReturn ?c = Return (_, _) |- _ =>
      apply replaceLastPopWithReturn_table in H
  | T : tracks _ _ _ _ _ ?c, H : foreach loadSymbol _ ?c = Return (_, _) |- _ =>
      apply foreach_loadSymbol_table in H
  | T : tracks _ _ _ _ _ ?c, H : loadSymbol _ ?c = Return (_, _) |- _ =>
      apply loadSymbol_table in H
  end;
  match goal with
  | T : tracks _ _ _ _ _ ?c, H : symbolTable ?c' = symbolTable ?c |- _ =>
      apply (tracks_same _ _ _ _ H) in T; clear H
  end.

Lemma Compile_tracked node : tracked NodeString outer ps bs node.
Proof.
  induction node as
    [ss IHss|e IHe|name v IHv|v IHv|ss IHss|v|v|v|v|es IHes|pairs IHps|op r IHr
    |l op r IHl IHr|cond t e IHc IHt IHe|l i IHl IHi|fn args IHfn IHargs|params b IHb]
    using Node_nested_ind; intros k caps c0 c' Hf Hb T H; simpl in H, Hf, Hb |- *.
  - (* Program *) by eapply each_tracked.
  - (* ExpressionStatement *)
    go_step H as H1. apply (IHe _ _ _ _ Hf Hb T) in H1. clear T. rename H1 into T.
    go_step H as H1. follow. by apply ret_Return in H as [_ <-].
  - (* LetStatement *)
    apply Forall_cons in Hb as [Hname Hb].
    go_step H as H1. apply (define_tracks _ _ _ _ _ _ Hname T) in H1. clear T. rename H1 into T.
    go_step H as H1. apply (IHv _ _ _ _ Hf Hb T) in H1. clear T. rename H1 into T.
    go_step H as H1. destruct (decide _); follow; by apply ret_Return in H as [_ <-].
  - (* ReturnStatement *)
    go_step H as H1. apply (IHv _ _ _ _ Hf Hb T) in H1. clear T. rename H1 into T.
    go_step H as H1. follow. by apply ret_Return in H as [_ <-].
  - (* BlockStatement *) by eapply each_tracked.
  - (* Identifier *)
    apply (proj1 (Forall_singleton _ _)) in Hf.
    go_step H as H1. apply (resolve_tracks _ _ _ _ _ _ Hf T) in H1. clear T. rename H1 into T.
    match type of H with match ?r with _ => _ end _ = _ => destruct r end;
      [|by apply ret_Return in H as [? _]].
    go_step H as H1. follow. by apply ret_Return in H as [_ <-].
  - (* IntegerLiteral *)
    go_step H as H1. follow. go_step H as H1. follow. by apply ret_Return in H as [_ <-].
  - (* StringLiteral *)
    go_step H as H1. apply get_Return in H1 as [-> ->].
    go_step H as H1. follow. go_step H as H1. follow. by apply ret_Return in H as [_ <-].
  - (* Boolean *)
    go_step H as H1. destruct v; follow; by apply ret_Return in H as [_ <-].
  - (* ArrayLiteral *)
    go_step H as H1. apply (each_tracked _ IHes _ _ _ _ Hf Hb T) in H1.
    clear T. rename H1 into T.
    go_step H as H1. follow. by apply ret_Return in H as [_ <-].
  - (* HashLiteral *)
    go_step H as H1 into chash.
    rewrite (sortSlice_map
               (fun kv : ast.Node * ast.Node =>
                  (kv.1, (try Compile NodeString kv.1 ;; try Compile NodeString kv.2 ;; ret None)))
               (keyLess NodeString) (keyLess NodeString)) in H1 by done.
    rewrite (sortSlice_map
               (fun kv : ast.Node * ast.Node =>
                  (kv.1, identifiers NodeString kv.1 ++ identifiers NodeString kv.2))
               (keyLess NodeString) (keyLess NodeString)) in Hf |- * by done.
    assert (Forall (fun kv => (tracked NodeString outer ps bs kv.1
                               /\ tracked NodeString outer ps bs kv.2)
                              /\ bindable bs (bound kv.1) /\ bindable bs (bound kv.2))
                   (sortSlice (keyLess NodeString) pairs)) as Hsorted.
    { apply Forall_forall. intros kv Hin%sortSlice_elem. split.
      - rewrite Forall_forall in IHps. by apply IHps.
      - unfold bindable in Hb |- *. rewrite Forall_concat, Forall_map in Hb.
        rewrite Forall_forall in Hb. specialize (Hb _ Hin). simpl in Hb.
        by apply Forall_app in Hb. }
    clear IHps Hb.
    assert (tracks outer ps bs
              (capture outer ps caps
                 (concat (map snd
                    (map (fun kv : ast.Node * ast.Node =>
                            (kv.1, identifiers NodeString kv.1 ++ identifiers NodeString kv.2))
                         (sortSlice (keyLess NodeString) pairs))))) k chash) as T'.
    { revert caps c0 T Hf H1.
      induction Hsorted as [|kv sorted [[Hk Hv] [Hbk Hbv]] _ IH]; intros caps c0 T Hf H1;
        simpl in H1, Hf |- *.
      - by apply ret_Return in H1 as [_ <-].
      - apply Forall_app in Hf as [Hf1 Hf2]. apply Forall_app in Hf1 as [Hfk Hfv].
        go_step H1 as H2. go_step H2 as H3. apply (Hk _ _ _ _ Hfk Hbk T) in H3.
        go_step H2 as H4. apply (Hv _ _ _ _ Hfv Hbv H3) in H4.
        apply ret_Return in H2 as [_ <-].
        rewrite !(capture_app outer ps). by eapply IH. }
    clear T. rename T' into T.
    go_step H as H2. follow. by apply ret_Return in H as [_ <-].
  - (* PrefixExpression *)
    go_step H as H1. apply (IHr _ _ _ _ Hf Hb T) in H1. clear T. rename H1 into T.
    destruct (prefixOpcode op); [|by apply ret_Return in H as [? _]].
    go_step H as H1. follow. by apply ret_Return in H as [_ <-].
  - (* InfixExpression *)
    apply Forall_app in Hb as [Hbl Hbr].
    destruct (decide (op = "<")).
    + apply Forall_app in Hf as [Hfr Hfl]. rewrite (capture_app outer ps).
      go_step H as H1. apply (IHr _ _ _ _ Hfr Hbr T) in H1. clear T. rename H1 into T.
      go_step H as H1. apply (IHl _ _ _ _ Hfl Hbl T) in H1. clear T. rename H1 into T.
      go_step H as H1. follow. by apply ret_Return in H as [_ <-].
    + apply Forall_app in Hf as [Hfl Hfr]. rewrite (capture_app outer ps).
      go_step H as H1. apply (IHl _ _ _ _ Hfl Hbl T) in H1. clear T. rename H1 into T.
      go_step H as H1. apply (IHr _ _ _ _ Hfr Hbr T) in H1. clear T. rename H1 into T.
      destruct (infixOpcode op); [|by apply ret_Return in H as [? _]].
      go_step H as H1. follow. by apply ret_Return in H as [_ <-].
  - (* IfExpression *)
    apply Forall_app in Hf as [Hfc Hf]. apply Forall_app in Hf as [Hft Hfe].
    apply Forall_app in Hb as [Hbc Hb]. apply Forall_app in Hb as [Hbt Hbe].
    rewrite !(capture_app outer ps).
    go_step H as H1. apply (IHc _ _ _ _ Hfc Hbc T) in H1. clear T. rename H1 into T.
    go_step H as H1. follow.
    go_step H as H1. apply (IHt _ _ _ _ Hft Hbt T) in H1. clear T. rename H1 into T.
    go_step H as H1. follow. go_step H as H1. follow. go_step H as H1. follow.
    go_step H as H1. follow.
    go_step H as H1 into calt.
    assert (tracks outer ps bs
              (capture outer ps
                 (capture outer ps (capture outer ps caps (identifiers NodeString cond))
                    (identifiers NodeString t))
                 match e with
                 | Some alternative => identifiers NodeString alternative
                 | None => []
                 end) k calt) as T'.
    { destruct e as [alternative|]; simpl in IHe.
      - go_step H1 as H2. apply (IHe _ _ _ _ Hfe Hbe T) in H2. clear T. rename H2 into T.
        go_step H1 as H2. follow. by apply ret_Return in H1 as [_ <-].
      - go_step H1 as H2. follow. by apply ret_Return in H1 as [_ <-]. }
    clear T. rename T' into T.
    go_step H as H2. follow. go_step H as H2. follow. by apply ret_Return in H as [_ <-].
  - (* IndexExpression *)
    apply Forall_app in Hf as [Hfl Hfi]. apply Forall_app in Hb as [Hbl Hbi].
    rewrite (capture_app outer ps).
    go_step H as H1. apply (IHl _ _ _ _ Hfl Hbl T) in H1. clear T. rename H1 into T.
    go_step H as H1. apply (IHi _ _ _ _ Hfi Hbi T) in H1. clear T. rename H1 into T.
    go_step H as H1. follow. by apply ret_Return in H as [_ <-].
  - (* CallExpression *)
    apply Forall_app in Hf as [Hff Hfa]. apply Forall_app in Hb as [Hbf Hba].
    rewrite (capture_app outer ps).
    go_step H as H1. apply (IHfn _ _ _ _ Hff Hbf T) in H1. clear T. rename H1 into T.
    go_step H as H1. apply (each_tracked _ IHargs _ _ _ _ Hfa Hba T) in H1.
    clear T. rename H1 into T.
    go_step H as H1. follow. by apply ret_Return in H as [_ <-].
  - (* FunctionLiteral *)
    apply Forall_app in Hb as [Hbp Hbb].
    go_step H as H1. apply (enterScope_tracks _ _ _ _ _ T) in H1. clear T. rename H1 into T.
    go_step H as H1. apply (foreach_define_tracks _ _ _ _ _ _ Hbp T) in H1.
    clear T. rename H1 into T.
    go_step H as H1. apply (IHb _ _ _ _ Hf Hbb T) in H1. clear T. rename H1 into T.
    go_step H as H1. follow.
    go_step H as H1.
    match type of H1 with (if ?b then _ else _) _ = _ => destruct b end;
      [follow|apply ret_Return in H1 as [_ <-]].
    all: go_step H as H2; follow.
    all: go_step H as H2;
      match type of H2 with (if ?b then _ else _) _ = _ => destruct b end;
      [apply ret_Return in H2 as [_ <-]
      |go_step H2 as H3; follow; apply ret_Return in H2 as [_ <-]].
    all: go_step H as H4; unfold theSymbolTable in H4;
      match type of H4 with match ?s with _ => _ end = _ => destruct s; [|discriminate] end;
      injection H4 as <- <-.
    all: go_step H as H5; apply (leaveScope_tracks _ _ _ _ _ T) in H5; clear T; rename H5 into T.
    all: go_step H as H6; follow.
    all: go_step H as H7; apply get_Return in H7 as [-> ->].
    all: go_step H as H8; follow.
    all: go_step H as H9; follow; by apply ret_Return in H as [_ <-].
Qed.

End Tracking.

Section Captured.

Import opcode compiler.

Variable NodeString : ast.Node -> string.
Variable HashKey : ir.Object -> ir.HashKey.

#[local] Arguments capture : simpl never.

(** The table after the definitions of the parameters. *)
Lemma foreach_define_store names : forall c r c' t,
  symbolTable c = Some t ->
  foreach define names c = Return (r, c') ->
  exists t',
    symbolTable c' = Some t' /\
    Outer t' = Outer t /\ FreeSymbols t' = FreeSymbols t /\
    (namesOk t -> namesOk t') /\
    forall n, store t' !! n = None <-> store t !! n = None /\ n ∉ names.
Proof.
  induction names as [|name names IH]; intros c r c' t Ht H; simpl in H.
  - apply ret_Return in H as [_ ->]. exists t. repeat (split; [done|]).
    intros n. split; [|by intros [? _]]. intros ?. split; [done|]. apply not_elem_of_nil.
  - go_step H as H1 into c1. unfold define in H1. rewrite Ht in H1.
    destruct (Define name t) as [sym t1] eqn:Hd. injection H1 as _ <-.
    pose proof (fun E => IH _ _ _ t1 E H) as IH'.
    destruct (IH' eq_refl) as (t' & Ht' & Ho & Hf & Hok & Hst).
    assert (t1 = (Define name t).2) as E by by rewrite Hd.
    exists t'. split; [done|]. rewrite Ho, Hf, E. split; [done|]. split; [done|].
    split. { intros ?. apply Hok. rewrite E. by apply namesOk_Define. }
    intros n. rewrite Hst, E. simpl. rewrite lookup_insert_None, not_elem_of_cons.
    naive_solver.
Qed.

(** The first two values above the stack pointer minus two. *)
Lemma take_drop_two {A} (l : list A) (i : nat) a b :
  l !! i = Some a -> l !! S i = Some b -> take 2 (drop i l) = [a; b].
Proof.
  intros Ha Hb. rewrite (drop_S _ a _ Ha), (drop_S _ b _ Hb). simpl. by rewrite take_0.
Qed.

(** The table of a function literal at the end of its body. *)
Lemma Compile_FunctionLiteral_captures ps body outer c c2 r c3 :
  symbolTable c = Some outer -> namesOk outer ->
  Forall (fun n => n ∉ bound body) (captures NodeString outer ps body) ->
  (enterScope ;; foreach define ps) c = Return (r, c2) ->
  Compile NodeString body c2 = Return (None, c3) ->
  tracks outer ps (bound body) (captures NodeString outer ps body) 0%nat c3.
Proof.
  intros Hc Hok Hcaps H2 H3.
  go_step H2 as H1 into c1. unfold enterScope in H1. injection H1 as _ <-.
  pose proof (fun t0 E => foreach_define_store ps _ _ _ t0 E H2) as Hdef.
  destruct (Hdef _ eq_refl) as (t & Ht & Ho & Hf & Hokt & Hst). clear Hdef.
  simpl in Ho, Hf, Hokt, Hst. rewrite Hc in Ho.
  apply (Compile_tracked NodeString outer ps (bound body) Hok body 0%nat [] c2 c3); try done.
  - apply Forall_forall. intros n Hn Hcn.
    rewrite Forall_forall in Hcaps. apply Hcaps.
    apply capture_elem. right. by split.
  - by apply Forall_forall.
  - exists t. split; [done|]. split.
    { apply Hokt. split; [|by rewrite Hc].
      intros name symbol Hl. simpl in Hl. by rewrite lookup_empty in Hl. }
    split.
    + intros n Hcn _ _. apply Hst. split; [apply lookup_empty|].
      unfold capturable in Hcn. apply andb_true_iff in Hcn as [Hp _].
      by apply bool_decide_eq_true_1 in Hp.
    + unfold atHost. rewrite Hf. simpl. repeat (split; [done|]). split; [|done].
      intros p Hp. destruct (store t !! p) eqn:E; [done|].
      apply Hst in E as [_ E]. done.
Qed.

End Captured.

Section CapturedClaim.

Import opcode compiler.

Variable NodeString : ast.Node -> string.
Variable HashKey : ir.Object -> ir.HashKey.

#[local] Arguments capture : simpl never.

(** The compiler at the start of the body of a function literal. *)
Lemma function_scope_entered ps c r c2 :
  wf c ->
  (enterScope ;; foreach define ps) c = Return (r, c2) ->
  wf c2 /\ constants c2 = constants c.
Proof.
  intros [Hi Hl] H. go_step H as H1 into c1. unfold enterScope in H1. injection H1 as _ <-.
  match type of H with foreach _ _ ?c1 = _ =>
    destruct (foreach_define_eq ps c1 _ eq_refl) as (s' & Hs' & _)
  end.
  rewrite Hs' in H. injection H as _ <-.
  split; [|done]. split; simpl; [lia|].
  unfold len in *. rewrite length_app. simpl. lia.
Qed.


End CapturedClaim.


